(** * Md2: keyframe-model loader and animation player

    A shallow embedding of [Md2.cpp] / [Md2.hpp]: the binary loader
    ([Md2::Load]), the animation state machine ([Play], [Pause],
    [NextAnimation], [PreviousAnimation], [Update]) and the vertex stream
    generator ([Md2::GenVertices]); of the streaming of the vertices in
    [on_update] (main.cpp); and of [fw::next_power_of_two] and
    [fw::Tga::_Flip] (Framework.cpp).  The properties of the specification
    that were checked against the code follow the definitions, and further
    properties of the code follow them.

    Conventions of the embedding.
    - Fixed-width integers are [Z] with the wrap-around of the conversion
      written out ([int16_t], [uint16_t], ...).
    - A [float] is a finite value, an infinity or a NaN.  The finite values
      are rationals and the result of an operation on them is the exact
      result (rounding to 24 bits is left out) unless its magnitude is past
      the largest [float], where it is an infinity as in the source.  The
      operations on infinities and NaNs are those of IEEE 754.
    - An owning pointer ([Skin*], [_Frame*], ...) is an [option]: [None] is a
      pointer that designates no array.
    - Undefined behaviour (an access outside an array, [delete[]] on a
      pointer that was never set, a conversion of a value that the target
      type cannot hold) has no result: the operation returns [None]. *)

From Stdlib Require Import String.
From Stdlib.Strings Require Import Byte.
From Stdlib Require Import ZArith QArith Qround Lia Lqa List Bool.
Import ListNotations.

Local Open Scope Z_scope.

(** ** Fixed-width integers *)

Module Int.

(** Conversion of an integer to a signed type of [w] bits (two's
    complement wrap-around). *)
Definition wrap_signed (w : Z) (z : Z) : Z :=
  (z + 2 ^ (w - 1)) mod 2 ^ w - 2 ^ (w - 1).

(** Conversion of an integer to an unsigned type of [w] bits. *)
Definition wrap_unsigned (w : Z) (z : Z) : Z := z mod 2 ^ w.

Definition int16_t : Z -> Z := wrap_signed 16.
Definition int32_t : Z -> Z := wrap_signed 32.
Definition uint16_t : Z -> Z := wrap_unsigned 16.

Definition in_int16 (z : Z) : bool := (-32768 <=? z) && (z <=? 32767).

End Int.

(** ** Arrays and undefined accesses *)

(** [a[i]] for an array held as a list: defined inside the array only. *)
Definition index {A : Type} (a : list A) (i : Z) : option A :=
  if i <? 0 then None else nth_error a (Z.to_nat i).

(** [p[i]] through a pointer: the pointer must designate an array. *)
Definition deref {A : Type} (p : option (list A)) (i : Z) : option A :=
  match p with
  | Some a => index a i
  | None => None
  end.

Definition bind {A B : Type} (o : option A) (k : A -> option B) : option B :=
  match o with
  | Some a => k a
  | None => None
  end.

Notation "x <- o ;; k" := (bind o (fun x => k))
  (at level 61, o at next level, right associativity).

(** A fixed array of three elements ([float p[3]], [uint16_t iPos[3]]). *)
Definition array3 (A : Type) : Type := (A * A * A)%type.

Definition get3 {A : Type} (a : array3 A) (j : Z) : A :=
  let '(a0, a1, a2) := a in
  if j =? 0 then a0 else if j =? 1 then a1 else a2.

(** ** Floating-point values and the operations of <cmath> *)

Module Float.

Local Open Scope Q_scope.

Inductive float : Type :=
| Finite (q : Q)   (* a finite value; the two zeros are one value *)
| PInf             (* +infinity *)
| NInf             (* -infinity *)
| NaN.             (* not a number *)

(** The magnitude from which a result is rounded to an infinity:
    [FLT_MAX] plus half a unit in its last place. *)
Definition limit : Q := inject_Z (2 ^ 128 - 2 ^ 103)%Z.

(** The [float] of an exact result. *)
Definition value (q : Q) : float :=
  if Qle_bool limit q then PInf
  else if Qle_bool q (- limit) then NInf
  else Finite q.

(** Conversion of a value of an integer type of at most 32 bits. *)
Definition of_int (z : Z) : float := Finite (inject_Z z).

(** The same value: equal finite numbers, the same infinity, or NaN on
    both sides. *)
Definition eq (x y : float) : Prop :=
  match x, y with
  | Finite a, Finite b => a == b
  | PInf, PInf => True
  | NInf, NInf => True
  | NaN, NaN => True
  | _, _ => False
  end.

Definition eqb (x y : float) : bool :=
  match x, y with
  | Finite a, Finite b => Qeq_bool a b
  | PInf, PInf => true
  | NInf, NInf => true
  | NaN, NaN => true
  | _, _ => false
  end.

Definition is_finite (x : float) : bool :=
  match x with
  | Finite _ => true
  | _ => false
  end.

(** [x + y] *)
Definition add (x y : float) : float :=
  match x, y with
  | Finite a, Finite b => value (a + b)
  | Finite _, PInf => PInf
  | Finite _, NInf => NInf
  | PInf, Finite _ => PInf
  | PInf, PInf => PInf
  | NInf, Finite _ => NInf
  | NInf, NInf => NInf
  | _, _ => NaN
  end.

(** [x - y] *)
Definition sub (x y : float) : float :=
  match x, y with
  | Finite a, Finite b => value (a - b)
  | Finite _, PInf => NInf
  | Finite _, NInf => PInf
  | PInf, Finite _ => PInf
  | PInf, NInf => PInf
  | NInf, Finite _ => NInf
  | NInf, PInf => NInf
  | _, _ => NaN
  end.

(** The product of an infinity and the finite value [a]: NaN for zero,
    otherwise the infinity whose sign is the product of the signs. *)
Definition infinity_times (positive : bool) (a : Q) : float :=
  if Qeq_bool a 0 then NaN
  else if Bool.eqb positive (Qle_bool 0 a) then PInf else NInf.

(** [x * y] *)
Definition mul (x y : float) : float :=
  match x, y with
  | Finite a, Finite b => value (a * b)
  | Finite a, PInf => infinity_times true a
  | Finite a, NInf => infinity_times false a
  | PInf, Finite a => infinity_times true a
  | NInf, Finite a => infinity_times false a
  | PInf, PInf => PInf
  | NInf, NInf => PInf
  | PInf, NInf => NInf
  | NInf, PInf => NInf
  | _, _ => NaN
  end.

(** [x / y].  The divisors of the program are converted from integers, so
    that a zero divisor is the positive zero. *)
Definition div (x y : float) : float :=
  match x, y with
  | Finite a, Finite b =>
      if Qeq_bool b 0 then
        if Qeq_bool a 0 then NaN
        else if Qle_bool 0 a then PInf else NInf
      else value (a / b)
  | Finite _, PInf => Finite 0
  | Finite _, NInf => Finite 0
  | PInf, Finite b => if Qle_bool 0 b then PInf else NInf
  | NInf, Finite b => if Qle_bool 0 b then NInf else PInf
  | _, _ => NaN
  end.

(** [x >= y]: false when an operand is a NaN. *)
Definition geb (x y : float) : bool :=
  match x, y with
  | Finite a, Finite b => Qle_bool b a
  | Finite _, NInf => true
  | PInf, Finite _ => true
  | PInf, PInf => true
  | PInf, NInf => true
  | NInf, NInf => true
  | _, _ => false
  end.

(** Truncation toward zero of a finite value: the integral part kept by
    [std::modf] and by a conversion to an integer type. *)
Definition trunc (x : Q) : Z :=
  if Qle_bool 0 x then Qfloor x else Qceiling x.

(** [std::modf(x, &ip)]: returns the fractional part and stores the
    integral part in [ip]; the pair is (returned value, stored value). *)
Definition modf (x : float) : float * float :=
  match x with
  | Finite q =>
      let ip := inject_Z (trunc q) in
      (Finite (q - ip), Finite ip)
  | PInf => (Finite 0, PInf)
  | NInf => (Finite 0, NInf)
  | NaN => (NaN, NaN)
  end.

(** [x - n*y] where [n] is [x/y] truncated toward zero. *)
Definition remainder (x y : Q) : Q :=
  x - inject_Z (trunc (x / y)) * y.

(** [std::fmod(x, y)] *)
Definition fmod (x y : float) : float :=
  match x, y with
  | Finite a, Finite b => if Qeq_bool b 0 then NaN else Finite (remainder a b)
  | Finite a, PInf => Finite a
  | Finite a, NInf => Finite a
  | _, _ => NaN
  end.

(** [static_cast<int16_t>(x)]: defined when [x] is finite and the
    truncated value fits. *)
Definition to_int16 (x : float) : option Z :=
  match x with
  | Finite q =>
      let z := trunc q in
      if Int.in_int16 z then Some z else None
  | _ => None
  end.

End Float.

Abbreviation float := Float.float.

(** ** Internal types of Md2.cpp *)

Module _TexCoord.
Record t : Type := mk { s : Z; t_ : Z }.   (* int16_t s, t *)
End _TexCoord.

Module _Triangle.
Record t : Type := mk
  { iPos : array3 Z;    (* uint16_t iPos[3]: vertex index *)
    iSt : array3 Z }.   (* uint16_t iSt[3]: texcoord index *)
End _Triangle.

Module _Normal.
Record t : Type := mk { x : float; y : float; z : float }.
End _Normal.

Module _Frame.
Record Vertex : Type := mkVertex
  { x : Z; y : Z; z : Z;   (* uint8_t x, y, z: position of the vertex *)
    n : Z }.               (* uint8_t n: index of the normal *)

(** [vertices] is [None] as long as the pointer was never set: the class
    has no constructor, and no statement of the program stores a null
    pointer there. *)
Record t : Type := mk
  { vertices : option (list Vertex);
    scale : array3 float;
    translation : array3 float;
    name : list byte }.    (* char name[16] *)
End _Frame.

Module _Animation.
Record t : Type := mk
  { start : Z;      (* int16_t start: first frame index *)
    end_ : Z;       (* int16_t end: last frame index *)
    fps : float }.

Definition FrameCount (a : t) : Z := Int.int16_t (end_ a - start a + 1).
End _Animation.

(** File header of an md2 model: seventeen [int32_t] fields. *)
Record _Md2Header : Type := mk_Md2Header
  { ident : Z;
    version : Z;
    skinWidth : Z;
    skinHeight : Z;
    frameSize : Z;
    skinCnt : Z;
    vertexCnt : Z;
    texCoordCnt : Z;
    triangleCnt : Z;
    glcmdCnt : Z;
    frameCnt : Z;
    skinOffset : Z;
    texCoordOffset : Z;
    triangleOffset : Z;
    frameOffset : Z;
    glcmdOffset : Z;
    endOffset : Z }.

(** ** Exceptions *)

Inductive Md2Exception : Type :=
| _FileNotFoundException (filename : string)
| _BadIdentException (filename : string)
| _BadVersionException (filename : string)
| _BadTriangleDataException (filename : string)
| _BadFrameDataException (filename : string)
| _BadVertexDataException (filename : string).

(** The six error kinds, without the file name they carry. *)
Inductive ErrorKind : Type :=
| NotFound | BadIdent | BadVersion
| BadTriangleData | BadFrameData | BadVertexData.

Definition kind (e : Md2Exception) : ErrorKind :=
  match e with
  | _FileNotFoundException _ => NotFound
  | _BadIdentException _ => BadIdent
  | _BadVersionException _ => BadVersion
  | _BadTriangleDataException _ => BadTriangleData
  | _BadFrameDataException _ => BadFrameData
  | _BadVertexDataException _ => BadVertexData
  end.

(** ** Public types of Md2.hpp *)

(** Md2 vertex format for rendering. *)
Module Vertex.
Record t : Type := mk
  { p : array3 float;     (* position *)
    n : array3 float;     (* normal *)
    st : float * float }. (* texture coordinates *)
End Vertex.

(** Md2 Skin. *)
Module Skin.
Record t : Type := mk { name : list byte }.   (* char name[64] *)
End Skin.

Inductive AnimationName : Type :=
| ANIMATION_STAND | ANIMATION_RUN | ANIMATION_ATTACK
| ANIMATION_PAIN_A | ANIMATION_PAIN_B | ANIMATION_PAIN_C
| ANIMATION_JUMP | ANIMATION_FLIP | ANIMATION_SALUTE
| ANIMATION_FALLBACK | ANIMATION_WAVE | ANIMATION_POINT
| ANIMATION_CROUCH_STAND | ANIMATION_CROUCH_WALK | ANIMATION_CROUCH_ATTACK
| ANIMATION_CROUCH_PAIN | ANIMATION_CROUCH_DEATH
| ANIMATION_DEATH_FALLBACK | ANIMATION_DEATH_FALLFORWARD
| ANIMATION_FALL_BACKSLOW
| ANIMATION_BOOM.

(** The integer value of an enumerator. *)
Definition enum (a : AnimationName) : Z :=
  match a with
  | ANIMATION_STAND => 0 | ANIMATION_RUN => 1 | ANIMATION_ATTACK => 2
  | ANIMATION_PAIN_A => 3 | ANIMATION_PAIN_B => 4 | ANIMATION_PAIN_C => 5
  | ANIMATION_JUMP => 6 | ANIMATION_FLIP => 7 | ANIMATION_SALUTE => 8
  | ANIMATION_FALLBACK => 9 | ANIMATION_WAVE => 10 | ANIMATION_POINT => 11
  | ANIMATION_CROUCH_STAND => 12 | ANIMATION_CROUCH_WALK => 13
  | ANIMATION_CROUCH_ATTACK => 14 | ANIMATION_CROUCH_PAIN => 15
  | ANIMATION_CROUCH_DEATH => 16 | ANIMATION_DEATH_FALLBACK => 17
  | ANIMATION_DEATH_FALLFORWARD => 18 | ANIMATION_FALL_BACKSLOW => 19
  | ANIMATION_BOOM => 20
  end.

(** The members of an [Md2] object. *)
Record Md2 : Type := mkMd2
  { mSkins : option (list Skin.t);
    mTexCoords : option (list _TexCoord.t);
    mTriangles : option (list _Triangle.t);
    mFrames : option (list _Frame.t);
    mSkinCnt : Z;          (* int16_t, as all the counts and dimensions *)
    mTexCoordCnt : Z;
    mTriangleCnt : Z;
    mFrameCnt : Z;
    mVertexCnt : Z;
    mSkinWidth : Z;
    mSkinHeight : Z;
    mActiveAnimation : Z;  (* int16_t: active animation index *)
    mActiveFrame : float;  (* active frame index *)
    mSpeed : float;        (* speed of the animation *)
    mIsPlaying : bool }.   (* playing flag *)

(** ** Static tables *)

(** Normal table. *)
Definition sNormals : list _Normal.t :=
  let N := fun x y z : Q =>
             _Normal.mk (Float.Finite x) (Float.Finite y) (Float.Finite z) in
  [
    N (-0.525731) 0.000000 0.850651; N (-0.442863) 0.238856 0.864188;
    N (-0.295242) 0.000000 0.955423; N (-0.309017) 0.500000 0.809017;
    N (-0.162460) 0.262866 0.951056; N 0.000000 0.000000 1.000000;
    N 0.000000 0.850651 0.525731; N (-0.147621) 0.716567 0.681718;
    N 0.147621 0.716567 0.681718; N 0.000000 0.525731 0.850651;
    N 0.309017 0.500000 0.809017; N 0.525731 0.000000 0.850651;
    N 0.295242 0.000000 0.955423; N 0.442863 0.238856 0.864188;
    N 0.162460 0.262866 0.951056; N (-0.681718) 0.147621 0.716567;
    N (-0.809017) 0.309017 0.500000; N (-0.587785) 0.425325 0.688191;
    N (-0.850651) 0.525731 0.000000; N (-0.864188) 0.442863 0.238856;
    N (-0.716567) 0.681718 0.147621; N (-0.688191) 0.587785 0.425325;
    N (-0.500000) 0.809017 0.309017; N (-0.238856) 0.864188 0.442863;
    N (-0.425325) 0.688191 0.587785; N (-0.716567) 0.681718 (-0.147621);
    N (-0.500000) 0.809017 (-0.309017); N (-0.525731) 0.850651 0.000000;
    N 0.000000 0.850651 (-0.525731); N (-0.238856) 0.864188 (-0.442863);
    N 0.000000 0.955423 (-0.295242); N (-0.262866) 0.951056 (-0.162460);
    N 0.000000 1.000000 0.000000; N 0.000000 0.955423 0.295242;
    N (-0.262866) 0.951056 0.162460; N 0.238856 0.864188 0.442863;
    N 0.262866 0.951056 0.162460; N 0.500000 0.809017 0.309017;
    N 0.238856 0.864188 (-0.442863); N 0.262866 0.951056 (-0.162460);
    N 0.500000 0.809017 (-0.309017); N 0.850651 0.525731 0.000000;
    N 0.716567 0.681718 0.147621; N 0.716567 0.681718 (-0.147621);
    N 0.525731 0.850651 0.000000; N 0.425325 0.688191 0.587785;
    N 0.864188 0.442863 0.238856; N 0.688191 0.587785 0.425325;
    N 0.809017 0.309017 0.500000; N 0.681718 0.147621 0.716567;
    N 0.587785 0.425325 0.688191; N 0.955423 0.295242 0.000000;
    N 1.000000 0.000000 0.000000; N 0.951056 0.162460 0.262866;
    N 0.850651 (-0.525731) 0.000000; N 0.955423 (-0.295242) 0.000000;
    N 0.864188 (-0.442863) 0.238856; N 0.951056 (-0.162460) 0.262866;
    N 0.809017 (-0.309017) 0.500000; N 0.681718 (-0.147621) 0.716567;
    N 0.850651 0.000000 0.525731; N 0.864188 0.442863 (-0.238856);
    N 0.809017 0.309017 (-0.500000); N 0.951056 0.162460 (-0.262866);
    N 0.525731 0.000000 (-0.850651); N 0.681718 0.147621 (-0.716567);
    N 0.681718 (-0.147621) (-0.716567); N 0.850651 0.000000 (-0.525731);
    N 0.809017 (-0.309017) (-0.500000); N 0.864188 (-0.442863) (-0.238856);
    N 0.951056 (-0.162460) (-0.262866); N 0.147621 0.716567 (-0.681718);
    N 0.309017 0.500000 (-0.809017); N 0.425325 0.688191 (-0.587785);
    N 0.442863 0.238856 (-0.864188); N 0.587785 0.425325 (-0.688191);
    N 0.688191 0.587785 (-0.425325); N (-0.147621) 0.716567 (-0.681718);
    N (-0.309017) 0.500000 (-0.809017); N 0.000000 0.525731 (-0.850651);
    N (-0.525731) 0.000000 (-0.850651); N (-0.442863) 0.238856 (-0.864188);
    N (-0.295242) 0.000000 (-0.955423); N (-0.162460) 0.262866 (-0.951056);
    N 0.000000 0.000000 (-1.000000); N 0.295242 0.000000 (-0.955423);
    N 0.162460 0.262866 (-0.951056); N (-0.442863) (-0.238856) (-0.864188);
    N (-0.309017) (-0.500000) (-0.809017); N (-0.162460) (-0.262866) (-0.951056);
    N 0.000000 (-0.850651) (-0.525731); N (-0.147621) (-0.716567) (-0.681718);
    N 0.147621 (-0.716567) (-0.681718); N 0.000000 (-0.525731) (-0.850651);
    N 0.309017 (-0.500000) (-0.809017); N 0.442863 (-0.238856) (-0.864188);
    N 0.162460 (-0.262866) (-0.951056); N 0.238856 (-0.864188) (-0.442863);
    N 0.500000 (-0.809017) (-0.309017); N 0.425325 (-0.688191) (-0.587785);
    N 0.716567 (-0.681718) (-0.147621); N 0.688191 (-0.587785) (-0.425325);
    N 0.587785 (-0.425325) (-0.688191); N 0.000000 (-0.955423) (-0.295242);
    N 0.000000 (-1.000000) 0.000000; N 0.262866 (-0.951056) (-0.162460);
    N 0.000000 (-0.850651) 0.525731; N 0.000000 (-0.955423) 0.295242;
    N 0.238856 (-0.864188) 0.442863; N 0.262866 (-0.951056) 0.162460;
    N 0.500000 (-0.809017) 0.309017; N 0.716567 (-0.681718) 0.147621;
    N 0.525731 (-0.850651) 0.000000; N (-0.238856) (-0.864188) (-0.442863);
    N (-0.500000) (-0.809017) (-0.309017); N (-0.262866) (-0.951056) (-0.162460);
    N (-0.850651) (-0.525731) 0.000000; N (-0.716567) (-0.681718) (-0.147621);
    N (-0.716567) (-0.681718) 0.147621; N (-0.525731) (-0.850651) 0.000000;
    N (-0.500000) (-0.809017) 0.309017; N (-0.238856) (-0.864188) 0.442863;
    N (-0.262866) (-0.951056) 0.162460; N (-0.864188) (-0.442863) 0.238856;
    N (-0.809017) (-0.309017) 0.500000; N (-0.688191) (-0.587785) 0.425325;
    N (-0.681718) (-0.147621) 0.716567; N (-0.442863) (-0.238856) 0.864188;
    N (-0.587785) (-0.425325) 0.688191; N (-0.309017) (-0.500000) 0.809017;
    N (-0.147621) (-0.716567) 0.681718; N (-0.425325) (-0.688191) 0.587785;
    N (-0.162460) (-0.262866) 0.951056; N 0.442863 (-0.238856) 0.864188;
    N 0.162460 (-0.262866) 0.951056; N 0.309017 (-0.500000) 0.809017;
    N 0.147621 (-0.716567) 0.681718; N 0.000000 (-0.525731) 0.850651;
    N 0.425325 (-0.688191) 0.587785; N 0.587785 (-0.425325) 0.688191;
    N 0.688191 (-0.587785) 0.425325; N (-0.955423) 0.295242 0.000000;
    N (-0.951056) 0.162460 0.262866; N (-1.000000) 0.000000 0.000000;
    N (-0.850651) 0.000000 0.525731; N (-0.955423) (-0.295242) 0.000000;
    N (-0.951056) (-0.162460) 0.262866; N (-0.864188) 0.442863 (-0.238856);
    N (-0.951056) 0.162460 (-0.262866); N (-0.809017) 0.309017 (-0.500000);
    N (-0.864188) (-0.442863) (-0.238856); N (-0.951056) (-0.162460) (-0.262866);
    N (-0.809017) (-0.309017) (-0.500000); N (-0.681718) 0.147621 (-0.716567);
    N (-0.681718) (-0.147621) (-0.716567); N (-0.850651) 0.000000 (-0.525731);
    N (-0.688191) 0.587785 (-0.425325); N (-0.587785) 0.425325 (-0.688191);
    N (-0.425325) 0.688191 (-0.587785); N (-0.425325) (-0.688191) (-0.587785);
    N (-0.587785) (-0.425325) (-0.688191); N (-0.688191) (-0.587785) (-0.425325)
  ]%Q.

(** Animation table: first, last, fps. *)
Definition sAnimations : list _Animation.t :=
  let A := fun start end_ (fps : Q) =>
             _Animation.mk start end_ (Float.Finite fps) in
  [ A   0  39  9%Q;     (* STAND *)
    A  40  45 10%Q;     (* RUN *)
    A  46  53 10%Q;     (* ATTACK *)
    A  54  57  7%Q;     (* PAIN_A *)
    A  58  61  7%Q;     (* PAIN_B *)
    A  62  65  7%Q;     (* PAIN_C *)
    A  66  71  7%Q;     (* JUMP *)
    A  72  83  7%Q;     (* FLIP *)
    A  84  94  7%Q;     (* SALUTE *)
    A  95 111 10%Q;     (* FALLBACK *)
    A 112 122  7%Q;     (* WAVE *)
    A 123 134  6%Q;     (* POINT *)
    A 135 153 10%Q;     (* CROUCH_STAND *)
    A 154 159  7%Q;     (* CROUCH_WALK *)
    A 160 168 10%Q;     (* CROUCH_ATTACK *)
    A 169 172  7%Q;     (* CROUCH_PAIN *)
    A 173 177  5%Q;     (* CROUCH_DEATH *)
    A 178 183  7%Q;     (* DEATH_FALLBACK *)
    A 184 189  7%Q;     (* DEATH_FALLFORWARD *)
    A 190 197  7%Q;     (* DEATH_FALLBACKSLOW *)
    A 198 198  5%Q ].   (* BOOM *)

(** ** Construction, clearing and the accessors *)

(** Default constructor [Md2::Md2()]. *)
Definition Md2_default : Md2 :=
  {| mSkins := None; mTexCoords := None; mTriangles := None; mFrames := None;
     mSkinCnt := -1; mTexCoordCnt := -1; mTriangleCnt := -1; mFrameCnt := -1;
     mVertexCnt := -1;
     mSkinWidth := -1; mSkinHeight := -1;
     mActiveAnimation := 0; mActiveFrame := Float.Finite 0;
     mSpeed := Float.Finite 1; mIsPlaying := true |}.

(** [delete[] mFrames]: the destructor of each frame deletes the vertices
    of the frame, which is undefined for a pointer that was never set;
    deleting a null [mFrames] does nothing. *)
Definition delete_frames (frames : option (list _Frame.t)) : bool :=
  match frames with
  | None => true
  | Some fs =>
      forallb (fun fr => match _Frame.vertices fr with
                         | Some _ => true
                         | None => false
                         end) fs
  end.

(** [Md2::_Clear]: the four arrays are deleted and their pointers set to
    NULL, the counts and dimensions are set to -1.  The embedding has no
    heap: a deleted array is an array nothing refers to any more. *)
Definition _Clear (m : Md2) : option Md2 :=
  if delete_frames (mFrames m) then
    Some
      {| mSkins := None; mTexCoords := None; mTriangles := None;
         mFrames := None;
         mSkinCnt := -1; mTexCoordCnt := -1; mTriangleCnt := -1;
         mFrameCnt := -1; mVertexCnt := -1;
         mSkinWidth := -1; mSkinHeight := -1;
         mActiveAnimation := mActiveAnimation m;
         mActiveFrame := mActiveFrame m;
         mSpeed := mSpeed m;
         mIsPlaying := mIsPlaying m |}
  else None.

Definition SkinCount (m : Md2) : Z := mSkinCnt m.
Definition TexCoordCount (m : Md2) : Z := mTexCoordCnt m.
Definition TriangleCount (m : Md2) : Z := mTriangleCnt m.
Definition FrameCount (m : Md2) : Z := mFrameCnt m.
Definition VertexCount (m : Md2) : Z := mVertexCnt m.
Definition SkinWidth (m : Md2) : Z := mSkinWidth m.
Definition SkinHeight (m : Md2) : Z := mSkinHeight m.
Definition IsPlaying (m : Md2) : bool := mIsPlaying m.

(** ** Animation manipulation *)

Definition set_playing (b : bool) (m : Md2) : Md2 :=
  {| mSkins := mSkins m; mTexCoords := mTexCoords m;
     mTriangles := mTriangles m; mFrames := mFrames m;
     mSkinCnt := mSkinCnt m; mTexCoordCnt := mTexCoordCnt m;
     mTriangleCnt := mTriangleCnt m; mFrameCnt := mFrameCnt m;
     mVertexCnt := mVertexCnt m;
     mSkinWidth := mSkinWidth m; mSkinHeight := mSkinHeight m;
     mActiveAnimation := mActiveAnimation m;
     mActiveFrame := mActiveFrame m;
     mSpeed := mSpeed m;
     mIsPlaying := b |}.

Definition set_animation (a : Z) (f : float) (m : Md2) : Md2 :=
  {| mSkins := mSkins m; mTexCoords := mTexCoords m;
     mTriangles := mTriangles m; mFrames := mFrames m;
     mSkinCnt := mSkinCnt m; mTexCoordCnt := mTexCoordCnt m;
     mTriangleCnt := mTriangleCnt m; mFrameCnt := mFrameCnt m;
     mVertexCnt := mVertexCnt m;
     mSkinWidth := mSkinWidth m; mSkinHeight := mSkinHeight m;
     mActiveAnimation := a;
     mActiveFrame := f;
     mSpeed := mSpeed m;
     mIsPlaying := mIsPlaying m |}.

Definition set_frame (f : float) (m : Md2) : Md2 :=
  set_animation (mActiveAnimation m) f m.

Definition Play (m : Md2) : Md2 := set_playing true m.

Definition Pause (m : Md2) : Md2 := set_playing false m.

(** [Md2::NextAnimation]. *)
Definition NextAnimation (m : Md2) : option Md2 :=
  let a := Int.int16_t (mActiveAnimation m + 1) in
  let a := if a >=? enum ANIMATION_BOOM then enum ANIMATION_STAND else a in
  anim <- index sAnimations a ;;
  Some (set_animation a (Float.of_int (_Animation.start anim)) m).

(** [Md2::PreviousAnimation]. *)
Definition PreviousAnimation (m : Md2) : option Md2 :=
  let a := Int.int16_t (mActiveAnimation m - 1) in
  let a := if a =? -1 then Int.int16_t (a + enum ANIMATION_BOOM) else a in
  anim <- index sAnimations a ;;
  Some (set_animation a (Float.of_int (_Animation.start anim)) m).

(** [Md2::Update].  The operands of the sum in the looping branch are
    taken from left to right: [std::modf] first stores the integral part in
    [mActiveFrame], which [std::fmod] then reads. *)
Definition Update (dt : float) (m : Md2) : option Md2 :=
  if negb (mIsPlaying m) then Some m else
  anim <- index sAnimations (mActiveAnimation m) ;;
  (* increment frame *)
  let f :=
    Float.add (mActiveFrame m)
              (Float.mul (Float.mul (mSpeed m) dt) (_Animation.fps anim)) in
  (* loop animation *)
  if Float.geb f (Float.of_int (_Animation.end_ anim)) then
    let '(frac, whole) := Float.modf f in
    Some (set_frame
            (Float.add
               (Float.add
                  frac
                  (Float.fmod
                     (Float.sub whole
                                (Float.of_int (_Animation.start anim)))
                     (Float.of_int (_Animation.FrameCount anim))))
               (Float.of_int (_Animation.start anim))) m)
  else Some (set_frame f m).

(** A sequence of [Update] calls, one per elapsed time of the list. *)
Fixpoint Updates (dts : list float) (m : Md2) : option Md2 :=
  match dts with
  | [] => Some m
  | dt :: dts' => m' <- Update dt m ;; Updates dts' m'
  end.

(** The playback states reachable from a default-constructed object. *)
Inductive reachable : Md2 -> Prop :=
| reach_default : reachable Md2_default
| reach_Play m : reachable m -> reachable (Play m)
| reach_Pause m : reachable m -> reachable (Pause m)
| reach_Next m m' :
    reachable m -> NextAnimation m = Some m' -> reachable m'
| reach_Previous m m' :
    reachable m -> PreviousAnimation m = Some m' -> reachable m'
| reach_Update dt m m' :
    reachable m -> Update dt m = Some m' -> reachable m'.

(** ** std::ifstream *)

Module ifstream.

Record t : Type := mk
  { content : list byte;   (* the bytes of the file *)
    gpos : nat;            (* the get position *)
    failbit : bool }.

(** Construction from a file: the stream is in a failed state when the
    file cannot be opened. *)
Definition open (file : option (list byte)) : t :=
  match file with
  | Some bytes => mk bytes 0 false
  | None => mk [] 0 true
  end.

(** [read(dst, n)]: extracts at most [n] bytes and stores them at the
    beginning of [dst]; a stream that has failed extracts nothing, and a
    stream that ends before [n] bytes fails.  Returns [dst] afterwards. *)
Definition read (n : nat) (dst : list byte) (f : t) : list byte * t :=
  if failbit f then (dst, f) else
  let got := firstn n (skipn (gpos f) (content f)) in
  (got ++ skipn (length got) dst,
   mk (content f) (gpos f + length got) (Nat.ltb (length got) n)).

(** [seekg(off, beg)]: no effect on a failed stream; fails on a negative
    offset. *)
Definition seekg (off : Z) (f : t) : t :=
  if failbit f then f else
  if off <? 0 then mk (content f) (gpos f) true
  else mk (content f) (Z.to_nat off) false.

End ifstream.

(** ** Decoding of the records of the file *)

Definition byte_value (b : byte) : Z := Z.of_N (Byte.to_N b).

(** The unsigned value of a little-endian byte sequence. *)
Fixpoint little_endian (bs : list byte) : Z :=
  match bs with
  | [] => 0
  | b :: bs' => byte_value b + 256 * little_endian bs'
  end.

(** [n] consecutive records of [k] bytes each. *)
Fixpoint records (k n : nat) (bs : list byte) : list (list byte) :=
  match n with
  | O => []
  | S n' => firstn k bs :: records k n' (skipn k bs)
  end.

Definition field (bs : list byte) (k i : nat) : list byte :=
  firstn k (skipn (i * k) bs).

Definition int32_field (bs : list byte) (i : nat) : Z :=
  Int.int32_t (little_endian (field bs 4 i)).

Definition int16_field (bs : list byte) (i : nat) : Z :=
  Int.int16_t (little_endian (field bs 2 i)).

Definition uint16_field (bs : list byte) (i : nat) : Z :=
  little_endian (field bs 2 i).

Definition uint8_field (bs : list byte) (i : nat) : Z :=
  little_endian (field bs 1 i).

Definition decode_header (bs : list byte) : _Md2Header :=
  let i := int32_field bs in
  {| ident := i 0%nat; version := i 1%nat;
     skinWidth := i 2%nat; skinHeight := i 3%nat; frameSize := i 4%nat;
     skinCnt := i 5%nat; vertexCnt := i 6%nat; texCoordCnt := i 7%nat;
     triangleCnt := i 8%nat; glcmdCnt := i 9%nat; frameCnt := i 10%nat;
     skinOffset := i 11%nat; texCoordOffset := i 12%nat;
     triangleOffset := i 13%nat; frameOffset := i 14%nat;
     glcmdOffset := i 15%nat; endOffset := i 16%nat |}.

Definition decode_texcoord (bs : list byte) : _TexCoord.t :=
  _TexCoord.mk (int16_field bs 0) (int16_field bs 1).

Definition decode_triangle (bs : list byte) : _Triangle.t :=
  let u := uint16_field bs in
  _Triangle.mk (u 0%nat, u 1%nat, u 2%nat) (u 3%nat, u 4%nat, u 5%nat).

Definition decode_vertex (bs : list byte) : _Frame.Vertex :=
  let u := uint8_field bs in
  _Frame.mkVertex (u 0%nat) (u 1%nat) (u 2%nat) (u 3%nat).

(** The magic number ['I'|'D'<<8|'P'<<16|'2'<<24]. *)
Definition IDP2 : Z :=
  Z.lor (Z.lor (Z.lor (byte_value "I") (Z.shiftl (byte_value "D") 8))
               (Z.shiftl (byte_value "P") 16))
        (Z.shiftl (byte_value "2") 24).

Definition sizeof_Md2Header : nat := 68.
Definition sizeof_Skin : nat := 64.
Definition sizeof_TexCoord : nat := 4.
Definition sizeof_Triangle : nat := 12.
Definition sizeof_Vertex : nat := 4.
Definition sizeof_float : nat := 4.

(** ** Md2::Load *)

Section Loading.

(** The files that can be opened, by name. *)
Variable fs : string -> option (list byte).

(** The contents of storage that was never written (a local variable
    without initialiser, a [new T[n]] of a type without constructor),
    byte by byte. *)
Variable indeterminate : nat -> byte.

(** The value of a [float] object, from the 32 bits of its object
    representation. *)
Variable float_of_bits : Z -> float.

Definition uninitialized (n : nat) : list byte :=
  map indeterminate (seq 0 n).

Definition float_field (bs : list byte) (i : nat) : float :=
  float_of_bits (little_endian (field bs 4 i)).

Definition decode_float3 (bs : list byte) : array3 float :=
  (float_field bs 0, float_field bs 1, float_field bs 2).

(** A [_Frame] of [new _Frame[n]]: no member is initialised; [vertices]
    is a pointer that was never set. *)
Definition uninitialized_Frame : _Frame.t :=
  _Frame.mk None
            (decode_float3 (uninitialized (3 * sizeof_float)))
            (decode_float3 (uninitialized (3 * sizeof_float)))
            (uninitialized 16).

Definition save_information (h : _Md2Header) (m : Md2) : Md2 :=
  {| mSkins := mSkins m; mTexCoords := mTexCoords m;
     mTriangles := mTriangles m; mFrames := mFrames m;
     mSkinCnt := Int.int16_t (skinCnt h);
     mTexCoordCnt := Int.int16_t (texCoordCnt h);
     mTriangleCnt := Int.int16_t (triangleCnt h);
     mFrameCnt := Int.int16_t (frameCnt h);
     mVertexCnt := Int.int16_t (vertexCnt h);
     mSkinWidth := Int.int16_t (skinWidth h);
     mSkinHeight := Int.int16_t (skinHeight h);
     mActiveAnimation := mActiveAnimation m;
     mActiveFrame := mActiveFrame m;
     mSpeed := mSpeed m;
     mIsPlaying := mIsPlaying m |}.

Definition set_arrays (sk : option (list Skin.t))
    (tc : option (list _TexCoord.t)) (tr : option (list _Triangle.t))
    (fr : option (list _Frame.t)) (m : Md2) : Md2 :=
  {| mSkins := sk; mTexCoords := tc; mTriangles := tr; mFrames := fr;
     mSkinCnt := mSkinCnt m; mTexCoordCnt := mTexCoordCnt m;
     mTriangleCnt := mTriangleCnt m; mFrameCnt := mFrameCnt m;
     mVertexCnt := mVertexCnt m;
     mSkinWidth := mSkinWidth m; mSkinHeight := mSkinHeight m;
     mActiveAnimation := mActiveAnimation m;
     mActiveFrame := mActiveFrame m;
     mSpeed := mSpeed m;
     mIsPlaying := mIsPlaying m |}.

Definition set_mSkins sk m :=
  set_arrays sk (mTexCoords m) (mTriangles m) (mFrames m) m.
Definition set_mTexCoords tc m :=
  set_arrays (mSkins m) tc (mTriangles m) (mFrames m) m.
Definition set_mTriangles tr m :=
  set_arrays (mSkins m) (mTexCoords m) tr (mFrames m) m.
Definition set_mFrames fr m :=
  set_arrays (mSkins m) (mTexCoords m) (mTriangles m) fr m.

(** [seekg] to a section, then one [read] of [n] records of [size] bytes
    into a freshly allocated array. *)
Definition read_section (off : Z) (size n : nat) (f : ifstream.t)
  : list (list byte) * ifstream.t :=
  let f := ifstream.seekg off f in
  let '(bytes, f) := ifstream.read (size * n) (uninitialized (size * n)) f in
  (records size n bytes, f).

(** The body of the frame loop, for the frames that remain. *)
Fixpoint read_frames (n vertexCnt : nat) (f : ifstream.t)
  : list _Frame.t * ifstream.t :=
  match n with
  | O => ([], f)
  | S n' =>
      let '(sc, f) :=
        ifstream.read (sizeof_float * 3)
                      (uninitialized (sizeof_float * 3)) f in
      let '(tl, f) :=
        ifstream.read (sizeof_float * 3)
                      (uninitialized (sizeof_float * 3)) f in
      let '(nm, f) := ifstream.read 16 (uninitialized 16) f in
      let '(vs, f) :=
        ifstream.read (sizeof_Vertex * vertexCnt)
                      (uninitialized (sizeof_Vertex * vertexCnt)) f in
      let frame :=
        _Frame.mk (Some (map decode_vertex
                             (records sizeof_Vertex vertexCnt vs)))
                  (decode_float3 sc) (decode_float3 tl) nm in
      let '(frames, f) := read_frames n' vertexCnt f in
      (frame :: frames, f)
  end.

(** [Md2::Load] after its call of [_Clear]: the object afterwards, and the
    exception thrown if any. *)
Definition Load_cleared (filename : string) (m : Md2)
  : Md2 * option Md2Exception :=
  (* open file *)
  let fileStream := ifstream.open (fs filename) in
  if ifstream.failbit fileStream
  then (m, Some (_FileNotFoundException filename)) else
  (* read header *)
  let '(raw, fileStream) :=
    ifstream.read sizeof_Md2Header (uninitialized sizeof_Md2Header)
                  fileStream in
  let header := decode_header raw in
  (* check version and ident *)
  if negb (ident header =? IDP2)
  then (m, Some (_BadIdentException filename)) else
  if negb (version header =? 8)
  then (m, Some (_BadVersionException filename)) else
  (* save information *)
  let m := save_information header m in
  (* allocate and read in data *)
  let '(m, fileStream) :=
    if 0 <? mSkinCnt m then
      let '(rs, f) :=
        read_section (skinOffset header) sizeof_Skin
                     (Z.to_nat (mSkinCnt m)) fileStream in
      (set_mSkins (Some (map Skin.mk rs)) m, f)
    else (m, fileStream) in
  let '(m, fileStream) :=
    if 0 <? mTexCoordCnt m then
      let '(rs, f) :=
        read_section (texCoordOffset header) sizeof_TexCoord
                     (Z.to_nat (mTexCoordCnt m)) fileStream in
      (set_mTexCoords (Some (map decode_texcoord rs)) m, f)
    else (m, fileStream) in
  if negb (0 <? mTriangleCnt m)
  then (m, Some (_BadTriangleDataException filename)) else
  let '(rs, fileStream) :=
    read_section (triangleOffset header) sizeof_Triangle
                 (Z.to_nat (mTriangleCnt m)) fileStream in
  let m := set_mTriangles (Some (map decode_triangle rs)) m in
  if negb (198 =? mFrameCnt m)
  then (m, Some (_BadFrameDataException filename)) else
  let m :=
    set_mFrames
      (Some (repeat uninitialized_Frame (Z.to_nat (mFrameCnt m)))) m in
  if negb (0 <? mVertexCnt m)
  then (m, Some (_BadVertexDataException filename)) else
  (* read frames *)
  let fileStream := ifstream.seekg (frameOffset header) fileStream in
  let '(frames, fileStream) :=
    read_frames (Z.to_nat (mFrameCnt m)) (Z.to_nat (mVertexCnt m))
                fileStream in
  (* done *)
  (set_mFrames (Some frames) m, None).

(** [Md2::Load]: undefined when [_Clear] is. *)
Definition Load (filename : string) (m : Md2)
  : option (Md2 * option Md2Exception) :=
  (* Clean if necessary *)
  m <- _Clear m ;;
  Some (Load_cleared filename m).

(** The header as [Load] reads it from a file that opens. *)
Definition header_of (bytes : list byte) : _Md2Header :=
  decode_header
    (fst (ifstream.read sizeof_Md2Header (uninitialized sizeof_Md2Header)
                        (ifstream.open (Some bytes)))).

End Loading.

(** ** Md2::GenVertices *)

(** The caller's storage [Md2::Vertex* vertices], by record index. *)
Definition buffer : Type := Z -> Vertex.t.

Definition store (b : buffer) (i : Z) (v : Vertex.t) : buffer :=
  fun k => if k =? i then v else b k.

(** A [for] loop of [count] iterations over consecutive values from [i]. *)
Fixpoint for_ {St : Type} (count : nat) (i : Z)
    (body : Z -> St -> option St) (s : St) : option St :=
  match count with
  | O => Some s
  | S count' => s' <- body i s ;; for_ count' (i + 1) body s'
  end.

(** Uncompress vertex position: [scale[k] * vert + translation[k]]. *)
Definition uncompress (frame : _Frame.t) (vert : _Frame.Vertex)
  : array3 float :=
  let '(s0, s1, s2) := _Frame.scale frame in
  let '(t0, t1, t2) := _Frame.translation frame in
  (Float.add (Float.mul s0 (Float.of_int (_Frame.x vert))) t0,
   Float.add (Float.mul s1 (Float.of_int (_Frame.y vert))) t1,
   Float.add (Float.mul s2 (Float.of_int (_Frame.z vert))) t2).

Definition normal (nm : _Normal.t) : array3 float :=
  (_Normal.x nm, _Normal.y nm, _Normal.z nm).

(** [oneMinusLerp * a[k] + lerp * b[k]]. *)
Definition interpolate (oneMinusLerp lerp : float) (a b : array3 float)
  : array3 float :=
  let '(a0, a1, a2) := a in
  let '(b0, b1, b2) := b in
  (Float.add (Float.mul oneMinusLerp a0) (Float.mul lerp b0),
   Float.add (Float.mul oneMinusLerp a1) (Float.mul lerp b1),
   Float.add (Float.mul oneMinusLerp a2) (Float.mul lerp b2)).

(** What one iteration of the inner loop reads: the two frames, the triangle,
    its corner in both frames, their normals and the texture coordinate. *)
Record corner : Type := mk_corner
  { frameA : _Frame.t; frameB : _Frame.t;
    vertA : _Frame.Vertex; vertB : _Frame.Vertex;
    normA : _Normal.t; normB : _Normal.t;
    texCoord : _TexCoord.t }.

Definition set_pointers (m : Md2) (activeFrameIdx nextFrame i j : Z)
  : option corner :=
  fA <- deref (mFrames m) activeFrameIdx ;;
  fB <- deref (mFrames m) nextFrame ;;
  tri <- deref (mTriangles m) i ;;
  vA <- deref (_Frame.vertices fA) (get3 (_Triangle.iPos tri) j) ;;
  vB <- deref (_Frame.vertices fB) (get3 (_Triangle.iPos tri) j) ;;
  nA <- index sNormals (_Frame.n vA) ;;
  nB <- index sNormals (_Frame.n vB) ;;
  tc <- deref (mTexCoords m) (get3 (_Triangle.iSt tri) j) ;;
  Some (mk_corner fA fB vA vB nA nB tc).

(** The record written for a corner. *)
Definition gen_vertex (m : Md2) (oneMinusLerp lerp : float) (c : corner)
  : Vertex.t :=
  let posA := uncompress (frameA c) (vertA c) in
  let posB := uncompress (frameB c) (vertB c) in
  {| Vertex.p := interpolate oneMinusLerp lerp posA posB;
     Vertex.n := interpolate oneMinusLerp lerp
                             (normal (normA c)) (normal (normB c));
     Vertex.st :=
       (Float.div (Float.of_int (_TexCoord.s (texCoord c)))
                  (Float.of_int (mSkinWidth m)),
        Float.sub (Float.Finite 1)
                  (Float.div (Float.of_int (_TexCoord.t_ (texCoord c)))
                             (Float.of_int (mSkinHeight m)))) |}.

(** [Md2::GenVertices].  The loop variable [i] and [index] are [uint16_t]. *)
Definition GenVertices (m : Md2) (vertices : buffer) : option buffer :=
  let lerp := fst (Float.modf (mActiveFrame m)) in
  let oneMinusLerp := Float.sub (Float.Finite 1) lerp in
  activeFrameIdx <- Float.to_int16 (mActiveFrame m) ;;
  anim <- index sAnimations (mActiveAnimation m) ;;
  (* compute next frame index *)
  let nextFrame :=
    Int.uint16_t (if activeFrameIdx =? _Animation.end_ anim
                  then _Animation.start anim
                  else activeFrameIdx + 1) in
  (* Uncompress the vertices *)
  for_ (Z.to_nat (mTriangleCnt m)) 0
       (fun i vertices =>
          for_ 3 0
               (fun j vertices =>
                  c <- set_pointers m activeFrameIdx nextFrame i j ;;
                  let index := Int.uint16_t (i * 3 + j) in
                  Some (store vertices index
                              (gen_vertex m oneMinusLerp lerp c)))
               vertices)
       vertices.

(** ** The values of binary32 object representations *)

(** Sign bit, eight bits of exponent, 23 bits of mantissa: exponent 255 is
    an infinity (mantissa 0) or a NaN, exponent 0 a zero or a subnormal
    number. *)
Definition binary32 (bits : Z) : float :=
  let negative := Z.testbit bits 31 in
  let e := Z.land (Z.shiftr bits 23) 255 in
  let mant := Z.land bits (2 ^ 23 - 1) in
  if e =? 255 then
    if mant =? 0 then (if negative then Float.NInf else Float.PInf)
    else Float.NaN
  else
    let magnitude :=
      if e =? 0 then (inject_Z mant * 2 ^ (-149))%Q
      else (inject_Z (2 ^ 23 + mant) * 2 ^ (e - 150))%Q in
    Float.Finite (if negative then (- magnitude)%Q else magnitude).
(** ** Invariants of the playback state *)

(** What the table guarantees of each of its entries. *)
Definition well_formed_animation (a : _Animation.t) : Prop :=
  0 <= _Animation.start a <= _Animation.end_ a
  /\ _Animation.end_ a <= 198
  /\ (exists fps, _Animation.fps a = Float.Finite fps
                  /\ (0 < fps <= 10)%Q)
  /\ _Animation.FrameCount a = _Animation.end_ a - _Animation.start a + 1.

(** A finite value that [Float.value] leaves as it is. *)
Definition in_range (q : Q) : Prop :=
  (- Float.limit < q < Float.limit)%Q.

(** The frame cursor of an object whose active animation is [a]: a finite
    value that has not passed the frame after the last one, or what a step
    that left the range of [float] has stored: -infinity or a NaN. *)
Definition cursor_of (a : _Animation.t) (x : float) : Prop :=
  match x with
  | Float.Finite c =>
      in_range c /\ (c < inject_Z (_Animation.end_ a) + 1)%Q
  | Float.PInf => False
  | Float.NInf => True
  | Float.NaN => True
  end.

(** The active animation is one of the first twenty entries of the table,
    the speed is 1, and the frame cursor is a cursor of that animation. *)
Definition playable (m : Md2) : Prop :=
  exists a,
    0 <= mActiveAnimation m <= 19
    /\ index sAnimations (mActiveAnimation m) = Some a
    /\ cursor_of a (mActiveFrame m)
    /\ mSpeed m = Float.Finite 1.

(** The frame cursor is finite and its integral part is a frame of
    animation [a]. *)
Definition in_sequence (a : _Animation.t) (m : Md2) : Prop :=
  exists c,
    mActiveFrame m = Float.Finite c
    /\ _Animation.start a <= Float.trunc c <= _Animation.end_ a.

(** An elapsed time that [Update] can take without leaving the range of
    [float]: finite, not negative and at most 2^124 (about 2.1e37). *)
Definition elapsed (dt : float) : Prop :=
  exists d, dt = Float.Finite d /\ (0 <= d <= inject_Z (2 ^ 124))%Q.

(** [n] calls of [NextAnimation]. *)
Fixpoint NextAnimations (n : nat) (m : Md2) : option Md2 :=
  match n with
  | O => Some m
  | S n' => m' <- NextAnimation m ;; NextAnimations n' m'
  end.

(** The finite cursor that the looping branch of [Update] computes from
    the advanced cursor [f], in animation [a]. *)
Definition looped (a : _Animation.t) (f : Q) : Q :=
  ((f - inject_Z (Float.trunc f))
   + Float.remainder
       (inject_Z (Float.trunc f) - inject_Z (_Animation.start a))
       (inject_Z (_Animation.FrameCount a))
   + inject_Z (_Animation.start a))%Q.

(** The finite cursor [c] advanced by [dt] at [fps] frames per second and
    speed [speed], before looping. *)
Definition advanced (speed dt fps c : Q) : Q := (c + speed * dt * fps)%Q.

(** The cursor that [Update] stores when the object plays animation [a]
    at speed [speed], from the cursor [cursor]. *)
Definition next_cursor (a : _Animation.t) (speed dt cursor : float)
  : float :=
  let f :=
    Float.add cursor (Float.mul (Float.mul speed dt) (_Animation.fps a)) in
  if Float.geb f (Float.of_int (_Animation.end_ a)) then
    let '(frac, whole) := Float.modf f in
    Float.add
      (Float.add
         frac
         (Float.fmod
            (Float.sub whole (Float.of_int (_Animation.start a)))
            (Float.of_int (_Animation.FrameCount a))))
      (Float.of_int (_Animation.start a))
  else f.

(** ** Concrete playback states *)

(** The state after nineteen [NextAnimation] calls on a new object: the
    active animation is the second-to-last entry of the table. *)
Definition second_to_last : Md2 :=
  set_animation 19 (Float.of_int 190) Md2_default.

(** An elapsed time that takes a new object to frame 39.375 of STAND. *)
Definition dt_39_375 : float := Float.Finite 4.375.

(** An elapsed time of 10^38 seconds, below [FLT_MAX]. *)
Definition dt_1e38 : float := Float.Finite (inject_Z (10 ^ 38)).

(** ** The checks of [Load], from the header alone *)

Definition checks (h : _Md2Header) : option ErrorKind :=
  if negb (ident h =? IDP2) then Some BadIdent
  else if negb (version h =? 8) then Some BadVersion
  else if negb (0 <? Int.int16_t (triangleCnt h)) then Some BadTriangleData
  else if negb (198 =? Int.int16_t (frameCnt h)) then Some BadFrameData
  else if negb (0 <? Int.int16_t (vertexCnt h)) then Some BadVertexData
  else None.

(** ** Concrete files *)

Definition byte_of (z : Z) : byte :=
  match Byte.of_N (Z.to_N (z mod 256)) with
  | Some b => b
  | None => x00
  end.

(** The [k] bytes of the little-endian, two's complement representation. *)
Fixpoint le_bytes (k : nat) (z : Z) : list byte :=
  match k with
  | O => []
  | S k' => byte_of z :: le_bytes k' (z / 256)
  end.

(** An md2 file without skins: header, texture coordinates, [frameCnt]
    copies of one frame of scale 1 and translation 0, then the triangles. *)
Definition md2_file (skinCnt texCoordCnt frameCnt : Z)
    (texcoords : list (Z * Z)) (triangles : list (array3 Z * array3 Z))
    (vertices : list (Z * Z * Z * Z)) : list byte :=
  let texCoordOffset := 68 in
  let frameOffset := texCoordOffset + 4 * Z.of_nat (length texcoords) in
  let frameSize := 40 + 4 * Z.of_nat (length vertices) in
  let triangleOffset := frameOffset + frameSize * Z.max 0 frameCnt in
  let endOffset := triangleOffset + 12 * Z.of_nat (length triangles) in
  let one := 1065353216 (* 0x3F800000 *) in
  flat_map (le_bytes 4)
    [IDP2; 8; 256; 256; frameSize;
     skinCnt; Z.of_nat (length vertices); texCoordCnt;
     Z.of_nat (length triangles); 0; frameCnt;
     68; texCoordOffset; triangleOffset; frameOffset; endOffset; endOffset]
  ++ flat_map (fun '(s, t) => le_bytes 2 s ++ le_bytes 2 t) texcoords
  ++ concat
       (repeat (flat_map (le_bytes 4) [one; one; one; 0; 0; 0]
                ++ repeat x00 16
                ++ flat_map (fun '(x, y, z, n) =>
                               flat_map (le_bytes 1) [x; y; z; n]) vertices)
               (Z.to_nat frameCnt))
  ++ flat_map (fun '((p0, p1, p2), (t0, t1, t2)) =>
                 flat_map (le_bytes 2) [p0; p1; p2; t0; t1; t2]) triangles.

(** One triangle on three vertices, and the given numbers of skins, of
    texture coordinates and of frames in the header. *)
Definition one_triangle (skinCnt texCoordCnt frameCnt : Z) : list byte :=
  md2_file skinCnt texCoordCnt frameCnt
           [(0, 0); (255, 0); (0, 255)]
           [((0, 1, 2), (0, 1, 2))]
           [(1, 2, 3, 0); (4, 5, 6, 1); (7, 8, 9, 2)].

(** More triangles than a [uint16_t] index can tell apart: the first one on
    vertex 0, the 21845 others on vertex 1. *)
Definition many_triangles : list byte :=
  md2_file 0 1 198
           [(0, 0)]
           (((0, 0, 0), (0, 0, 0))
              :: repeat ((1, 1, 1), (0, 0, 0)) (Z.to_nat 21845))
           [(10, 20, 30, 0); (40, 50, 60, 5)].

(** The frame of [many_triangles], decoded. *)
Definition many_frame : _Frame.t :=
  _Frame.mk (Some [_Frame.mkVertex 10 20 30 0; _Frame.mkVertex 40 50 60 5])
            (binary32 1065353216, binary32 1065353216, binary32 1065353216)
            (binary32 0, binary32 0, binary32 0)
            (repeat x00 16).

(** The object that [Load] makes of [many_triangles]. *)
Definition many_model : Md2 :=
  {| mSkins := None;
     mTexCoords := Some [_TexCoord.mk 0 0];
     mTriangles :=
       Some (_Triangle.mk (0, 0, 0) (0, 0, 0)
               :: repeat (_Triangle.mk (1, 1, 1) (0, 0, 0))
                         (Z.to_nat 21845));
     mFrames := Some (repeat many_frame 198);
     mSkinCnt := 0; mTexCoordCnt := 1; mTriangleCnt := 21846;
     mFrameCnt := 198; mVertexCnt := 2;
     mSkinWidth := 256; mSkinHeight := 256;
     mActiveAnimation := 0; mActiveFrame := Float.Finite 0;
     mSpeed := Float.Finite 1; mIsPlaying := true |}.

(** A model of one triangle on the two vertices of [many_frame]. *)
Definition one_model : Md2 :=
  {| mSkins := None;
     mTexCoords := Some [_TexCoord.mk 0 0];
     mTriangles := Some [_Triangle.mk (0, 1, 1) (0, 0, 0)];
     mFrames := Some (repeat many_frame 198);
     mSkinCnt := 0; mTexCoordCnt := 1; mTriangleCnt := 1;
     mFrameCnt := 198; mVertexCnt := 2;
     mSkinWidth := 256; mSkinHeight := 256;
     mActiveAnimation := 0; mActiveFrame := Float.Finite 0;
     mSpeed := Float.Finite 1; mIsPlaying := true |}.

(** The bytes [bytes] with the 32-bit field number [i] set to [z]. *)
Definition with_field (i : nat) (z : Z) (bytes : list byte) : list byte :=
  firstn (4 * i) bytes ++ le_bytes 4 z ++ skipn (4 * i + 4) bytes.

(** [one_triangle 0 3 198] with the scale of the x axis of frame 1 set to
    +infinity (bits 0x7F800000).  Frame 1 starts 52 bytes after frame 0,
    which starts at byte 80. *)
Definition infinite_scale : list byte :=
  with_field 33 2139095040 (one_triangle 0 3 198).

Definition files (filename : string) : option (list byte) :=
  if String.eqb filename "frames198.md2" then Some (one_triangle 0 3 198)
  else if String.eqb filename "badident.md2"
       then Some (with_field 0 (IDP2 + 1) (one_triangle 0 3 198))
  else if String.eqb filename "version7.md2"
       then Some (with_field 1 7 (one_triangle 0 3 198))
  else if String.eqb filename "novertex.md2"
       then Some (with_field 6 0 (one_triangle 0 3 198))
  else if String.eqb filename "frames199.md2"
       then Some (one_triangle 0 3 199)
  else if String.eqb filename "negative.md2"
       then Some (one_triangle (-5) (-3) 198)
  else if String.eqb filename "notriangle.md2"
       then Some (md2_file 0 3 198 [(0, 0); (255, 0); (0, 255)] []
                           [(1, 2, 3, 0); (4, 5, 6, 1); (7, 8, 9, 2)])
  else if String.eqb filename "many.md2" then Some many_triangles
  else if String.eqb filename "infinite.md2" then Some infinite_scale
  else if String.eqb filename "short.md2" then Some ["I"; "D"; "P"]%byte
  else None.

(** Storage that was never written holds zeros in the examples. *)
Definition zeros (i : nat) : byte := x00.

(** The header of a complete file. *)
Definition header_bytes : list byte :=
  Eval vm_compute in firstn sizeof_Md2Header (one_triangle 0 3 198).

(** Storage that was never written and still holds what an earlier load
    left there: the header of a complete file, then zeros. *)
Definition stale (i : nat) : byte := nth i header_bytes x00.

(** The buffer handed to [GenVertices] in the examples. *)
Definition blank : buffer :=
  let zero := Float.Finite 0 in
  fun _ => Vertex.mk (zero, zero, zero) (zero, zero, zero) (zero, zero).

(** ** Comparing generated records *)

(** Two triples of floats hold the same values. *)
Definition eq3 (u v : array3 float) : Prop :=
  let '(u0, u1, u2) := u in
  let '(v0, v1, v2) := v in
  Float.eq u0 v0 /\ Float.eq u1 v1 /\ Float.eq u2 v2.

Definition eq3b (u v : array3 float) : bool :=
  let '(u0, u1, u2) := u in
  let '(v0, v1, v2) := v in
  Float.eqb u0 v0 && Float.eqb u1 v1 && Float.eqb u2 v2.

(** The three values of a triple are finite. *)
Definition finite3 (u : array3 float) : Prop :=
  let '(u0, u1, u2) := u in
  Float.is_finite u0 = true /\ Float.is_finite u1 = true
  /\ Float.is_finite u2 = true.

(** Every array access of [GenVertices] is inside its array: the two frames,
    the triangle, its corners in both frames, their normals and the texture
    coordinate, for each corner of each triangle. *)
Definition in_bounds (m : Md2) (activeFrameIdx nextFrame : Z) : Prop :=
  forall i j,
    0 <= i < mTriangleCnt m -> 0 <= j < 3 ->
    set_pointers m activeFrameIdx nextFrame i j <> None.

(** A finite value that no operation has taken out of the range. *)
Definition ranged (x : float) : Prop :=
  exists q, x = Float.Finite q /\ in_range q.

Definition ranged3 (u : array3 float) : Prop :=
  let '(u0, u1, u2) := u in ranged u0 /\ ranged u1 /\ ranged u2.

(** The positions that [GenVertices] uncompresses, in the frame
    [activeFrameIdx] and in the frame [nextFrame], are finite: the scales
    and translations read from the file are, and no product or sum passes
    the largest [float]. *)
Definition finite_positions (m : Md2) (activeFrameIdx nextFrame : Z)
  : Prop :=
  forall i j c,
    0 <= i < mTriangleCnt m -> 0 <= j < 3 ->
    set_pointers m activeFrameIdx nextFrame i j = Some c ->
    finite3 (uncompress (frameA c) (vertA c))
    /\ finite3 (uncompress (frameB c) (vertB c)).

(** The frame that [GenVertices] blends with frame [activeFrameIdx]. *)
Definition next_frame (a : _Animation.t) (activeFrameIdx : Z) : Z :=
  Int.uint16_t (if activeFrameIdx =? _Animation.end_ a
                then _Animation.start a
                else activeFrameIdx + 1).

(** The three records written for triangle [i]. *)
Definition gen_triangle (m : Md2) (activeFrameIdx nextFrame : Z)
    (oneMinusLerp lerp : float) (i : Z) (vertices : buffer)
  : option buffer :=
  for_ 3 0
       (fun j vertices =>
          c <- set_pointers m activeFrameIdx nextFrame i j ;;
          let index := Int.uint16_t (i * 3 + j) in
          Some (store vertices index (gen_vertex m oneMinusLerp lerp c)))
       vertices.

(** ** Sessions: loading and forward playback *)

Section Sessions.

Variable fs : string -> option (list byte).
Variable indeterminate : nat -> byte.
Variable float_of_bits : Z -> float.

(** The objects that a default-constructed [Md2] can become through the
    loads that are defined (whatever their outcome) and the playback
    operations, each [Update] with an elapsed time from 0 to 2^124. *)
Inductive session : Md2 -> Prop :=
| session_default : session Md2_default
| session_Load filename m r :
    session m ->
    Load fs indeterminate float_of_bits filename m = Some r ->
    session (fst r)
| session_Play m : session m -> session (Play m)
| session_Pause m : session m -> session (Pause m)
| session_Next m m' :
    session m -> NextAnimation m = Some m' -> session m'
| session_Previous m m' :
    session m -> PreviousAnimation m = Some m' -> session m'
| session_Update dt m m' :
    session m -> elapsed dt -> Update dt m = Some m' -> session m'.

End Sessions.

(** The first [sizeof_Md2Header] bytes of a complete one-triangle file:
    a file cut right after its header. *)
Definition header_only : list byte :=
  firstn sizeof_Md2Header (one_triangle 0 3 198).

Definition more_files (filename : string) : option (list byte) :=
  if String.eqb filename "header.md2" then Some header_only
  else files filename.

(** What the seven accessors of an object return. *)
Definition dimensions (m : Md2) : list Z :=
  [SkinCount m; TexCoordCount m; TriangleCount m; FrameCount m;
   VertexCount m; SkinWidth m; SkinHeight m].

(** The same seven fields, in a header. *)
Definition header_dimensions (h : _Md2Header) : list Z :=
  [skinCnt h; texCoordCnt h; triangleCnt h; frameCnt h;
   vertexCnt h; skinWidth h; skinHeight h].

(** The invariant of a session: one of the first twenty animations is
    active, the cursor is finite with its integer part on a frame of that
    animation, the speed is 1, and the frame array, when there is one, has
    198 frames. *)
Definition on_frames (m : Md2) : Prop :=
  exists a,
    0 <= mActiveAnimation m <= 19
    /\ index sAnimations (mActiveAnimation m) = Some a
    /\ in_sequence a m
    /\ mSpeed m = Float.Finite 1
    /\ forall frames, mFrames m = Some frames -> length frames = 198%nat.

(** ** Framework: next_power_of_two *)

(** Conversion to [GLuint], an unsigned integer of 32 bits. *)
Definition GLuint : Z -> Z := Int.wrap_unsigned 32.

(** The loop [for (GLuint i = 1; i < sizeof(GLuint)*CHAR_BIT; i <<= 1)
    number = number | number >> i], with the iterations that remain as
    fuel. *)
Fixpoint smear (fuel : nat) (i number : Z) : Z :=
  match fuel with
  | O => number
  | S fuel' =>
      if i <? 32
      then smear fuel' (GLuint (Z.shiftl i 1))
                 (Z.lor number (Z.shiftr number i))
      else number
  end.

(** [fw::next_power_of_two].  The loop doubles [i] from 1 and stops at 32:
    32 iterations are more than it takes. *)
Definition next_power_of_two (number : Z) : Z :=
  if number =? 0 then 1 else
  let number := GLuint (number - 1) in
  let number := smear 32 1 number in
  GLuint (number + 1).

(** Bit [j] of [y] is set exactly when one of the [w] bits of [x] from [j]
    upwards is. *)
Definition covers (x y w : Z) : Prop :=
  forall j, 0 <= j ->
            (Z.testbit y j = true
             <-> exists d, 0 <= d < w /\ Z.testbit x (j + d) = true).

(** ** main.cpp: streaming the vertices *)

Definition STREAM_BUFFER_CAPACITY : Z := 8192 * 1024.   (* 8MBytes *)

Definition sizeof_Md2_Vertex : Z := 32.   (* eight floats *)

(** The static variables of [on_update]. *)
Record stream : Type := mk_stream
  { streamOffset : Z;    (* GLuint, in bytes *)
    drawOffset : Z }.    (* GLuint, in vertices *)

(** What [on_update] asks of OpenGL for one frame: whether the buffer is
    orphaned ([glBufferData] with a null pointer), and the range given to
    [glMapBufferRange], which [GenVertices] then fills. *)
Record mapping : Type := mk_mapping
  { orphaned : bool;
    map_offset : Z;
    map_length : Z }.

(** The part of [on_update] that streams the vertices of the model: the
    OpenGL calls appear by their arguments only. *)
Definition stream_vertices (m : Md2) (s : stream)
  : stream * option mapping :=
  if IsPlaying m then
    let streamDataSize :=
      next_power_of_two
        (GLuint (TriangleCount m * 3 * sizeof_Md2_Vertex)) in
    (* orphan the buffer if full *)
    let full :=
      GLuint (streamOffset s + streamDataSize) >? STREAM_BUFFER_CAPACITY in
    let offset := if full then 0 else streamOffset s in
    ({| (* compute draw offset *)
        drawOffset := offset / sizeof_Md2_Vertex;
        (* increment offset *)
        streamOffset := GLuint (offset + streamDataSize) |},
     Some (mk_mapping full offset streamDataSize))
  else (s, None).

(** The stream offset is inside the buffer and on a multiple of 128 bytes. *)
Definition stream_ok (s : stream) : Prop :=
  0 <= streamOffset s <= STREAM_BUFFER_CAPACITY
  /\ streamOffset s mod 128 = 0.

(** The frames of a run of [on_update], one state of the model per frame:
    the static variables at the end, and the mappings asked for. *)
Fixpoint stream_frames (ms : list Md2) (s : stream)
  : stream * list mapping :=
  match ms with
  | [] => (s, [])
  | m :: ms' =>
      let '(s1, r) := stream_vertices m s in
      let '(s2, rs) := stream_frames ms' s1 in
      (s2, match r with Some mp => mp :: rs | None => rs end)
  end.

(** The mapped range lies inside the buffer. *)
Definition mapping_in_buffer (mp : mapping) : Prop :=
  0 <= map_offset mp
  /\ map_offset mp + map_length mp <= STREAM_BUFFER_CAPACITY.

(** ** Framework.cpp: the pixels of a Tga image *)

Module Tga.

(** The data members of [fw::Tga]: [mWidth] and [mHeight] are [GLushort],
    [mPixelFormat] is the number of bytes of a pixel ([GLint]). *)
Record t : Type :=
  mk { mPixels : option (list byte);
       mWidth : Z;
       mHeight : Z;
       mPixelFormat : Z }.

End Tga.

(** The value of an expression of type [int]: a result that the type
    cannot represent is undefined. *)
Definition int_value (z : Z) : option Z :=
  if (- 2 ^ 31 <=? z) && (z <? 2 ^ 31) then Some z else None.

(** [memcpy(&dst[d], &src[s], n)]: both ranges must lie inside their
    arrays; the bytes of [dst] outside the range are kept. *)
Definition memcpy (dst : list byte) (d : Z) (src : list byte) (s n : Z)
  : option (list byte) :=
  if (0 <=? n)
     && (0 <=? d) && (d + n <=? Z.of_nat (length dst))
     && (0 <=? s) && (s + n <=? Z.of_nat (length src))
  then Some (firstn (Z.to_nat d) dst
             ++ firstn (Z.to_nat n) (skipn (Z.to_nat s) src)
             ++ skipn (Z.to_nat (d + n)) dst)
  else None.

Section Flip.

(** The contents of storage that was never written. *)
Variable indeterminate : nat -> byte.

(** One [memcpy] of [Tga::_Flip], for the pixel [x] of the row [y]. *)
Definition _Flip_pixel (tga : Tga.t) (y x : Z) (flippedData : list byte)
  : option (list byte) :=
  let mWidth := Tga.mWidth tga in
  let mPixelFormat := Tga.mPixelFormat tga in
  (* y*mWidth*mPixelFormat+x*mPixelFormat *)
  yw <- int_value (y * mWidth) ;;
  ywf <- int_value (yw * mPixelFormat) ;;
  xf <- int_value (x * mPixelFormat) ;;
  d <- int_value (ywf + xf) ;;
  (* (mWidth-y)*mWidth*mPixelFormat+x*mPixelFormat *)
  r <- int_value (mWidth - y) ;;
  rw <- int_value (r * mWidth) ;;
  rwf <- int_value (rw * mPixelFormat) ;;
  s <- int_value (rwf + xf) ;;
  mPixels <- Tga.mPixels tga ;;
  memcpy flippedData d mPixels s mPixelFormat.

(** [Tga::_Flip]: the copy into a new array, then the new array in place
    of the old one. *)
Definition _Flip (tga : Tga.t) : option Tga.t :=
  let mWidth := Tga.mWidth tga in
  let mHeight := Tga.mHeight tga in
  let mPixelFormat := Tga.mPixelFormat tga in
  wh <- int_value (mWidth * mHeight) ;;
  n <- int_value (wh * mPixelFormat) ;;
  if n <? 0 then None   (* no array of a negative size *)
  else
    let flippedData := uninitialized indeterminate (Z.to_nat n) in
    flippedData' <-
      for_ (Z.to_nat mHeight) 0
        (fun y => for_ (Z.to_nat mWidth) 0 (_Flip_pixel tga y))
        flippedData ;;
    Some (Tga.mk (Some flippedData') mWidth mHeight mPixelFormat).

End Flip.

(** The pixel array has the size that the loaders give it,
    [mWidth*mHeight*mPixelFormat] bytes, for an image that is not empty. *)
Definition Tga_loaded (tga : Tga.t) (pixels : list byte) : Prop :=
  Tga.mPixels tga = Some pixels
  /\ 0 < Tga.mWidth tga <= 65535
  /\ 0 < Tga.mHeight tga <= 65535
  /\ 0 < Tga.mPixelFormat tga
  /\ Z.of_nat (length pixels)
     = Tga.mWidth tga * Tga.mHeight tga * Tga.mPixelFormat tga.

(** The byte [k] of the pixel [x] of the row [y]. *)
Definition Tga_byte (tga : Tga.t) (pixels : list byte) (y x k : Z)
  : option byte :=
  index pixels
    (y * Tga.mWidth tga * Tga.mPixelFormat tga
     + x * Tga.mPixelFormat tga + k).

(** The first [c] pixels of [flippedData], in the order of the loops of
    [Tga::_Flip], are those of the rows [mWidth - y] of [pixels]. *)
Definition flipped_upto (tga : Tga.t) (pixels : list byte) (c : Z)
    (flippedData : list byte) : Prop :=
  length flippedData = length pixels
  /\ forall y x k,
       0 <= y -> 0 <= x < Tga.mWidth tga -> 0 <= k < Tga.mPixelFormat tga ->
       y * Tga.mWidth tga + x < c ->
       Tga_byte tga flippedData y x k
       = Tga_byte tga pixels (Tga.mWidth tga - y) x k.

(** An image of two columns and three rows, one byte per pixel. *)
Definition two_by_three : Tga.t :=
  Tga.mk (Some ["1"; "2"; "3"; "4"; "5"; "6"]%byte) 2 3 1.

(** An image of two columns and two rows, one byte per pixel. *)
Definition two_by_two : Tga.t :=
  Tga.mk (Some ["1"; "2"; "3"; "4"]%byte) 2 2 1.
(** * Properties *)

(** ** Truncation and remainder of finite values *)

Section FloatFacts.

Local Open Scope Q_scope.

Lemma trunc_nonneg (x : Q) : 0 <= x -> Float.trunc x = Qfloor x.
Proof.
  intros H. unfold Float.trunc.
  apply Qle_bool_iff in H. now rewrite H.
Qed.

Lemma trunc_neg (x : Q) : x < 0 -> Float.trunc x = Qceiling x.
Proof.
  intros H. unfold Float.trunc.
  destruct (Qle_bool 0 x) eqn:E; [|reflexivity].
  apply Qle_bool_iff in E. lra.
Qed.

Lemma trunc_comp (x y : Q) : x == y -> Float.trunc x = Float.trunc y.
Proof.
  intros H. unfold Float.trunc.
  rewrite (Qfloor_comp _ _ H), (Qceiling_comp _ _ H).
  now rewrite H.
Qed.

Lemma trunc_of_int (z : Z) : Float.trunc (inject_Z z) = z.
Proof.
  unfold Float.trunc.
  rewrite Qfloor_Z, Qceiling_Z. now destruct (Qle_bool _ _).
Qed.

Lemma Qceiling_nonpos (x : Q) : x < 0 -> (Qceiling x <= 0)%Z.
Proof.
  intros H.
  assert (L : (Qceiling x < 1)%Z).
  { rewrite Zlt_Qlt. pose proof (Qceiling_lt x) as C.
    replace (inject_Z (Qceiling x - 1)) with (inject_Z (Qceiling x + - 1))
      in C by reflexivity.
    rewrite inject_Z_plus in C.
    change (inject_Z (-1)) with (-1) in C. change (inject_Z 1) with 1. lra. }
  lia.
Qed.

Lemma Qfloor_nonneg (x : Q) : 0 <= x -> (0 <= Qfloor x)%Z.
Proof.
  intros H. change 0%Z with (Qfloor 0). now apply Qfloor_resp_le.
Qed.

Lemma trunc_mono (x y : Q) : x <= y -> (Float.trunc x <= Float.trunc y)%Z.
Proof.
  intros H.
  destruct (Qlt_le_dec x 0) as [Hx|Hx]; destruct (Qlt_le_dec y 0) as [Hy|Hy].
  - rewrite !trunc_neg by assumption. now apply Qceiling_resp_le.
  - rewrite (trunc_neg x), (trunc_nonneg y) by assumption.
    pose proof (Qceiling_nonpos x Hx). pose proof (Qfloor_nonneg y Hy). lia.
  - lra.
  - rewrite !trunc_nonneg by assumption. now apply Qfloor_resp_le.
Qed.

(** The integral part of a non-negative value, from both sides. *)
Lemma trunc_bounds (x : Q) :
  0 <= x ->
  inject_Z (Float.trunc x) <= x /\ x < inject_Z (Float.trunc x) + 1.
Proof.
  intros H. rewrite trunc_nonneg by assumption. split.
  - apply Qfloor_le.
  - pose proof (Qlt_floor x) as L. rewrite inject_Z_plus in L.
    exact L.
Qed.

Lemma trunc_unique (x : Q) (k : Z) :
  inject_Z k <= x -> x < inject_Z k + 1 -> (0 <= k)%Z ->
  Float.trunc x = k.
Proof.
  intros Hl Hu Hk.
  assert (Hx : 0 <= x).
  { apply Qle_trans with (inject_Z k); [|assumption].
    change 0 with (inject_Z 0). now rewrite <- Zle_Qle. }
  rewrite trunc_nonneg by assumption.
  assert (L1 : (k <= Qfloor x)%Z).
  { rewrite <- (Qfloor_Z k). now apply Qfloor_resp_le. }
  assert (L2 : (Qfloor x < k + 1)%Z).
  { rewrite Zlt_Qlt, inject_Z_plus.
    apply Qle_lt_trans with x; [apply Qfloor_le | exact Hu]. }
  lia.
Qed.

(** The remainder of two integral values is the remainder of the
    integers. *)
Lemma remainder_integral (x : Q) (a b : Z) :
  (0 <= a)%Z -> (0 < b)%Z -> x == inject_Z a ->
  Float.remainder x (inject_Z b) == inject_Z (a mod b).
Proof.
  intros Ha Hb Hx. unfold Float.remainder.
  assert (Hq : 0 <= x / inject_Z b).
  { rewrite Hx. apply Qle_shift_div_l.
    - change 0 with (inject_Z 0). now rewrite <- Zlt_Qlt.
    - rewrite Qmult_0_l. change 0 with (inject_Z 0). now rewrite <- Zle_Qle. }
  rewrite trunc_nonneg by assumption.
  rewrite (Qfloor_comp _ (inject_Z a / inject_Z b)) by now rewrite Hx.
  rewrite <- Zdiv_Qdiv, Hx.
  rewrite (Z.mod_eq a b) by lia.
  unfold Zminus. rewrite inject_Z_plus, inject_Z_opp, inject_Z_mult. ring.
Qed.

End FloatFacts.

(** ** The range of [float] *)

Section Range.

Local Open Scope Q_scope.

Lemma limit_positive : 0 < Float.limit.
Proof. reflexivity. Qed.

(** Ten times the largest elapsed time, past the last frame of the table,
    is in the range. *)
Lemma limit_room : 200 + inject_Z (2 ^ 124) * 10 < Float.limit.
Proof. reflexivity. Qed.

Lemma value_in_range (q : Q) :
  in_range q -> Float.value q = Float.Finite q.
Proof.
  intros [L U]. unfold Float.value.
  destruct (Qle_bool Float.limit q) eqn:E1.
  - apply Qle_bool_iff in E1. lra.
  - destruct (Qle_bool q (- Float.limit)) eqn:E2; [|reflexivity].
    apply Qle_bool_iff in E2. lra.
Qed.

Lemma value_overflow (q : Q) : Float.limit <= q -> Float.value q = Float.PInf.
Proof.
  intros H. unfold Float.value. apply Qle_bool_iff in H. now rewrite H.
Qed.

(** A finite result is in the range. *)
Lemma value_Finite (q r : Q) :
  Float.value q = Float.Finite r -> r = q /\ in_range q.
Proof.
  unfold Float.value.
  destruct (Qle_bool Float.limit q) eqn:E1; [discriminate|].
  destruct (Qle_bool q (- Float.limit)) eqn:E2; [discriminate|].
  intros [= <-]. split; [reflexivity|].
  split; apply Qnot_le_lt; intros H; apply Qle_bool_iff in H; congruence.
Qed.

Lemma add_Finite (x y : float) (r : Q) :
  Float.add x y = Float.Finite r -> in_range r.
Proof.
  destruct x as [a| | |], y as [b| | |]; try discriminate.
  cbn [Float.add]. intros H. apply value_Finite in H.
  destruct H as [-> H]. exact H.
Qed.

Lemma in_range_comp (q r : Q) : q == r -> in_range q -> in_range r.
Proof. unfold in_range. intros E. now rewrite E. Qed.

(** Values between -1 and 200, as the frames of the table are, are in the
    range. *)
Lemma frames_in_range (q : Q) : -1 <= q <= 200 -> in_range q.
Proof.
  intros H. unfold in_range. pose proof limit_room as R.
  set (L := Float.limit) in *.
  assert (0 <= inject_Z (2 ^ 124) * 10) by discriminate.
  lra.
Qed.

Lemma eq_refl_float (x : float) : Float.eq x x.
Proof. destruct x; cbn; reflexivity || exact I. Qed.

Lemma eq_trans_float (x y z : float) :
  Float.eq x y -> Float.eq y z -> Float.eq x z.
Proof.
  destruct x, y, z; cbn; try tauto. intros A B. now rewrite A.
Qed.

Lemma eq_sym_float (x y : float) : Float.eq x y -> Float.eq y x.
Proof. destruct x, y; cbn; try tauto. intros A. now symmetry. Qed.

Lemma eqb_eq_float (x y : float) : Float.eqb x y = true <-> Float.eq x y.
Proof.
  destruct x, y; cbn; try (split; [discriminate | tauto]);
    try (split; [intros _; exact I | reflexivity]).
  apply Qeq_bool_iff.
Qed.

End Range.

(** ** The animation table *)

Lemma sAnimations_well_formed : Forall well_formed_animation sAnimations.
Proof.
  unfold sAnimations. cbv zeta beta.
  repeat (constructor;
          [unfold well_formed_animation, _Animation.FrameCount; simpl;
           split; [lia|]; split; [lia|];
           split; [eexists; split;
                   [reflexivity | split; [reflexivity | discriminate]]
                  |reflexivity]|]).
  constructor.
Qed.

Lemma index_In {A : Type} (l : list A) (i : Z) (a : A) :
  index l i = Some a -> In a l.
Proof.
  unfold index. destruct (i <? 0); [discriminate|].
  apply nth_error_In.
Qed.

Lemma index_sAnimations (i : Z) (a : _Animation.t) :
  index sAnimations i = Some a -> well_formed_animation a.
Proof.
  intros H. apply index_In in H.
  exact (proj1 (Forall_forall _ _) sAnimations_well_formed a H).
Qed.

Lemma index_sAnimations_range (i : Z) (a : _Animation.t) :
  index sAnimations i = Some a -> 0 <= i <= 20.
Proof.
  unfold index. destruct (i <? 0) eqn:E; [discriminate|].
  intros H. apply Z.ltb_ge in E.
  assert (L : (Z.to_nat i < length sAnimations)%nat).
  { apply nth_error_Some. congruence. }
  simpl in L. lia.
Qed.

Lemma index_sAnimations_defined (i : Z) :
  0 <= i <= 20 -> exists a, index sAnimations i = Some a.
Proof.
  intros H. unfold index.
  destruct (i <? 0) eqn:E; [apply Z.ltb_lt in E; lia|].
  destruct (nth_error sAnimations (Z.to_nat i)) eqn:N; [eauto|].
  apply nth_error_None in N. simpl in N. lia.
Qed.

(** ** The looping branch of [Update], on finite values *)

Section Looping.

Local Open Scope Q_scope.

Variable a : _Animation.t.
Hypothesis a_wf : well_formed_animation a.

Lemma end_nonneg : 0 <= inject_Z (_Animation.end_ a) <= 198.
Proof.
  destruct a_wf as (Hse & He & _). split.
  - change 0 with (inject_Z 0). rewrite <- Zle_Qle. lia.
  - change 198 with (inject_Z 198). rewrite <- Zle_Qle. lia.
Qed.

Lemma looped_eq (f : Q) :
  inject_Z (_Animation.end_ a) <= f ->
  looped a f ==
  (f - inject_Z (Float.trunc f))
  + inject_Z ((Float.trunc f - _Animation.start a)
                mod (_Animation.end_ a - _Animation.start a + 1)
              + _Animation.start a).
Proof.
  intros Hf. destruct a_wf as (Hse & _ & _ & Hc).
  pose proof end_nonneg as E.
  assert (H0 : 0 <= f) by lra.
  assert (Hw : (_Animation.end_ a <= Float.trunc f)%Z).
  { rewrite <- (trunc_of_int (_Animation.end_ a)). now apply trunc_mono. }
  unfold looped. rewrite Hc.
  rewrite (remainder_integral _ (Float.trunc f - _Animation.start a)).
  - rewrite inject_Z_plus. ring.
  - lia.
  - lia.
  - unfold Zminus. rewrite inject_Z_plus, inject_Z_opp. ring.
Qed.

Lemma looped_trunc (f : Q) :
  inject_Z (_Animation.end_ a) <= f ->
  Float.trunc (looped a f)
  = ((Float.trunc f - _Animation.start a)
       mod (_Animation.end_ a - _Animation.start a + 1)
     + _Animation.start a)%Z.
Proof.
  intros Hf. destruct a_wf as (Hse & _ & _ & Hc).
  pose proof end_nonneg as E.
  assert (H0 : 0 <= f) by lra.
  destruct (trunc_bounds f H0) as [L U].
  pose proof (Z.mod_pos_bound (Float.trunc f - _Animation.start a)
                (_Animation.end_ a - _Animation.start a + 1)) as B.
  rewrite (trunc_comp _ _ (looped_eq f Hf)).
  apply trunc_unique; [lra | lra | lia].
Qed.

(** The looped cursor is a frame of the animation, whatever the step. *)
Lemma looped_in_sequence (f : Q) :
  inject_Z (_Animation.end_ a) <= f ->
  (_Animation.start a <= Float.trunc (looped a f) <= _Animation.end_ a)%Z.
Proof.
  intros Hf. rewrite (looped_trunc f Hf).
  destruct a_wf as (Hse & _ & _ & Hc).
  pose proof (Z.mod_pos_bound (Float.trunc f - _Animation.start a)
                (_Animation.end_ a - _Animation.start a + 1)) as B.
  lia.
Qed.

Lemma looped_bounds (f : Q) :
  inject_Z (_Animation.end_ a) <= f ->
  inject_Z (_Animation.start a) <= looped a f
  /\ looped a f < inject_Z (_Animation.end_ a) + 1.
Proof.
  intros Hf.
  pose proof (looped_in_sequence f Hf) as [A B].
  pose proof end_nonneg as E.
  assert (H0 : 0 <= f) by lra.
  destruct (trunc_bounds f H0) as [L U].
  rewrite (looped_trunc f Hf) in A, B.
  rewrite (looped_eq f Hf).
  rewrite Zle_Qle in A, B. lra.
Qed.

Lemma looped_upper (f : Q) :
  inject_Z (_Animation.end_ a) <= f ->
  looped a f < inject_Z (_Animation.end_ a) + 1.
Proof. intros Hf. apply looped_bounds, Hf. Qed.

(** Within one frame past the end, looping changes nothing. *)
Lemma looped_fixed (f : Q) :
  inject_Z (_Animation.end_ a) <= f ->
  f < inject_Z (_Animation.end_ a) + 1 ->
  looped a f == f.
Proof.
  intros Hf Hu. destruct a_wf as (Hse & _ & _ & Hc).
  assert (T : Float.trunc f = _Animation.end_ a)
    by (apply trunc_unique; [assumption | assumption | lia]).
  rewrite (looped_eq f Hf), T.
  rewrite Z.mod_small by lia.
  replace (_Animation.end_ a - _Animation.start a + _Animation.start a)%Z
    with (_Animation.end_ a) by lia.
  ring.
Qed.

(** The looping branch on a finite cursor in the range: no operation of it
    leaves the range. *)
Lemma wrap_finite (f : Q) :
  in_range f ->
  inject_Z (_Animation.end_ a) <= f ->
  (let '(frac, whole) := Float.modf (Float.Finite f) in
   Float.add
     (Float.add
        frac
        (Float.fmod
           (Float.sub whole (Float.of_int (_Animation.start a)))
           (Float.of_int (_Animation.FrameCount a))))
     (Float.of_int (_Animation.start a)))
  = Float.Finite (looped a f).
Proof.
  intros R Hf. pose proof a_wf as (Hse & He & _ & Hc).
  pose proof end_nonneg as E.
  assert (H0 : 0 <= f) by lra.
  destruct (trunc_bounds f H0) as [L U].
  assert (Hw : (_Animation.end_ a <= Float.trunc f)%Z).
  { rewrite <- (trunc_of_int (_Animation.end_ a)). now apply trunc_mono. }
  assert (S0 : 0 <= inject_Z (_Animation.start a) <= 198).
  { split.
    - change 0 with (inject_Z 0). rewrite <- Zle_Qle. lia.
    - change 198 with (inject_Z 198). rewrite <- Zle_Qle. lia. }
  assert (Sw : inject_Z (_Animation.start a) <= inject_Z (Float.trunc f)).
  { rewrite <- Zle_Qle. lia. }
  unfold Float.of_int. cbn [Float.modf Float.sub].
  rewrite value_in_range by (destruct R; split; lra).
  cbn [Float.fmod].
  assert (N : Qeq_bool (inject_Z (_Animation.FrameCount a)) 0 = false).
  { destruct (Qeq_bool _ 0) eqn:Q0; [|reflexivity].
    apply Qeq_bool_iff in Q0. change 0 with (inject_Z 0) in Q0.
    rewrite inject_Z_injective in Q0. rewrite Hc in Q0. lia. }
  rewrite N.
  assert (M : Float.remainder
                (inject_Z (Float.trunc f) - inject_Z (_Animation.start a))
                (inject_Z (_Animation.FrameCount a))
              == inject_Z ((Float.trunc f - _Animation.start a)
                             mod (_Animation.end_ a - _Animation.start a
                                  + 1))).
  { rewrite Hc. apply remainder_integral; [lia | lia |].
    unfold Zminus. rewrite inject_Z_plus, inject_Z_opp. ring. }
  pose proof (Z.mod_pos_bound (Float.trunc f - _Animation.start a)
                (_Animation.end_ a - _Animation.start a + 1)) as B.
  assert (B' : 0 <= inject_Z ((Float.trunc f - _Animation.start a)
                                mod (_Animation.end_ a - _Animation.start a
                                     + 1)) <= 198).
  { split.
    - change 0 with (inject_Z 0). rewrite <- Zle_Qle. lia.
    - change 198 with (inject_Z 198). rewrite <- Zle_Qle. lia. }
  cbn [Float.add].
  rewrite value_in_range
    by (apply frames_in_range; rewrite M; lra).
  cbn [Float.add].
  rewrite value_in_range.
  - reflexivity.
  - pose proof (looped_bounds f Hf) as [A1 A2]. unfold looped in A1, A2.
    apply frames_in_range. lra.
Qed.

End Looping.

(** ** The playback operations *)

Lemma Update_paused (dt : float) (m : Md2) :
  mIsPlaying m = false -> Update dt m = Some m.
Proof. intros H. unfold Update. now rewrite H. Qed.

Lemma Update_playing (dt : float) (m : Md2) (a : _Animation.t) :
  mIsPlaying m = true ->
  index sAnimations (mActiveAnimation m) = Some a ->
  Update dt m
  = Some (set_frame (next_cursor a (mSpeed m) dt (mActiveFrame m)) m).
Proof.
  intros Hp Ha. unfold Update, next_cursor. rewrite Hp, Ha.
  cbn [negb bind].
  destruct (Float.geb _ _); [|reflexivity].
  destruct (Float.modf _). reflexivity.
Qed.

Section Cursor.

Local Open Scope Q_scope.

Variable a : _Animation.t.
Hypothesis a_wf : well_formed_animation a.

(** The cursor after a step, from the advanced cursor [f]. *)
Lemma next_cursor_from (dt x : float) :
  next_cursor a (Float.Finite 1) dt x
  = let f :=
      Float.add x (Float.mul (Float.mul (Float.Finite 1) dt)
                             (_Animation.fps a)) in
    match f with
    | Float.Finite q =>
        if Qle_bool (inject_Z (_Animation.end_ a)) q
        then Float.Finite (looped a q) else f
    | Float.PInf => Float.NaN
    | _ => f
    end.
Proof.
  unfold next_cursor. cbv zeta.
  destruct (Float.add x _) as [q| | |] eqn:F.
  - cbn [Float.geb Float.of_int].
    destruct (Qle_bool _ q) eqn:G; [|reflexivity].
    apply Qle_bool_iff in G.
    apply (wrap_finite a a_wf q); [|exact G].
    exact (add_Finite _ _ _ F).
  - reflexivity.
  - reflexivity.
  - reflexivity.
Qed.

(** A step keeps the cursor a cursor of the animation, whatever the
    elapsed time. *)
Lemma next_cursor_cursor (dt x : float) :
  cursor_of a x -> cursor_of a (next_cursor a (Float.Finite 1) dt x).
Proof.
  intros C. rewrite next_cursor_from. cbv zeta.
  destruct (Float.add x _) as [q| | |] eqn:F; try exact I.
  pose proof (add_Finite _ _ _ F) as R.
  destruct (Qle_bool _ q) eqn:G.
  - apply Qle_bool_iff in G.
    destruct (looped_bounds a a_wf q G) as [A1 A2].
    pose proof a_wf as (Hse & He & _).
    cbn. split; [|exact A2].
    apply frames_in_range.
    assert (0 <= inject_Z (_Animation.start a)).
    { change 0 with (inject_Z 0). rewrite <- Zle_Qle. lia. }
    pose proof (end_nonneg a a_wf). lra.
  - cbn. split; [exact R|].
    apply Qnot_le_lt. intros L.
    assert (L' : inject_Z (_Animation.end_ a) <= q) by lra.
    apply Qle_bool_iff in L'. congruence.
Qed.

(** A step of a finite cursor by a finite time, when the advanced cursor
    stays in the range. *)
Lemma next_cursor_finite (fps d c : Q) :
  _Animation.fps a = Float.Finite fps ->
  in_range (1 * d) -> in_range (1 * d * fps) ->
  in_range (advanced 1 d fps c) ->
  next_cursor a (Float.Finite 1) (Float.Finite d) (Float.Finite c)
  = Float.Finite
      (if Qle_bool (inject_Z (_Animation.end_ a)) (advanced 1 d fps c)
       then looped a (advanced 1 d fps c)
       else advanced 1 d fps c).
Proof.
  intros Hf R1 R2 R3. rewrite next_cursor_from. rewrite Hf. cbv zeta.
  cbn [Float.mul]. rewrite (value_in_range _ R1).
  cbn [Float.mul]. rewrite (value_in_range _ R2).
  cbn [Float.add]. unfold advanced in *. rewrite (value_in_range _ R3).
  destruct (Qle_bool _ _); reflexivity.
Qed.

(** A step that leaves the range: the cursor becomes a NaN. *)
Lemma next_cursor_overflow (fps d c : Q) :
  _Animation.fps a = Float.Finite fps ->
  Float.limit <= 1 * d * fps ->
  next_cursor a (Float.Finite 1) (Float.Finite d) (Float.Finite c)
  = Float.NaN.
Proof.
  intros Hf O. rewrite next_cursor_from. rewrite Hf. cbv zeta.
  destruct a_wf as (_ & _ & (fps' & Hf' & P1 & P2) & _).
  assert (fps' = fps) by congruence. subst fps'.
  pose proof limit_positive as LP.
  assert (D : 0 < d).
  { destruct (Qlt_le_dec 0 d) as [D|D]; [exact D|].
    assert (1 * d * fps <= 0).
    { setoid_replace (1 * d * fps) with (- ((- d) * fps)) by ring.
      assert (0 <= (- d) * fps) by (apply Qmult_le_0_compat; lra).
      lra. }
    lra. }
  assert (M : Float.mul (Float.mul (Float.Finite 1) (Float.Finite d))
                        (Float.Finite fps) = Float.PInf).
  { cbn [Float.mul]. unfold Float.value at 1.
    destruct (Qle_bool Float.limit (1 * d)) eqn:E1.
    - cbn [Float.mul]. unfold Float.infinity_times.
      assert (N : Qeq_bool fps 0 = false).
      { destruct (Qeq_bool fps 0) eqn:Q0; [|reflexivity].
        apply Qeq_bool_iff in Q0. lra. }
      assert (P : Qle_bool 0 fps = true) by (apply Qle_bool_iff; lra).
      rewrite N, P. reflexivity.
    - destruct (Qle_bool (1 * d) (- Float.limit)) eqn:E2.
      + apply Qle_bool_iff in E2. lra.
      + cbn [Float.mul]. exact (value_overflow _ O). }
  rewrite M. reflexivity.
Qed.

(** A step of no time leaves the cursor as it is. *)
Lemma next_cursor_zero (x : float) :
  cursor_of a x ->
  Float.eq (next_cursor a (Float.Finite 1) (Float.Finite 0) x) x.
Proof.
  intros C. rewrite next_cursor_from. cbv zeta.
  destruct a_wf as (_ & _ & (fps & Hf & P1 & P2) & _). rewrite Hf.
  cbn [Float.mul].
  rewrite (value_in_range (1 * 0)) by (apply frames_in_range; lra).
  cbn [Float.mul].
  rewrite (value_in_range (1 * 0 * fps))
    by (apply frames_in_range; split; ring_simplify; lra).
  destruct x as [c| | |]; cbn in C; try exact I; try contradiction.
  destruct C as [R U]. cbn [Float.add].
  assert (E : c + 1 * 0 * fps == c) by ring.
  rewrite value_in_range by (apply (in_range_comp c); [now symmetry|exact R]).
  destruct (Qle_bool _ _) eqn:G.
  - apply Qle_bool_iff in G. cbn.
    rewrite looped_fixed; [exact E | exact a_wf | exact G | lra].
  - cbn. exact E.
Qed.

End Cursor.

Ltac index_cases i H :=
  let C := fresh "C" in
  assert (C : i = 0 \/ i = 1 \/ i = 2 \/ i = 3 \/ i = 4 \/ i = 5 \/ i = 6
              \/ i = 7 \/ i = 8 \/ i = 9 \/ i = 10 \/ i = 11 \/ i = 12
              \/ i = 13 \/ i = 14 \/ i = 15 \/ i = 16 \/ i = 17 \/ i = 18
              \/ i = 19) by lia;
  clear H;
  repeat (destruct C as [C|C]; [rewrite C|]); [..|rewrite C].

Lemma NextAnimation_spec (m : Md2) :
  0 <= mActiveAnimation m <= 19 ->
  exists a,
    index sAnimations ((mActiveAnimation m + 1) mod 20) = Some a
    /\ NextAnimation m
       = Some (set_animation ((mActiveAnimation m + 1) mod 20)
                             (Float.of_int (_Animation.start a)) m).
Proof.
  intros H. unfold NextAnimation.
  index_cases (mActiveAnimation m) H; eexists; split; reflexivity.
Qed.

Lemma PreviousAnimation_spec (m : Md2) :
  0 <= mActiveAnimation m <= 19 ->
  exists a,
    index sAnimations ((mActiveAnimation m - 1) mod 20) = Some a
    /\ PreviousAnimation m
       = Some (set_animation ((mActiveAnimation m - 1) mod 20)
                             (Float.of_int (_Animation.start a)) m).
Proof.
  intros H. unfold PreviousAnimation.
  index_cases (mActiveAnimation m) H; eexists; split; reflexivity.
Qed.

Lemma start_cursor (a : _Animation.t) :
  well_formed_animation a ->
  cursor_of a (Float.of_int (_Animation.start a)).
Proof.
  intros (Hse & He & _). cbn.
  assert (0 <= inject_Z (_Animation.start a)
          <= inject_Z (_Animation.end_ a))%Q.
  { split.
    - change 0%Q with (inject_Z 0). rewrite <- Zle_Qle. lia.
    - rewrite <- Zle_Qle. lia. }
  assert (inject_Z (_Animation.end_ a) <= 198)%Q.
  { change 198%Q with (inject_Z 198). rewrite <- Zle_Qle. lia. }
  split; [apply frames_in_range|]; lra.
Qed.

Lemma set_animation_playable (m : Md2) (i : Z) (a : _Animation.t) :
  0 <= i <= 19 -> index sAnimations i = Some a ->
  mSpeed m = Float.Finite 1 ->
  playable (set_animation i (Float.of_int (_Animation.start a)) m).
Proof.
  intros Hi Ha Hs. exists a. simpl.
  split; [lia|]. split; [exact Ha|]. split; [|exact Hs].
  apply (start_cursor a), (index_sAnimations _ _ Ha).
Qed.

Lemma NextAnimation_playable (m m' : Md2) :
  playable m -> NextAnimation m = Some m' -> playable m'.
Proof.
  intros (a & Hi & Ha & Hc & Hs) H.
  destruct (NextAnimation_spec m Hi) as (a' & Ha' & E).
  rewrite E in H. injection H as <-.
  apply set_animation_playable; try assumption.
  pose proof (Z.mod_pos_bound (mActiveAnimation m + 1) 20). lia.
Qed.

Lemma PreviousAnimation_playable (m m' : Md2) :
  playable m -> PreviousAnimation m = Some m' -> playable m'.
Proof.
  intros (a & Hi & Ha & Hc & Hs) H.
  destruct (PreviousAnimation_spec m Hi) as (a' & Ha' & E).
  rewrite E in H. injection H as <-.
  apply set_animation_playable; try assumption.
  pose proof (Z.mod_pos_bound (mActiveAnimation m - 1) 20). lia.
Qed.

Lemma Update_playable (dt : float) (m : Md2) :
  playable m ->
  exists m',
    Update dt m = Some m' /\ playable m'
    /\ mActiveAnimation m' = mActiveAnimation m.
Proof.
  intros P. destruct (mIsPlaying m) eqn:Hp.
  - destruct P as (a & Hi & Ha & Hc & Hs).
    rewrite (Update_playing dt m a Hp Ha).
    eexists. split; [reflexivity|]. split; [|reflexivity].
    exists a. simpl. split; [lia|]. split; [exact Ha|].
    split; [|exact Hs].
    rewrite Hs. apply next_cursor_cursor; [|exact Hc].
    exact (index_sAnimations _ _ Ha).
  - rewrite (Update_paused dt m Hp). eauto.
Qed.

Lemma reachable_playable (m : Md2) : reachable m -> playable m.
Proof.
  induction 1 as [|m _ IH|m _ IH|m m' _ IH E|m m' _ IH E|dt m m' _ IH E].
  - exists (_Animation.mk 0 39 (Float.Finite 9)). simpl.
    split; [lia|]. split; [reflexivity|]. split; [|reflexivity].
    split; [apply frames_in_range|]; split; discriminate.
  - exact IH.
  - exact IH.
  - exact (NextAnimation_playable m m' IH E).
  - exact (PreviousAnimation_playable m m' IH E).
  - destruct (Update_playable dt m IH) as (m'' & E' & P & _).
    congruence.
Qed.

Lemma reachable_index (k : nat) :
  (k <= 19)%nat ->
  exists m, reachable m /\ mActiveAnimation m = Z.of_nat k.
Proof.
  induction k as [|k IH]; intros Hk.
  - exists Md2_default. split; [constructor | reflexivity].
  - destruct IH as (m & R & E); [lia|].
    assert (Hi : 0 <= mActiveAnimation m <= 19) by lia.
    destruct (NextAnimation_spec m Hi) as (a & _ & N).
    eexists. split; [exact (reach_Next _ _ R N)|].
    simpl. rewrite E. rewrite Z.mod_small by lia. lia.
Qed.

Lemma next_then_previous_index (i : Z) :
  0 <= i <= 19 -> ((i + 1) mod 20 - 1) mod 20 = i.
Proof. intros H. Z.div_mod_to_equations. lia. Qed.

Lemma previous_then_next_index (i : Z) :
  0 <= i <= 19 -> ((i - 1) mod 20 + 1) mod 20 = i.
Proof. intros H. Z.div_mod_to_equations. lia. Qed.

Lemma mod_20_range (i : Z) : 0 <= i mod 20 <= 19.
Proof. pose proof (Z.mod_pos_bound i 20). lia. Qed.

Lemma Next_Previous (m : Md2) (a : _Animation.t) :
  0 <= mActiveAnimation m <= 19 ->
  index sAnimations (mActiveAnimation m) = Some a ->
  exists m1 m2,
    NextAnimation m = Some m1 /\ PreviousAnimation m1 = Some m2
    /\ mActiveAnimation m2 = mActiveAnimation m
    /\ mActiveFrame m2 = Float.of_int (_Animation.start a).
Proof.
  intros Hi Ha.
  destruct (NextAnimation_spec m Hi) as (a1 & _ & N).
  eexists. 
  destruct (PreviousAnimation_spec
              (set_animation ((mActiveAnimation m + 1) mod 20)
                             (Float.of_int (_Animation.start a1)) m)
              (mod_20_range _)) as (a2 & Ha2 & P).
  eexists. split; [exact N|]. split; [exact P|].
  simpl in *. rewrite (next_then_previous_index _ Hi) in *.
  split; congruence.
Qed.

Lemma Previous_Next (m : Md2) (a : _Animation.t) :
  0 <= mActiveAnimation m <= 19 ->
  index sAnimations (mActiveAnimation m) = Some a ->
  exists m1 m2,
    PreviousAnimation m = Some m1 /\ NextAnimation m1 = Some m2
    /\ mActiveAnimation m2 = mActiveAnimation m
    /\ mActiveFrame m2 = Float.of_int (_Animation.start a).
Proof.
  intros Hi Ha.
  destruct (PreviousAnimation_spec m Hi) as (a1 & _ & P).
  eexists.
  destruct (NextAnimation_spec
              (set_animation ((mActiveAnimation m - 1) mod 20)
                             (Float.of_int (_Animation.start a1)) m)
              (mod_20_range _)) as (a2 & Ha2 & N).
  eexists. split; [exact P|]. split; [exact N|].
  simpl in *. rewrite (previous_then_next_index _ Hi) in *.
  split; congruence.
Qed.

Lemma modf_of_int (z : Z) :
  Float.eq (fst (Float.modf (Float.of_int z))) (Float.Finite 0).
Proof.
  cbn. rewrite trunc_of_int. ring.
Qed.

(** ** Steps of [Update] *)

Section UpdateSteps.

Local Open Scope Q_scope.

Lemma Update_zero (m : Md2) :
  playable m ->
  exists m',
    Update (Float.Finite 0) m = Some m' /\ playable m'
    /\ Float.eq (mActiveFrame m') (mActiveFrame m).
Proof.
  intros P. destruct (Update_playable (Float.Finite 0) m P) as (m' & E & P' & _).
  exists m'. split; [exact E|]. split; [exact P'|].
  destruct (mIsPlaying m) eqn:Hp.
  - destruct P as (a & Hi & Ha & Hc & Hs).
    rewrite (Update_playing _ m a Hp Ha) in E. injection E as <-.
    simpl. rewrite Hs.
    apply next_cursor_zero; [exact (index_sAnimations _ _ Ha) | exact Hc].
  - rewrite (Update_paused _ m Hp) in E. injection E as <-.
    apply eq_refl_float.
Qed.

(** The advanced cursor of a step that [elapsed] allows is in the range. *)
Lemma elapsed_in_range (fps d c : Q) :
  0 < fps <= 10 -> 0 <= d <= inject_Z (2 ^ 124) -> -1 <= c <= 200 ->
  in_range (1 * d) /\ in_range (1 * d * fps)
  /\ in_range (advanced 1 d fps c)
  /\ c <= advanced 1 d fps c.
Proof.
  intros Hf Hd Hc. unfold advanced, in_range.
  pose proof limit_room as R.
  set (L := Float.limit) in *. set (D := inject_Z (2 ^ 124)) in *.
  assert (P : 0 <= d * fps) by (apply Qmult_le_0_compat; lra).
  assert (U : d * fps <= D * 10).
  { apply Qle_trans with (d * 10).
    - setoid_replace (d * fps) with (fps * d) by ring.
      setoid_replace (d * 10) with (10 * d) by ring.
      apply Qmult_le_compat_r; lra.
    - apply Qmult_le_compat_r; lra. }
  assert (E1 : 1 * d == d) by ring.
  rewrite !E1.
  assert (0 <= D * 10) by lra.
  repeat split; lra.
Qed.

Lemma Update_in_sequence (a : _Animation.t) (dt : float) (m : Md2) :
  index sAnimations (mActiveAnimation m) = Some a ->
  in_sequence a m -> mSpeed m = Float.Finite 1 -> elapsed dt ->
  exists m',
    Update dt m = Some m'
    /\ mActiveAnimation m' = mActiveAnimation m
    /\ mSpeed m' = mSpeed m
    /\ in_sequence a m'.
Proof.
  intros Ha (c & Ec & Ic) Hs (d & -> & Hd).
  destruct (mIsPlaying m) eqn:Hp.
  - rewrite (Update_playing _ m a Hp Ha).
    eexists. split; [reflexivity|].
    split; [reflexivity|]. split; [reflexivity|].
    pose proof (index_sAnimations _ _ Ha) as W.
    pose proof W as (Hse & He & (fps & Hf & Pf) & _).
    assert (C0 : -1 <= c <= 200).
    { assert (T0 : (0 <= Float.trunc c)%Z) by lia.
      destruct (Qlt_le_dec c 0) as [N|N].
      - split; [|lra].
        destruct (Qlt_le_dec c (-1)) as [N1|N1]; [|exact N1].
        exfalso.
        pose proof (trunc_mono c (-1) (Qlt_le_weak _ _ N1)) as M.
        change (-1) with (inject_Z (-1)) in M.
        rewrite trunc_of_int in M. lia.
      - destruct (trunc_bounds c N) as [_ U].
        assert (inject_Z (Float.trunc c) <= 198).
        { change 198 with (inject_Z 198). rewrite <- Zle_Qle. lia. }
        lra. }
    destruct (elapsed_in_range fps d c Pf Hd C0) as (R1 & R2 & R3 & G).
    unfold in_sequence. simpl. rewrite Ec, Hs.
    rewrite (next_cursor_finite a W fps d c Hf R1 R2 R3).
    eexists. split; [reflexivity|].
    destruct (Qle_bool _ _) eqn:Q.
    + apply looped_in_sequence; [exact W|]. now apply Qle_bool_iff.
    + assert (N : ~ inject_Z (_Animation.end_ a) <= advanced 1 d fps c).
      { intros L. apply Qle_bool_iff in L. congruence. }
      apply Qnot_le_lt in N.
      pose proof (trunc_mono _ _ G).
      pose proof (trunc_mono _ _ (Qlt_le_weak _ _ N)) as U.
      rewrite trunc_of_int in U. lia.
  - rewrite (Update_paused _ m Hp). exists m.
    split; [reflexivity|]. split; [reflexivity|]. split; [reflexivity|].
    exists c. auto.
Qed.

Lemma Update_overflow (a : _Animation.t) (fps d : Q) (m : Md2) :
  index sAnimations (mActiveAnimation m) = Some a ->
  in_sequence a m -> mSpeed m = Float.Finite 1 ->
  mIsPlaying m = true ->
  _Animation.fps a = Float.Finite fps ->
  Float.limit <= 1 * d * fps ->
  exists m',
    Update (Float.Finite d) m = Some m'
    /\ mActiveFrame m' = Float.NaN.
Proof.
  intros Ha (c & Ec & _) Hs Hp Hf O.
  rewrite (Update_playing _ m a Hp Ha).
  eexists. split; [reflexivity|]. simpl. rewrite Ec, Hs.
  exact (next_cursor_overflow a (index_sAnimations _ _ Ha) fps d c Hf O).
Qed.

End UpdateSteps.

(** ** Switching animations *)

(** Claim C2, as stated, fails: on the second-to-last entry of the table
    (index 19, reached by nineteen [NextAnimation] calls on a new object)
    [NextAnimation] selects the first entry and not the last one, and on the
    first entry [PreviousAnimation] selects index 19 and not the last entry
    (BOOM, index 20). *)
Lemma C2_counterexample :
  NextAnimations 19 Md2_default = Some second_to_last
  /\ mActiveAnimation second_to_last = 19
  /\ ~ (exists m', NextAnimation second_to_last = Some m'
                   /\ mActiveAnimation m' = 20)
  /\ ~ (exists m', PreviousAnimation Md2_default = Some m'
                   /\ mActiveAnimation m' = 20).
Proof.
  split; [reflexivity|]. split; [reflexivity|].
  split; intros (m' & E & I); vm_compute in E; injection E as <-;
    discriminate I.
Qed.

(** Claim C2, amended: on each of the first twenty entries of the animation
    table (indices 0 to 19), [NextAnimation] advances the active index by 1
    and wraps from index 19 to index 0, and [PreviousAnimation] decrements
    it and wraps from index 0 to index 19; both set the frame cursor to the
    start frame of the new active sequence, whose fractional part is zero. *)
Theorem C2_next_previous_cycle_first_twenty (m : Md2) :
  0 <= mActiveAnimation m <= 19 ->
  (exists a m',
      NextAnimation m = Some m'
      /\ mActiveAnimation m' = (mActiveAnimation m + 1) mod 20
      /\ index sAnimations (mActiveAnimation m') = Some a
      /\ mActiveFrame m' = Float.of_int (_Animation.start a)
      /\ Float.eq (fst (Float.modf (mActiveFrame m'))) (Float.Finite 0))
  /\ (exists a m',
         PreviousAnimation m = Some m'
         /\ mActiveAnimation m' = (mActiveAnimation m - 1) mod 20
         /\ index sAnimations (mActiveAnimation m') = Some a
         /\ mActiveFrame m' = Float.of_int (_Animation.start a)
         /\ Float.eq (fst (Float.modf (mActiveFrame m'))) (Float.Finite 0)).
Proof.
  intros Hi. split.
  - destruct (NextAnimation_spec m Hi) as (a & Ha & E).
    exists a. eexists. split; [exact E|]. simpl.
    repeat split; try assumption. apply modf_of_int.
  - destruct (PreviousAnimation_spec m Hi) as (a & Ha & E).
    exists a. eexists. split; [exact E|]. simpl.
    repeat split; try assumption. apply modf_of_int.
Qed.

Lemma C2_witness :
  0 <= mActiveAnimation second_to_last <= 19
  /\ (exists a m',
         NextAnimation second_to_last = Some m'
         /\ mActiveAnimation m' = (mActiveAnimation second_to_last + 1) mod 20
         /\ index sAnimations (mActiveAnimation m') = Some a
         /\ mActiveFrame m' = Float.of_int (_Animation.start a)
         /\ Float.eq (fst (Float.modf (mActiveFrame m'))) (Float.Finite 0)).
Proof.
  split.
  - simpl. lia.
  - apply (C2_next_previous_cycle_first_twenty second_to_last).
    simpl. lia.
Defined.

(** Claim C7: in every playback state reachable from the default state,
    [NextAnimation] followed by [PreviousAnimation], and
    [PreviousAnimation] followed by [NextAnimation], give back the original
    active sequence index, with the frame cursor on the start frame of that
    sequence. *)
Theorem C7_next_previous_inverse (m : Md2) :
  reachable m ->
  exists a,
    index sAnimations (mActiveAnimation m) = Some a
    /\ (exists m1 m2,
           NextAnimation m = Some m1 /\ PreviousAnimation m1 = Some m2
           /\ mActiveAnimation m2 = mActiveAnimation m
           /\ mActiveFrame m2 = Float.of_int (_Animation.start a))
    /\ (exists m1 m2,
           PreviousAnimation m = Some m1 /\ NextAnimation m1 = Some m2
           /\ mActiveAnimation m2 = mActiveAnimation m
           /\ mActiveFrame m2 = Float.of_int (_Animation.start a)).
Proof.
  intros R. destruct (reachable_playable m R) as (a & Hi & Ha & _).
  exists a. split; [exact Ha|]. split.
  - exact (Next_Previous m a Hi Ha).
  - exact (Previous_Next m a Hi Ha).
Qed.

Lemma C7_witness :
  reachable (Play Md2_default)
  /\ exists a,
      index sAnimations (mActiveAnimation (Play Md2_default)) = Some a
      /\ (exists m1 m2,
             NextAnimation (Play Md2_default) = Some m1
             /\ PreviousAnimation m1 = Some m2
             /\ mActiveAnimation m2 = mActiveAnimation (Play Md2_default)
             /\ mActiveFrame m2 = Float.of_int (_Animation.start a))
      /\ (exists m1 m2,
             PreviousAnimation (Play Md2_default) = Some m1
             /\ NextAnimation m1 = Some m2
             /\ mActiveAnimation m2 = mActiveAnimation (Play Md2_default)
             /\ mActiveFrame m2 = Float.of_int (_Animation.start a)).
Proof.
  split.
  - apply reach_Play, reach_default.
  - apply (C7_next_previous_inverse (Play Md2_default)).
    apply reach_Play, reach_default.
Defined.

(** Claim C10: from the default playback state, no sequence of [Play],
    [Pause], [NextAnimation], [PreviousAnimation] and [Update] calls makes
    the active sequence index 20 (BOOM, the last entry of the animation
    table); the reachable indices are exactly 0 to 19. *)
Theorem C10_last_entry_never_active :
  (forall m, reachable m ->
             mActiveAnimation m <> enum ANIMATION_BOOM
             /\ 0 <= mActiveAnimation m <= 19)
  /\ (forall i, 0 <= i <= 19 ->
                exists m, reachable m /\ mActiveAnimation m = i).
Proof.
  split.
  - intros m R. destruct (reachable_playable m R) as (a & Hi & _).
    simpl. lia.
  - intros i Hi.
    destruct (reachable_index (Z.to_nat i)) as (m & R & E); [lia|].
    exists m. split; [exact R | lia].
Qed.

Lemma C10_witness :
  (reachable (Pause Md2_default)
   /\ mActiveAnimation (Pause Md2_default) <> enum ANIMATION_BOOM)
  /\ (0 <= 7 <= 19 /\ exists m, reachable m /\ mActiveAnimation m = 7).
Proof.
  split.
  - split.
    + apply reach_Pause, reach_default.
    + apply (proj1 C10_last_entry_never_active (Pause Md2_default)).
      apply reach_Pause, reach_default.
  - split.
    + lia.
    + apply (proj2 C10_last_entry_never_active 7). lia.
Defined.

(** ** The frame cursor under [Update] *)

(** Claim C3, as stated, fails twice.  One [Update] of 4.375 seconds on a
    new object (playing, STAND: frames 0 to 39 at 9 frames per second)
    leaves the cursor on 39.375, whose integer part is the end frame 39 and
    so lies outside [[start, end)].  And one [Update] of 10^38 seconds, a
    finite [float], takes the increment past the largest [float]: the
    cursor becomes a NaN, which has no integer part. *)
Lemma C3_counterexample :
  mIsPlaying Md2_default = true
  /\ (exists m' a,
         Updates [dt_39_375] Md2_default = Some m'
         /\ index sAnimations (mActiveAnimation m') = Some a
         /\ Float.eq (mActiveFrame m') (Float.Finite 39.375)
         /\ ~ (exists c,
                  mActiveFrame m' = Float.Finite c
                  /\ _Animation.start a <= Float.trunc c
                     < _Animation.end_ a))
  /\ (0 <= inject_Z (10 ^ 38) < Float.limit)%Q
  /\ (exists m',
         Updates [dt_1e38] Md2_default = Some m'
         /\ mActiveFrame m' = Float.NaN
         /\ ~ (exists c, mActiveFrame m' = Float.Finite c)).
Proof.
  split; [reflexivity|]. split; [|split].
  - eexists. eexists. split; [vm_compute; reflexivity|].
    split; [reflexivity|]. split; [reflexivity|].
    intros (c & E & H). injection E as <-. vm_compute in H.
    destruct H as [_ H]. discriminate H.
  - split; [discriminate | reflexivity].
  - eexists. split; [vm_compute; reflexivity|].
    split; [reflexivity|]. intros (c & E). discriminate E.
Qed.

(** Claim C3, amended: for every playback state of speed 1 whose cursor is
    finite with its integer part among the frames of the active sequence,
    after any finite sequence of [Update(dt)] calls, each with a finite
    [dt] from 0 to 2^124, the cursor is finite and its integer part lies in
    the closed interval [[sequence.start, sequence.end]]: the wrap brings
    the cursor back onto a frame of the sequence, the end frame included,
    whatever the number of laps of the step.  A step whose increment
    [dt * fps] is past the largest [float] makes the cursor a NaN. *)
Theorem C3_cursor_stays_in_sequence (m : Md2) (a : _Animation.t) :
  index sAnimations (mActiveAnimation m) = Some a ->
  in_sequence a m ->
  mSpeed m = Float.Finite 1 ->
  (forall dts,
      Forall elapsed dts ->
      exists m' c,
        Updates dts m = Some m'
        /\ mActiveAnimation m' = mActiveAnimation m
        /\ mActiveFrame m' = Float.Finite c
        /\ _Animation.start a <= Float.trunc c <= _Animation.end_ a)
  /\ (forall d fps,
         mIsPlaying m = true ->
         _Animation.fps a = Float.Finite fps ->
         (Float.limit <= d * fps)%Q ->
         exists m',
           Update (Float.Finite d) m = Some m'
           /\ mActiveFrame m' = Float.NaN).
Proof.
  intros Ha I Hs. split.
  - intros dts Hd. revert m Ha I Hs.
    induction Hd as [|dt dts Hdt _ IH]; intros m Ha I Hs.
    + destruct I as (c & Ec & Ic). exists m, c. simpl. auto.
    + destruct (Update_in_sequence a dt m Ha I Hs Hdt)
        as (m1 & E & Ei & Es & I1).
      destruct (IH m1) as (m' & c & E' & Ei' & Ec' & I'); try congruence.
      exists m', c. simpl. rewrite E. simpl. split; [exact E'|].
      split; [congruence|]. split; [exact Ec' | exact I'].
  - intros d fps Hp Hf O.
    apply (Update_overflow a fps d m Ha I Hs Hp Hf).
    now rewrite Qmult_1_l.
Qed.

Lemma C3_witness :
  index sAnimations (mActiveAnimation Md2_default)
  = Some (_Animation.mk 0 39 (Float.Finite 9))
  /\ in_sequence (_Animation.mk 0 39 (Float.Finite 9)) Md2_default
  /\ mSpeed Md2_default = Float.Finite 1
  /\ Forall elapsed [dt_39_375; Float.Finite 100]
  /\ (exists m' c,
         Updates [dt_39_375; Float.Finite 100] Md2_default = Some m'
         /\ mActiveAnimation m' = mActiveAnimation Md2_default
         /\ mActiveFrame m' = Float.Finite c
         /\ 0 <= Float.trunc c <= 39)
  /\ (Float.limit <= inject_Z (10 ^ 38) * 9)%Q
  /\ (exists m',
         Update dt_1e38 Md2_default = Some m'
         /\ mActiveFrame m' = Float.NaN).
Proof.
  assert (H1 : index sAnimations (mActiveAnimation Md2_default)
               = Some (_Animation.mk 0 39 (Float.Finite 9))) by reflexivity.
  assert (H2 : in_sequence (_Animation.mk 0 39 (Float.Finite 9)) Md2_default).
  { exists 0%Q. split; [reflexivity|]. vm_compute. split; discriminate. }
  assert (H3 : mSpeed Md2_default = Float.Finite 1) by reflexivity.
  assert (H4 : Forall elapsed [dt_39_375; Float.Finite 100]).
  { repeat constructor.
    - exists 4.375%Q. split; [reflexivity|]. split; discriminate.
    - exists 100%Q. split; [reflexivity|]. split; discriminate. }
  assert (H5 : (Float.limit <= inject_Z (10 ^ 38) * 9)%Q)
    by (vm_compute; discriminate).
  split; [exact H1|]. split; [exact H2|]. split; [exact H3|].
  split; [exact H4|].
  destruct (C3_cursor_stays_in_sequence Md2_default _ H1 H2 H3) as [A B].
  split; [exact (A _ H4)|]. split; [exact H5|].
  exact (B (inject_Z (10 ^ 38)) 9%Q eq_refl eq_refl H5).
Defined.

(** Claim C8: in every reachable playback state, any number of [Update(0)]
    calls leaves the frame cursor unchanged, whether or not the looping
    branch is entered. *)
Theorem C8_update_zero_keeps_cursor (m : Md2) (k : nat) :
  reachable m ->
  exists m',
    Updates (repeat (Float.Finite 0) k) m = Some m'
    /\ Float.eq (mActiveFrame m') (mActiveFrame m).
Proof.
  intros R. apply reachable_playable in R. revert m R.
  induction k as [|k IH]; intros m P.
  - exists m. split; [reflexivity | apply eq_refl_float].
  - destruct (Update_zero m P) as (m1 & E & P1 & C1).
    destruct (IH m1 P1) as (m' & E' & C').
    exists m'. simpl. rewrite E. simpl. split; [exact E'|].
    exact (eq_trans_float _ _ _ C' C1).
Qed.

Lemma C8_witness :
  reachable Md2_default
  /\ exists m',
      Updates (repeat (Float.Finite 0) 3) Md2_default = Some m'
      /\ Float.eq (mActiveFrame m') (mActiveFrame Md2_default).
Proof.
  split.
  - apply reach_default.
  - apply (C8_update_zero_keeps_cursor Md2_default 3). apply reach_default.
Defined.
(** ** Loading *)

Lemma records_length (k n : nat) (bs : list byte) :
  length (records k n bs) = n.
Proof.
  revert bs. induction n as [|n IH]; intros bs; cbn [records length].
  - reflexivity.
  - now rewrite IH.
Qed.

Lemma read_section_length (indeterminate : nat -> byte)
    (off : Z) (size n : nat) (f : ifstream.t) :
  length (fst (read_section indeterminate off size n f)) = n.
Proof.
  unfold read_section.
  destruct (ifstream.read _ _ _) as [bytes f']. cbn [fst].
  apply records_length.
Qed.

Lemma read_frames_shape (indeterminate : nat -> byte)
    (float_of_bits : Z -> float) (n vertexCnt : nat) :
  forall f : ifstream.t,
    let frames :=
      fst (read_frames indeterminate float_of_bits n vertexCnt f) in
    length frames = n
    /\ Forall (fun frame =>
                 exists vs, _Frame.vertices frame = Some vs
                            /\ length vs = vertexCnt) frames.
Proof.
  induction n as [|n IH]; intros f; cbn [read_frames].
  - cbn. split; [reflexivity | constructor].
  - destruct (ifstream.read _ _ f) as [sc f1].
    destruct (ifstream.read _ _ f1) as [tl f2].
    destruct (ifstream.read _ _ f2) as [nm f3].
    destruct (ifstream.read _ _ f3) as [vs f4].
    specialize (IH f4).
    destruct (read_frames indeterminate float_of_bits n vertexCnt f4)
      as [frames f5].
    cbn [fst length] in *. destruct IH as [L F]. split.
    + now rewrite L.
    + constructor; [|exact F]. cbn [_Frame.vertices].
      eexists. split; [reflexivity|].
      rewrite length_map. apply records_length.
Qed.

(** ** Clearing *)

Lemma _Clear_Some (m m0 : Md2) :
  _Clear m = Some m0 ->
  delete_frames (mFrames m) = true
  /\ mSkins m0 = None /\ mTexCoords m0 = None
  /\ mTriangles m0 = None /\ mFrames m0 = None
  /\ mActiveAnimation m0 = mActiveAnimation m
  /\ mActiveFrame m0 = mActiveFrame m
  /\ mSpeed m0 = mSpeed m
  /\ mIsPlaying m0 = mIsPlaying m.
Proof.
  unfold _Clear. destruct (delete_frames (mFrames m)); [|discriminate].
  intros [= <-]. cbn. auto 10.
Qed.

(** The frames that [Load] allocates cannot be deleted before their
    vertices are allocated. *)
Lemma delete_frames_uninitialized (indeterminate : nat -> byte)
    (float_of_bits : Z -> float) (n : nat) :
  (0 < n)%nat ->
  delete_frames
    (Some (repeat (uninitialized_Frame indeterminate float_of_bits) n))
  = false.
Proof.
  intros H. destruct n as [|n]; [lia|]. reflexivity.
Qed.

Lemma delete_frames_read (frames : list _Frame.t) (k : nat) :
  Forall (fun frame =>
            exists vs, _Frame.vertices frame = Some vs
                       /\ length vs = k) frames ->
  delete_frames (Some frames) = true.
Proof.
  intros F. cbn. apply forallb_forall. intros fr I.
  destruct (proj1 (Forall_forall _ _) F fr I) as (vs & E & _).
  now rewrite E.
Qed.

Section LoadFacts.

Variable fs : string -> option (list byte).
Variable indeterminate : nat -> byte.
Variable float_of_bits : Z -> float.

Local Abbreviation load := (Load_cleared fs indeterminate float_of_bits).
Local Abbreviation header := (header_of indeterminate).

Ltac step_Load :=
  match goal with
  | |- context [if negb ?c then _ else _] => destruct c eqn:?; cbn [negb]
  | |- context [if ?c then _ else _] => destruct c eqn:?
  | |- context [read_section ?i ?o ?s ?n ?f] =>
      let L := fresh "L" in
      pose proof (read_section_length i o s n f) as L;
      destruct (read_section i o s n f)
  | |- context [read_frames ?i ?b ?n ?v ?f] =>
      let S := fresh "S" in
      pose proof (read_frames_shape i b n v f) as S;
      destruct (read_frames i b n v f)
  end.

Ltac open_Load bytes H :=
  unfold Load_cleared, header_of;
  rewrite H; cbn [ifstream.open ifstream.failbit];
  destruct (ifstream.read sizeof_Md2Header _ _) as [raw stream];
  cbn [fst]; generalize (decode_header raw); intros h.

Lemma Load_not_found (filename : string) (m : Md2) :
  fs filename = None ->
  load filename m = (m, Some (_FileNotFoundException filename)).
Proof.
  intros H. unfold Load_cleared. now rewrite H.
Qed.

(** The exception that [Load] throws is decided by the header. *)
Lemma Load_kind (filename : string) (m : Md2) (bytes : list byte) :
  fs filename = Some bytes ->
  option_map kind (snd (load filename m)) = checks (header bytes).
Proof.
  intros H. open_Load bytes H. unfold checks.
  repeat (step_Load; cbn -[Int.int16_t Z.eqb Z.ltb] in * ; try reflexivity;
          try congruence).
Qed.

(** Before the counts are saved, a failing [Load] has only cleared. *)
Lemma Load_early (filename : string) (m : Md2) (e : Md2Exception) :
  snd (load filename m) = Some e ->
  kind e = NotFound \/ kind e = BadIdent \/ kind e = BadVersion ->
  fst (load filename m) = m.
Proof.
  intros E K. destruct (fs filename) as [bytes|] eqn:H.
  - revert E. open_Load bytes H.
    repeat (step_Load; cbn -[Int.int16_t Z.eqb Z.ltb] in * );
      intros E; try reflexivity; try discriminate E;
      injection E as <-; cbn in K;
      destruct K as [K|[K|K]]; discriminate K.
  - now rewrite (Load_not_found _ _ H).
Qed.

(** Once the header is accepted, its counts and dimensions are in the
    object, whatever happens next. *)
Lemma Load_saved (filename : string) (m : Md2) (bytes : list byte) :
  fs filename = Some bytes ->
  ident (header bytes) = IDP2 ->
  version (header bytes) = 8 ->
  let h := header bytes in
  let m' := fst (load filename m) in
  mSkinCnt m' = Int.int16_t (skinCnt h)
  /\ mTexCoordCnt m' = Int.int16_t (texCoordCnt h)
  /\ mTriangleCnt m' = Int.int16_t (triangleCnt h)
  /\ mFrameCnt m' = Int.int16_t (frameCnt h)
  /\ mVertexCnt m' = Int.int16_t (vertexCnt h)
  /\ mSkinWidth m' = Int.int16_t (skinWidth h)
  /\ mSkinHeight m' = Int.int16_t (skinHeight h).
Proof.
  intros H. open_Load bytes H. intros Hi Hv.
  apply Z.eqb_eq in Hi, Hv. rewrite Hi, Hv. cbn [negb].
  repeat (step_Load; cbn -[Int.int16_t Z.eqb Z.ltb] in * );
    repeat split; reflexivity.
Qed.

Lemma Load_playback (filename : string) (m : Md2) :
  let m' := fst (load filename m) in
  mActiveAnimation m' = mActiveAnimation m
  /\ mActiveFrame m' = mActiveFrame m
  /\ mSpeed m' = mSpeed m
  /\ mIsPlaying m' = mIsPlaying m.
Proof.
  destruct (fs filename) as [bytes|] eqn:H.
  - open_Load bytes H.
    repeat (step_Load; cbn -[Int.int16_t Z.eqb Z.ltb] in * );
      repeat split; reflexivity.
  - cbn zeta. now rewrite (Load_not_found _ _ H).
Qed.

(** The arrays of the object after [Load], on an object that held none:
    the skins and the texture coordinates are there when their count is
    positive; the triangles once the triangle count is accepted; the
    frames once the frame count is accepted, and their vertices once the
    vertex count is. *)
Lemma Load_arrays (filename : string) (m : Md2) (bytes : list byte) :
  fs filename = Some bytes ->
  mSkins m = None -> mTexCoords m = None ->
  mTriangles m = None -> mFrames m = None ->
  ident (header bytes) = IDP2 ->
  version (header bytes) = 8 ->
  let r := load filename m in
  (if 0 <? mSkinCnt (fst r)
   then exists skins,
       mSkins (fst r) = Some skins
       /\ Z.of_nat (length skins) = mSkinCnt (fst r)
   else mSkins (fst r) = None)
  /\ (if 0 <? mTexCoordCnt (fst r)
      then exists texcoords,
          mTexCoords (fst r) = Some texcoords
          /\ Z.of_nat (length texcoords) = mTexCoordCnt (fst r)
      else mTexCoords (fst r) = None)
  /\ match option_map kind (snd r) with
     | Some BadTriangleData =>
         mTriangles (fst r) = None /\ mFrames (fst r) = None
     | Some BadFrameData =>
         (exists triangles,
             mTriangles (fst r) = Some triangles
             /\ Z.of_nat (length triangles) = mTriangleCnt (fst r))
         /\ mFrames (fst r) = None
     | Some BadVertexData =>
         (exists triangles,
             mTriangles (fst r) = Some triangles
             /\ Z.of_nat (length triangles) = mTriangleCnt (fst r))
         /\ mFrames (fst r)
            = Some (repeat (uninitialized_Frame indeterminate float_of_bits)
                           198)
     | None =>
         (exists triangles,
             mTriangles (fst r) = Some triangles
             /\ Z.of_nat (length triangles) = mTriangleCnt (fst r))
         /\ (exists frames,
                mFrames (fst r) = Some frames
                /\ Z.of_nat (length frames) = mFrameCnt (fst r)
                /\ Forall (fun frame =>
                             exists vs,
                               _Frame.vertices frame = Some vs
                               /\ Z.of_nat (length vs) = mVertexCnt (fst r))
                          frames)
     | _ => False
     end.
Proof.
  intros H M1 M2 M3 M4. open_Load bytes H. intros Hi Hv.
  apply Z.eqb_eq in Hi, Hv. rewrite Hi, Hv. cbn [negb].
  repeat (step_Load; cbn -[Int.int16_t Z.eqb Z.ltb repeat] in * );
    repeat match goal with
           | B : (_ <? _) = true |- _ => apply Z.ltb_lt in B
           | B : (_ <? _) = false |- _ => apply Z.ltb_ge in B
           | B : (_ =? _) = true |- _ => apply Z.eqb_eq in B
           | S : _ /\ _ |- _ => destruct S
           end;
    try (exfalso; lia);
    repeat match goal with
           | |- _ /\ _ => split
           | |- exists _, Some ?x = Some _ /\ _ =>
               exists x; split; [reflexivity|]
           | |- Some _ = Some _ => try reflexivity
           | |- None = None => reflexivity
           end;
    rewrite ?length_map; try lia; try assumption;
    try (match goal with B : 198 = _ |- _ => rewrite <- B end; reflexivity);
    try (eapply Forall_impl; [|eassumption];
         intros frame (vs & V1 & V2); exists vs; split; [exact V1 | lia]).
Qed.

End LoadFacts.

Lemma checks_None (h : _Md2Header) :
  checks h = None ->
  ident h = IDP2 /\ version h = 8
  /\ 0 < Int.int16_t (triangleCnt h)
  /\ Int.int16_t (frameCnt h) = 198
  /\ 0 < Int.int16_t (vertexCnt h).
Proof.
  unfold checks.
  destruct (ident h =? IDP2) eqn:E1; [|discriminate].
  destruct (version h =? 8) eqn:E2; [|discriminate].
  destruct (0 <? Int.int16_t (triangleCnt h)) eqn:E3; [|discriminate].
  destruct (198 =? Int.int16_t (frameCnt h)) eqn:E4; [|discriminate].
  destruct (0 <? Int.int16_t (vertexCnt h)) eqn:E5; [|discriminate].
  intros _. apply Z.eqb_eq in E1, E2, E4. apply Z.ltb_lt in E3, E5.
  repeat split; congruence.
Qed.

Lemma checks_late (h : _Md2Header) (k : ErrorKind) :
  checks h = Some k ->
  k = BadTriangleData \/ k = BadFrameData \/ k = BadVertexData ->
  ident h = IDP2 /\ version h = 8.
Proof.
  unfold checks.
  destruct (ident h =? IDP2) eqn:E1; cbn [negb].
  - destruct (version h =? 8) eqn:E2; cbn [negb].
    + intros _ _. apply Z.eqb_eq in E1, E2. now split.
    + intros [= <-] [K|[K|K]]; discriminate K.
  - intros [= <-] [K|[K|K]]; discriminate K.
Qed.

Lemma checks_frames (h : _Md2Header) :
  ident h = IDP2 -> version h = 8 -> 0 < Int.int16_t (triangleCnt h) ->
  (checks h = Some BadFrameData <-> Int.int16_t (frameCnt h) <> 198).
Proof.
  intros E1 E2 E3. unfold checks.
  apply Z.eqb_eq in E1, E2. apply Z.ltb_lt in E3.
  rewrite E1, E2, E3. cbn [negb].
  destruct (198 =? Int.int16_t (frameCnt h)) eqn:E4; cbn [negb].
  - apply Z.eqb_eq in E4. split.
    + destruct (negb _); intros D; discriminate D.
    + intros N. congruence.
  - apply Z.eqb_neq in E4. split; [congruence | reflexivity].
Qed.

(** What [Load] returns when it is defined. *)
Lemma Load_Some
    (fs : string -> option (list byte)) (indeterminate : nat -> byte)
    (float_of_bits : Z -> float)
    (filename : string) (m : Md2) (r : Md2 * option Md2Exception) :
  Load fs indeterminate float_of_bits filename m = Some r ->
  exists m0,
    _Clear m = Some m0
    /\ r = Load_cleared fs indeterminate float_of_bits filename m0.
Proof.
  unfold Load. destruct (_Clear m) as [m0|]; [|discriminate].
  cbn [bind]. intros [= <-]. exists m0. auto.
Qed.

Lemma Load_of_Clear
    (fs : string -> option (list byte)) (indeterminate : nat -> byte)
    (float_of_bits : Z -> float)
    (filename : string) (m m0 : Md2) :
  _Clear m = Some m0 ->
  Load fs indeterminate float_of_bits filename m
  = Some (Load_cleared fs indeterminate float_of_bits filename m0).
Proof. intros E. unfold Load. now rewrite E. Qed.

Lemma _Clear_default : _Clear Md2_default = Some Md2_default.
Proof. reflexivity. Qed.

(** ** The magic number and the version number *)

Lemma byte_value_range (b : byte) : 0 <= byte_value b <= 255.
Proof. destruct b; vm_compute; split; discriminate. Qed.

Lemma byte_value_inj (b b' : byte) : byte_value b = byte_value b' -> b = b'.
Proof.
  unfold byte_value. intros H. apply N2Z.inj in H.
  assert (S : Some b = Some b')
    by (rewrite <- (Byte.of_to_N b), <- (Byte.of_to_N b'); now rewrite H).
  now injection S.
Qed.

(** A 32-bit field holds the value [v], from 0 to 2^31 - 1, exactly when
    its four bytes are the little-endian digits of [v]. *)
Lemma int32_bytes (v : Z) (b0 b1 b2 b3 : byte) :
  0 <= v < 2147483648 ->
  (Int.int32_t (little_endian [b0; b1; b2; b3]) = v
   <-> byte_value b0 = v mod 256
       /\ byte_value b1 = (v / 256) mod 256
       /\ byte_value b2 = (v / 65536) mod 256
       /\ byte_value b3 = v / 16777216).
Proof.
  intros Hv.
  pose proof (byte_value_range b0). pose proof (byte_value_range b1).
  pose proof (byte_value_range b2). pose proof (byte_value_range b3).
  cbn [little_endian]. unfold Int.int32_t, Int.wrap_signed.
  change (2 ^ (32 - 1)) with 2147483648.
  change (2 ^ 32) with 4294967296.
  split.
  - intros E. repeat split; Z.div_mod_to_equations; lia.
  - intros (E0 & E1 & E2 & E3). Z.div_mod_to_equations. lia.
Qed.

(** The magic number is "IDP2", the first character in the low byte. *)
Lemma IDP2_bytes (b0 b1 b2 b3 : byte) :
  Int.int32_t (little_endian [b0; b1; b2; b3]) = IDP2
  <-> [b0; b1; b2; b3] = ["I"; "D"; "P"; "2"]%byte.
Proof.
  change IDP2 with 844121161.
  rewrite (int32_bytes 844121161) by lia.
  change (844121161 mod 256) with (byte_value "I").
  change ((844121161 / 256) mod 256) with (byte_value "D").
  change ((844121161 / 65536) mod 256) with (byte_value "P").
  change (844121161 / 16777216) with (byte_value "2").
  split.
  - intros (E0 & E1 & E2 & E3).
    apply byte_value_inj in E0, E1, E2, E3. congruence.
  - intros [= -> -> -> ->]. repeat split.
Qed.

(** The version is 8 exactly when the field holds the bytes 8, 0, 0, 0. *)
Lemma version_bytes (b4 b5 b6 b7 : byte) :
  Int.int32_t (little_endian [b4; b5; b6; b7]) = 8
  <-> [b4; b5; b6; b7] = [x08; x00; x00; x00]%byte.
Proof.
  rewrite (int32_bytes 8) by lia.
  change (8 mod 256) with (byte_value x08).
  change ((8 / 256) mod 256) with (byte_value x00).
  change ((8 / 65536) mod 256) with (byte_value x00).
  change (8 / 16777216) with (byte_value x00).
  split.
  - intros (E0 & E1 & E2 & E3).
    apply byte_value_inj in E0, E1, E2, E3. congruence.
  - intros [= -> -> -> ->]. repeat split.
Qed.

Lemma header_of_ident (indeterminate : nat -> byte)
    (b0 b1 b2 b3 : byte) (rest : list byte) :
  ident (header_of indeterminate (b0 :: b1 :: b2 :: b3 :: rest))
  = Int.int32_t (little_endian [b0; b1; b2; b3]).
Proof. reflexivity. Qed.

Lemma header_of_version (indeterminate : nat -> byte)
    (b0 b1 b2 b3 b4 b5 b6 b7 : byte) (rest : list byte) :
  version (header_of indeterminate
             (b0 :: b1 :: b2 :: b3 :: b4 :: b5 :: b6 :: b7 :: rest))
  = Int.int32_t (little_endian [b4; b5; b6; b7]).
Proof. reflexivity. Qed.

(** ** The frame count *)

(** Claim C1, as stated, fails: a file that opens, has the magic number,
    version 8, one triangle and a frame count of exactly 199 fails with
    [BadFrameData]. *)
Lemma C1_counterexample :
  let bytes := one_triangle 0 3 199 in
  let h := header_of zeros bytes in
  exists r,
    Load files zeros binary32 "frames199.md2" Md2_default = Some r
    /\ let thrown := option_map kind (snd r) in
       files "frames199.md2" = Some bytes
       /\ ident h = IDP2 /\ version h = 8 /\ 0 < triangleCnt h
       /\ frameCnt h = 199
       /\ thrown = Some BadFrameData
       /\ ~ (thrown = Some BadFrameData <-> frameCnt h <> 199).
Proof.
  cbv zeta. eexists. split; [apply Load_of_Clear, _Clear_default|].
  do 5 (split; [vm_compute; reflexivity|]).
  assert (E : option_map kind
                (snd (Load_cleared files zeros binary32 "frames199.md2"
                                   Md2_default))
              = Some BadFrameData) by (vm_compute; reflexivity).
  split; [exact E|].
  intros [I _]. apply I; [exact E | reflexivity].
Qed.

(** Claim C1, amended: for every file that opens and passes the
    magic-number, version and triangle-count checks, [Load] on an object
    that can be cleared returns or throws, and fails with
    [BadFrameData] if and only if the frame-count field, narrowed to the
    16-bit member that stores it, differs from 198 (the frames 0 to 197 of
    the twenty sequences that can be played); in particular a frame count of
    exactly 198 does not fail with [BadFrameData], and one of 199 does. *)
Theorem C1_bad_frame_data_iff_not_198
    (fs : string -> option (list byte)) (indeterminate : nat -> byte)
    (float_of_bits : Z -> float)
    (filename : string) (m : Md2) (bytes : list byte) :
  fs filename = Some bytes ->
  _Clear m <> None ->
  let h := header_of indeterminate bytes in
  ident h = IDP2 -> version h = 8 -> 0 < Int.int16_t (triangleCnt h) ->
  exists r,
    Load fs indeterminate float_of_bits filename m = Some r
    /\ let thrown := option_map kind (snd r) in
       (thrown = Some BadFrameData <-> Int.int16_t (frameCnt h) <> 198)
       /\ (frameCnt h = 198 -> thrown <> Some BadFrameData)
       /\ (frameCnt h = 199 -> thrown = Some BadFrameData).
Proof.
  intros H C h E1 E2 E3.
  destruct (_Clear m) as [m0|] eqn:Cm; [clear C | contradiction].
  exists (Load_cleared fs indeterminate float_of_bits filename m0).
  split; [apply Load_of_Clear; exact Cm|]. cbv zeta.
  rewrite (Load_kind fs indeterminate float_of_bits filename m0 bytes H).
  pose proof (checks_frames h E1 E2 E3) as F. fold h.
  split; [exact F|]. split.
  - intros E T. apply F in T. apply T. rewrite E. reflexivity.
  - intros E. apply F. rewrite E. discriminate.
Qed.

Lemma C1_witness :
  let bytes := one_triangle 0 3 198 in
  let h := header_of zeros bytes in
  files "frames198.md2" = Some bytes
  /\ _Clear Md2_default <> None
  /\ ident h = IDP2 /\ version h = 8 /\ 0 < Int.int16_t (triangleCnt h)
  /\ exists r,
      Load files zeros binary32 "frames198.md2" Md2_default = Some r
      /\ let thrown := option_map kind (snd r) in
         (thrown = Some BadFrameData <-> Int.int16_t (frameCnt h) <> 198)
         /\ (frameCnt h = 198 -> thrown <> Some BadFrameData)
         /\ (frameCnt h = 199 -> thrown = Some BadFrameData).
Proof.
  cbv zeta.
  assert (C : _Clear Md2_default <> None)
    by (rewrite _Clear_default; discriminate).
  split; [reflexivity|]. split; [exact C|].
  do 3 (split; [vm_compute; reflexivity|]).
  apply (C1_bad_frame_data_iff_not_198
           files zeros binary32 "frames198.md2" Md2_default
           (one_triangle 0 3 198) eq_refl C);
    vm_compute; reflexivity.
Defined.

(** ** The object after a failed load *)




(** ** The counts of a loaded model *)

Lemma int16_t_small (z : Z) : -32768 <= z <= 32767 -> Int.int16_t z = z.
Proof.
  intros H. unfold Int.int16_t, Int.wrap_signed.
  change (2 ^ (16 - 1)) with 32768. change (2 ^ 16) with 65536.
  rewrite Z.mod_small by lia. lia.
Qed.

(** Claim C5, as stated, fails: a complete file whose header carries -5
    skins and -3 texture coordinates loads without error, and [SkinCount]
    and [TexCoordCount] then return these negative numbers. *)
Lemma C5_counterexample :
  exists r,
    Load files zeros binary32 "negative.md2" Md2_default = Some r
    /\ snd r = None
    /\ SkinCount (fst r) = -5 /\ TexCoordCount (fst r) = -3
    /\ ~ (0 <= SkinCount (fst r)) /\ ~ (0 <= TexCoordCount (fst r)).
Proof.
  eexists. split; [apply Load_of_Clear, _Clear_default|].
  assert (S : SkinCount
                (fst (Load_cleared files zeros binary32 "negative.md2"
                                   Md2_default))
              = -5) by (vm_compute; reflexivity).
  assert (T : TexCoordCount
                (fst (Load_cleared files zeros binary32 "negative.md2"
                                   Md2_default))
              = -3) by (vm_compute; reflexivity).
  split; [vm_compute; reflexivity|].
  rewrite S, T. repeat split; lia.
Qed.

(** Claim C5, amended: for every successfully loaded model, [FrameCount] is
    198, and [TriangleCount] and [VertexCount] are positive; [SkinCount] and
    [TexCoordCount] are not checked: each is the count of the header
    narrowed to the 16-bit member, so that a count of the header from
    -32768 to -1 comes back as it is, negative, while one outside the
    16-bit range wraps (-65535 comes back as 1, -65533 as 3). *)
Theorem C5_counts_of_loaded_model
    (fs : string -> option (list byte)) (indeterminate : nat -> byte)
    (float_of_bits : Z -> float)
    (filename : string) (m : Md2) (r : Md2 * option Md2Exception) :
  Load fs indeterminate float_of_bits filename m = Some r ->
  snd r = None ->
  0 <= FrameCount (fst r) /\ FrameCount (fst r) = 198
  /\ 0 < TriangleCount (fst r) /\ 0 < VertexCount (fst r)
  /\ exists bytes,
      fs filename = Some bytes
      /\ let h := header_of indeterminate bytes in
         SkinCount (fst r) = Int.int16_t (skinCnt h)
         /\ TexCoordCount (fst r) = Int.int16_t (texCoordCnt h)
         /\ (-32768 <= skinCnt h < 0 ->
             SkinCount (fst r) = skinCnt h /\ SkinCount (fst r) < 0)
         /\ (-32768 <= texCoordCnt h < 0 ->
             TexCoordCount (fst r) = texCoordCnt h
             /\ TexCoordCount (fst r) < 0)
         /\ (skinCnt h = -65535 -> SkinCount (fst r) = 1)
         /\ (texCoordCnt h = -65533 -> TexCoordCount (fst r) = 3).
Proof.
  intros L E. destruct (Load_Some _ _ _ _ _ _ L) as (m0 & _ & ->).
  destruct (fs filename) as [bytes|] eqn:H.
  - pose proof (Load_kind fs indeterminate float_of_bits filename m0 bytes H)
      as C.
    rewrite E in C. cbn [option_map] in C.
    destruct (checks_None _ (eq_sym C)) as (E1 & E2 & E3 & E4 & E5).
    destruct (Load_saved fs indeterminate float_of_bits filename m0 bytes
                         H E1 E2) as (S1 & S2 & S3 & S4 & S5 & _).
    unfold FrameCount, TriangleCount, VertexCount, SkinCount, TexCoordCount.
    cbv zeta in *. rewrite S3, S4, S5.
    split; [lia|]. split; [lia|]. split; [lia|]. split; [lia|].
    exists bytes. split; [reflexivity|].
    split; [exact S1|]. split; [exact S2|]. split; [|split; [|split]].
    + intros R. rewrite S1, int16_t_small by lia. lia.
    + intros R. rewrite S2, int16_t_small by lia. lia.
    + intros R. rewrite S1, R. reflexivity.
    + intros R. rewrite S2, R. reflexivity.
  - rewrite (Load_not_found _ _ _ _ _ H) in E. discriminate E.
Qed.

Lemma C5_witness :
  let r := Load_cleared files zeros binary32 "negative.md2" Md2_default in
  Load files zeros binary32 "negative.md2" Md2_default = Some r
  /\ snd r = None
  /\ FrameCount (fst r) = 198
  /\ 0 < TriangleCount (fst r) /\ 0 < VertexCount (fst r)
  /\ SkinCount (fst r) < 0 /\ TexCoordCount (fst r) < 0.
Proof.
  cbv zeta.
  assert (L : Load files zeros binary32 "negative.md2" Md2_default
              = Some (Load_cleared files zeros binary32 "negative.md2"
                                   Md2_default))
    by (apply Load_of_Clear, _Clear_default).
  assert (E : snd (Load_cleared files zeros binary32 "negative.md2"
                                Md2_default)
              = None) by (vm_compute; reflexivity).
  split; [exact L|]. split; [exact E|].
  destruct (C5_counts_of_loaded_model
              files zeros binary32 "negative.md2" Md2_default _ L E)
    as (_ & A & B & C & bytes & Hb & D).
  injection Hb as <-. cbv zeta in D.
  destruct D as (_ & _ & S & T & _).
  split; [exact A|]. split; [exact B|]. split; [exact C|]. split.
  - apply S. vm_compute. split; [discriminate | reflexivity].
  - apply T. vm_compute. split; [discriminate | reflexivity].
Defined.

(** ** The magic number and the version *)




(** ** Generated vertices *)

Lemma for_app {St : Type} (n1 n2 : nat) (body : Z -> St -> option St) :
  forall (i : Z) (s : St),
    for_ (n1 + n2) i body s
    = (s' <- for_ n1 i body s ;; for_ n2 (i + Z.of_nat n1) body s').
Proof.
  induction n1 as [|n1 IH]; intros i s.
  - cbn [for_ bind Nat.add]. now rewrite Z.add_0_r.
  - cbn [for_ Nat.add]. destruct (body i s) as [s1|]; [|reflexivity].
    cbn [bind]. rewrite IH.
    replace (i + 1 + Z.of_nat n1) with (i + Z.of_nat (S n1)) by lia.
    reflexivity.
Qed.

Section Generation.

Variable m : Md2.
Variables activeFrameIdx nextFrame : Z.
Variables oneMinusLerp lerp : float.

Local Abbreviation corner_of := (set_pointers m activeFrameIdx nextFrame).
Local Abbreviation record_of := (gen_vertex m oneMinusLerp lerp).
Local Abbreviation triangle :=
  (gen_triangle m activeFrameIdx nextFrame oneMinusLerp lerp).

Lemma uint16_small (z : Z) : 0 <= z < 65536 -> Int.uint16_t z = z.
Proof.
  intros H. unfold Int.uint16_t, Int.wrap_unsigned.
  change (2 ^ 16) with 65536. now apply Z.mod_small.
Qed.

Lemma store_same (b : buffer) (k : Z) (v : Vertex.t) : store b k v k = v.
Proof. unfold store. now rewrite Z.eqb_refl. Qed.

Lemma store_other (b : buffer) (k k' : Z) (v : Vertex.t) :
  k' <> k -> store b k v k' = b k'.
Proof.
  intros H. unfold store. apply Z.eqb_neq in H. now rewrite H.
Qed.

(** One triangle: three records, at [3i], [3i+1] and [3i+2]. *)
Lemma triangle_records (i : Z) (s : buffer) :
  0 <= i -> i * 3 + 3 <= 65536 ->
  (forall j, 0 <= j < 3 -> corner_of i j <> None) ->
  exists out,
    triangle i s = Some out
    /\ (forall j, 0 <= j < 3 ->
                  exists c, corner_of i j = Some c
                            /\ out (i * 3 + j) = record_of c)
    /\ (forall k, k < i * 3 \/ i * 3 + 3 <= k -> out k = s k).
Proof.
  intros Hi Hb D.
  unfold gen_triangle. cbn [for_].
  destruct (set_pointers m activeFrameIdx nextFrame i 0) as [c0|] eqn:E0;
    [|exfalso; apply (D 0); [lia | exact E0]].
  destruct (set_pointers m activeFrameIdx nextFrame i (0 + 1))
    as [c1|] eqn:E1;
    [|exfalso; apply (D 1); [lia | exact E1]].
  destruct (set_pointers m activeFrameIdx nextFrame i (0 + 1 + 1))
    as [c2|] eqn:E2;
    [|exfalso; apply (D 2); [lia | exact E2]].
  cbn [bind]. eexists. split; [reflexivity|].
  rewrite !uint16_small by lia. split.
  - intros j Hj.
    assert (C : j = 0 \/ j = 0 + 1 \/ j = 0 + 1 + 1) by lia.
    destruct C as [-> | [-> | ->]].
    + exists c0. split; [exact E0|].
      rewrite !store_other by lia. apply store_same.
    + exists c1. split; [exact E1|].
      rewrite store_other by lia. apply store_same.
    + exists c2. split; [exact E2|]. apply store_same.
  - intros k Hk. rewrite !store_other by lia. reflexivity.
Qed.

(** The loop over the triangles, from triangle [i0]. *)
Lemma triangles_records (count : nat) :
  forall (i0 : Z) (s : buffer),
    0 <= i0 -> (i0 + Z.of_nat count) * 3 <= 65536 ->
    (forall i j, i0 <= i < i0 + Z.of_nat count -> 0 <= j < 3 ->
                 corner_of i j <> None) ->
    exists out,
      for_ count i0 triangle s = Some out
      /\ (forall i j,
             i0 <= i < i0 + Z.of_nat count -> 0 <= j < 3 ->
             exists c, corner_of i j = Some c
                       /\ out (i * 3 + j) = record_of c)
      /\ (forall k, k < i0 * 3 \/ (i0 + Z.of_nat count) * 3 <= k ->
                    out k = s k).
Proof.
  induction count as [|count IH]; intros i0 s H0 Hb D.
  - exists s. split; [reflexivity|]. split; [intros; lia | reflexivity].
  - destruct (triangle_records i0 s) as (s1 & E1 & W1 & U1);
      [lia | lia | intros j Hj; apply D; lia |].
    destruct (IH (i0 + 1) s1) as (out & E & W & U);
      [lia | lia | intros i j Hi Hj; apply D; lia |].
    exists out. cbn [for_]. rewrite E1. cbn [bind].
    split; [exact E|]. split.
    + intros i j Hi Hj.
      destruct (Z.eq_dec i i0) as [->|N].
      * destruct (W1 j Hj) as (c & Ec & Rc).
        exists c. split; [exact Ec|].
        rewrite U by lia. exact Rc.
      * apply W; lia.
    + intros k Hk. rewrite U by lia. apply U1. lia.
Qed.

(** With 21846 triangles the record index of the last triangle wraps: its
    second corner is written to record 0, and record 65536 is not written. *)
Lemma triangles_wrap (s : buffer) :
  (forall i j, 0 <= i < 21846 -> 0 <= j < 3 -> corner_of i j <> None) ->
  exists out c,
    for_ (Z.to_nat 21845 + 1) 0 triangle s = Some out
    /\ corner_of 21845 1 = Some c
    /\ out 0 = record_of c
    /\ out 65536 = s 65536.
Proof.
  intros D.
  destruct (triangles_records (Z.to_nat 21845) 0 s) as (s1 & E1 & _ & U1);
    [lia | lia | intros i j Hi Hj; apply D; lia |].
  rewrite for_app, E1. cbn [bind for_].
  rewrite Z2Nat.id by lia. change (0 + 21845) with 21845.
  unfold gen_triangle. cbn [for_].
  destruct (corner_of 21845 0) as [c0|] eqn:E0;
    [|exfalso; apply (D 21845 0); [lia | lia | exact E0]].
  destruct (corner_of 21845 (0 + 1)) as [c1|] eqn:E;
    [|exfalso; apply (D 21845 1); [lia | lia | exact E]].
  destruct (corner_of 21845 (0 + 1 + 1)) as [c2|] eqn:E2;
    [|exfalso; apply (D 21845 2); [lia | lia | exact E2]].
  cbn [bind].
  change (Int.uint16_t (21845 * 3 + 0)) with 65535.
  change (Int.uint16_t (21845 * 3 + (0 + 1))) with 0.
  change (Int.uint16_t (21845 * 3 + (0 + 1 + 1))) with 1.
  eexists. exists c1. split; [reflexivity|]. split; [exact E|]. split.
  - rewrite store_other by lia. apply store_same.
  - rewrite !store_other by lia. apply U1. lia.
Qed.

End Generation.

Section Blending.

Local Open Scope Q_scope.

Lemma add_ranged (x y : float) :
  Float.is_finite (Float.add x y) = true -> ranged (Float.add x y).
Proof.
  destruct (Float.add x y) as [q| | |] eqn:E; try discriminate.
  intros _. exists q. split; [reflexivity|]. exact (add_Finite _ _ _ E).
Qed.

(** With a zero weight, the blend of two finite values is the first one. *)
Lemma blend_zero (l : Q) (x y : float) :
  l == 0 -> ranged x -> Float.is_finite y = true ->
  Float.eq (Float.add (Float.mul (Float.sub (Float.Finite 1)
                                            (Float.Finite l)) x)
                      (Float.mul (Float.Finite l) y))
           x.
Proof.
  intros H (a & -> & R) Fy. destruct y as [b| | |]; try discriminate.
  cbn [Float.sub].
  rewrite (value_in_range (1 - l))
    by (apply frames_in_range; rewrite H; split; discriminate).
  cbn [Float.mul].
  rewrite (value_in_range ((1 - l) * a))
    by (apply (in_range_comp a); [rewrite H; ring | exact R]).
  rewrite (value_in_range (l * b))
    by (apply frames_in_range; rewrite H; split;
        ring_simplify; discriminate).
  cbn [Float.add].
  rewrite value_in_range
    by (apply (in_range_comp a); [rewrite H; ring | exact R]).
  cbn. rewrite H. ring.
Qed.

Lemma interpolate_zero (l : Q) (u v : array3 float) :
  l == 0 -> ranged3 u -> finite3 v ->
  eq3 (interpolate (Float.sub (Float.Finite 1) (Float.Finite l))
                   (Float.Finite l) u v) u.
Proof.
  intros H. destruct u as [[u0 u1] u2], v as [[v0 v1] v2].
  intros (R0 & R1 & R2) (F0 & F1 & F2). cbn [interpolate eq3].
  repeat split; apply blend_zero; assumption.
Qed.

(** An infinite value in the second operand makes the blend a NaN, even
    with a zero weight. *)
Lemma blend_zero_infinite (x : float) :
  Float.add (Float.mul (Float.sub (Float.Finite 1) (Float.Finite 0)) x)
            (Float.mul (Float.Finite 0) Float.PInf)
  = Float.NaN.
Proof.
  cbn [Float.mul]. change (Float.infinity_times true 0) with Float.NaN.
  destruct (Float.mul _ x); reflexivity.
Qed.

Lemma uncompress_ranged (frame : _Frame.t) (vert : _Frame.Vertex) :
  finite3 (uncompress frame vert) -> ranged3 (uncompress frame vert).
Proof.
  unfold uncompress.
  destruct (_Frame.scale frame) as [[s0 s1] s2].
  destruct (_Frame.translation frame) as [[t0 t1] t2].
  cbn [finite3 ranged3]. intros (F0 & F1 & F2).
  repeat split; apply add_ranged; assumption.
Qed.

(** The entries of the normal table are finite, between -1 and 1. *)
Lemma sNormals_ranged (i : Z) (nrm : _Normal.t) :
  index sNormals i = Some nrm -> ranged3 (normal nrm) /\ finite3 (normal nrm).
Proof.
  intros H. apply index_In in H.
  assert (A : Forall (fun nm =>
                        match _Normal.x nm, _Normal.y nm, _Normal.z nm with
                        | Float.Finite x, Float.Finite y, Float.Finite z =>
                            Qle_bool (-1) x && Qle_bool x 1
                            && Qle_bool (-1) y && Qle_bool y 1
                            && Qle_bool (-1) z && Qle_bool z 1 = true
                        | _, _, _ => False
                        end) sNormals).
  { unfold sNormals. cbv zeta beta.
    repeat (constructor; [reflexivity|]). constructor. }
  pose proof (proj1 (Forall_forall _ _) A nrm H) as B.
  unfold normal. destruct nrm as [[x| | |] [y| | |] [z| | |]];
    cbn in B; try contradiction.
  rewrite !andb_true_iff in B. rewrite !Qle_bool_iff in B.
  cbn [_Normal.x _Normal.y _Normal.z ranged3 finite3 Float.is_finite].
  split; [|repeat split].
  repeat split; eexists; (split; [reflexivity|]);
    apply frames_in_range; lra.
Qed.

Lemma modf_integral (x : float) (f : Z) :
  Float.eq x (Float.of_int f) ->
  exists l, fst (Float.modf x) = Float.Finite l /\ l == 0.
Proof.
  destruct x as [c| | |]; cbn; try contradiction. intros H.
  eexists. split; [reflexivity|].
  rewrite (trunc_comp _ _ H), trunc_of_int. rewrite H. ring.
Qed.

Lemma to_int16_integral (x : float) (f : Z) :
  Float.eq x (Float.of_int f) -> (-32768 <= f <= 32767)%Z ->
  Float.to_int16 x = Some f.
Proof.
  destruct x as [c| | |]; cbn; try contradiction. intros H R.
  rewrite (trunc_comp _ _ H), trunc_of_int.
  unfold Int.in_int16.
  destruct (Z.leb_spec (-32768) f); [|lia].
  destruct (Z.leb_spec f 32767); [reflexivity | lia].
Qed.

End Blending.

(** What [set_pointers] has read when it succeeds. *)
Lemma set_pointers_Some (m : Md2) (fA fB i j : Z) (c : corner) :
  set_pointers m fA fB i j = Some c ->
  exists tri,
    deref (mFrames m) fA = Some (frameA c)
    /\ deref (mFrames m) fB = Some (frameB c)
    /\ deref (mTriangles m) i = Some tri
    /\ deref (_Frame.vertices (frameA c)) (get3 (_Triangle.iPos tri) j)
       = Some (vertA c)
    /\ deref (_Frame.vertices (frameB c)) (get3 (_Triangle.iPos tri) j)
       = Some (vertB c)
    /\ index sNormals (_Frame.n (vertA c)) = Some (normA c)
    /\ index sNormals (_Frame.n (vertB c)) = Some (normB c).
Proof.
  unfold set_pointers.
  destruct (deref (mFrames m) fA) as [a|]; [|discriminate].
  destruct (deref (mFrames m) fB) as [b|]; [|discriminate].
  destruct (deref (mTriangles m) i) as [tri|]; [|discriminate].
  cbn [bind].
  destruct (deref (_Frame.vertices a) _) as [va|] eqn:Ea; [|discriminate].
  destruct (deref (_Frame.vertices b) _) as [vb|] eqn:Eb; [|discriminate].
  cbn [bind].
  destruct (index sNormals (_Frame.n va)) as [na|] eqn:Na; [|discriminate].
  destruct (index sNormals (_Frame.n vb)) as [nb|] eqn:Nb; [|discriminate].
  cbn [bind].
  destruct (deref (mTexCoords m) _) as [tc|]; [|discriminate].
  intros [= <-]. exists tri. cbn. auto 10.
Qed.

Lemma GenVertices_integral
    (m : Md2) (vertices : buffer) (f : Z) (a : _Animation.t) :
  Float.eq (mActiveFrame m) (Float.of_int f) ->
  -32768 <= f <= 32767 ->
  index sAnimations (mActiveAnimation m) = Some a ->
  GenVertices m vertices
  = for_ (Z.to_nat (mTriangleCnt m)) 0
         (gen_triangle m f (next_frame a f)
                       (Float.sub (Float.Finite 1)
                                  (fst (Float.modf (mActiveFrame m))))
                       (fst (Float.modf (mActiveFrame m))))
         vertices.
Proof.
  intros H R A. unfold GenVertices.
  rewrite (to_int16_integral _ _ H R), A. reflexivity.
Qed.

Lemma eq3b_true (u v : array3 float) : eq3b u v = true <-> eq3 u v.
Proof.
  destruct u as [[u0 u1] u2], v as [[v0 v1] v2]. cbn [eq3 eq3b].
  rewrite !andb_true_iff, !eqb_eq_float. tauto.
Qed.

Lemma eq3_trans (u v w : array3 float) : eq3 u v -> eq3 v w -> eq3 u w.
Proof.
  destruct u as [[u0 u1] u2], v as [[v0 v1] v2], w as [[w0 w1] w2].
  cbn [eq3]. intros (A0 & A1 & A2) (B0 & B1 & B2).
  repeat split; eapply eq_trans_float; eassumption.
Qed.

Lemma GenVertices_wraps
    (m : Md2) (vertices : buffer) (f : Z) (a : _Animation.t) :
  Float.eq (mActiveFrame m) (Float.of_int f) ->
  -32768 <= f <= 32767 ->
  index sAnimations (mActiveAnimation m) = Some a ->
  in_bounds m f (next_frame a f) ->
  mTriangleCnt m = 21846 ->
  exists out c,
    GenVertices m vertices = Some out
    /\ set_pointers m f (next_frame a f) 21845 1 = Some c
    /\ out 0 = gen_vertex m (Float.sub (Float.Finite 1)
                                       (fst (Float.modf (mActiveFrame m))))
                          (fst (Float.modf (mActiveFrame m))) c
    /\ out 65536 = vertices 65536.
Proof.
  intros H R A B T.
  rewrite (GenVertices_integral m vertices f a H R A), T.
  replace (Z.to_nat 21846) with (Z.to_nat 21845 + 1)%nat by lia.
  apply triangles_wrap. intros i j Hi Hj. apply B; lia.
Qed.

(** ** A model of 21846 triangles *)

Lemma index_cons_repeat {A : Type} (x y : A) (n : nat) (i : Z) :
  0 <= i <= Z.of_nat n ->
  index (x :: repeat y n) i = Some (if i =? 0 then x else y).
Proof.
  intros H. unfold index.
  destruct (Z.ltb_spec i 0); [lia|].
  destruct (Z.eqb_spec i 0) as [->|N]; [reflexivity|].
  destruct (Z.to_nat i) as [|k] eqn:E; [lia|].
  cbn [nth_error]. apply nth_error_repeat. lia.
Qed.

Lemma Load_many_triangles :
  Load files zeros binary32 "many.md2" Md2_default
  = Some (many_model, None).
Proof.
  vm_cast_no_check
    (@eq_refl (option (Md2 * option Md2Exception))
              (Some (many_model, None))).
Qed.

Lemma many_model_in_bounds :
  in_bounds many_model 0 (next_frame (_Animation.mk 0 39 (Float.Finite 9)) 0).
Proof.
  intros i j Hi Hj. unfold set_pointers.
  assert (F0 : deref (mFrames many_model) 0 = Some many_frame)
    by reflexivity.
  assert (F1 : deref (mFrames many_model)
                     (next_frame (_Animation.mk 0 39 (Float.Finite 9)) 0)
               = Some many_frame) by reflexivity.
  assert (T : deref (mTriangles many_model) i
              = Some (if i =? 0
                      then _Triangle.mk (0, 0, 0) (0, 0, 0)
                      else _Triangle.mk (1, 1, 1) (0, 0, 0))).
  { change (mTriangleCnt many_model) with 21846 in Hi.
    apply index_cons_repeat. lia. }
  rewrite F0, F1, T. cbn [bind].
  assert (Ej : j = 0 \/ j = 1 \/ j = 2) by lia.
  destruct (i =? 0); destruct Ej as [-> | [-> | ->]]; vm_compute;
    discriminate.
Qed.




(** * Further properties *)

(** ** What a successful load has built *)

(** After a successful load the arrays have the sizes that the accessors
    report: [TriangleCount] triangles, [FrameCount] frames of
    [VertexCount] vertices each, and [SkinCount] skins and
    [TexCoordCount] texture coordinates when these counts are positive,
    no array otherwise. *)
Theorem Load_arrays_match_counts
    (fs : string -> option (list byte)) (indeterminate : nat -> byte)
    (float_of_bits : Z -> float) (filename : string) (m : Md2)
    (r : Md2 * option Md2Exception) :
  Load fs indeterminate float_of_bits filename m = Some r ->
  snd r = None ->
  (exists triangles,
      mTriangles (fst r) = Some triangles
      /\ Z.of_nat (length triangles) = TriangleCount (fst r))
  /\ (exists frames,
         mFrames (fst r) = Some frames
         /\ Z.of_nat (length frames) = FrameCount (fst r)
         /\ Forall (fun frame =>
                      exists vs,
                        _Frame.vertices frame = Some vs
                        /\ Z.of_nat (length vs) = VertexCount (fst r))
                   frames)
  /\ (if 0 <? SkinCount (fst r)
      then exists skins,
          mSkins (fst r) = Some skins
          /\ Z.of_nat (length skins) = SkinCount (fst r)
      else mSkins (fst r) = None)
  /\ (if 0 <? TexCoordCount (fst r)
      then exists texcoords,
          mTexCoords (fst r) = Some texcoords
          /\ Z.of_nat (length texcoords) = TexCoordCount (fst r)
      else mTexCoords (fst r) = None).
Proof.
  intros L E. destruct (Load_Some _ _ _ _ _ _ L) as (m0 & C & ->).
  destruct (_Clear_Some _ _ C) as (_ & M1 & M2 & M3 & M4 & _).
  unfold TriangleCount, FrameCount, VertexCount, SkinCount, TexCoordCount.
  destruct (fs filename) as [bytes|] eqn:H.
  - pose proof (Load_kind fs indeterminate float_of_bits filename m0 bytes H)
      as K.
    rewrite E in K. cbn [option_map] in K.
    destruct (checks_None _ (eq_sym K)) as (E1 & E2 & _).
    pose proof (Load_arrays fs indeterminate float_of_bits filename m0 bytes
                            H M1 M2 M3 M4 E1 E2) as A.
    cbv zeta in A. rewrite E in A. cbn [option_map] in A.
    destruct A as (A1 & A2 & A3 & A4). auto.
  - rewrite (Load_not_found fs indeterminate float_of_bits filename m0 H)
      in E.
    discriminate E.
Qed.

Lemma Load_arrays_match_counts_witness :
  exists r,
    Load files zeros binary32 "frames198.md2" Md2_default = Some r
    /\ snd r = None
    /\ exists triangles,
        mTriangles (fst r) = Some triangles
        /\ Z.of_nat (length triangles) = TriangleCount (fst r).
Proof.
  eexists. split; [apply Load_of_Clear, _Clear_default|].
  assert (E : snd (Load_cleared files zeros binary32 "frames198.md2"
                                Md2_default)
              = None) by (vm_compute; reflexivity).
  split; [exact E|].
  exact (proj1 (Load_arrays_match_counts
                  files zeros binary32 "frames198.md2" Md2_default _
                  (Load_of_Clear _ _ _ _ _ _ _Clear_default) E)).
Defined.

(** ** The header decides *)

Lemma _Clear_dimensions (m m0 : Md2) :
  _Clear m = Some m0 -> dimensions m0 = [-1; -1; -1; -1; -1; -1; -1].
Proof.
  unfold _Clear. destruct (delete_frames (mFrames m)); [|discriminate].
  intros [= <-]. reflexivity.
Qed.

(** What the accessors return after the body of [Load], from the header. *)
Lemma Load_dimensions
    (fs : string -> option (list byte)) (indeterminate : nat -> byte)
    (float_of_bits : Z -> float)
    (filename : string) (m : Md2) (bytes : list byte) :
  fs filename = Some bytes ->
  let h := header_of indeterminate bytes in
  dimensions (fst (Load_cleared fs indeterminate float_of_bits filename m))
  = if (ident h =? IDP2) && (version h =? 8)
    then map Int.int16_t (header_dimensions h)
    else dimensions m.
Proof.
  intros H. cbv zeta.
  destruct ((ident (header_of indeterminate bytes) =? IDP2)
            && (version (header_of indeterminate bytes) =? 8)) eqn:B.
  - apply andb_true_iff in B. destruct B as [B1 B2].
    apply Z.eqb_eq in B1, B2.
    destruct (Load_saved fs indeterminate float_of_bits filename m bytes
                         H B1 B2) as (S1 & S2 & S3 & S4 & S5 & S6 & S7).
    unfold dimensions, header_dimensions, SkinCount, TexCoordCount,
      TriangleCount, FrameCount, VertexCount, SkinWidth, SkinHeight.
    cbn [map]. now rewrite S1, S2, S3, S4, S5, S6, S7.
  - pose proof (Load_kind fs indeterminate float_of_bits filename m bytes H)
      as K.
    destruct (snd (Load_cleared fs indeterminate float_of_bits filename m))
      as [e|] eqn:E.
    + rewrite (Load_early fs indeterminate float_of_bits filename m e E);
        [reflexivity|].
      cbn [option_map] in K. unfold checks in K.
      apply andb_false_iff in B.
      destruct (ident (header_of indeterminate bytes) =? IDP2);
        cbn [negb] in K; [|injection K as ->; auto].
      destruct (version (header_of indeterminate bytes) =? 8);
        cbn [negb] in K; [|injection K as ->; auto].
      destruct B; discriminate.
    + cbn [option_map] in K.
      destruct (checks_None _ (eq_sym K)) as (E1 & E2 & _).
      rewrite E1, E2, !Z.eqb_refl in B. discriminate B.
Qed.

Lemma header_of_prefix (indeterminate : nat -> byte) (b1 b2 : list byte) :
  firstn sizeof_Md2Header b1 = firstn sizeof_Md2Header b2 ->
  header_of indeterminate b1 = header_of indeterminate b2.
Proof.
  intros H. unfold header_of, ifstream.read, ifstream.open.
  cbn [ifstream.failbit ifstream.gpos ifstream.content skipn fst].
  now rewrite H.
Qed.

(** [Load] never notices a truncated or damaged body: two files that hold
    a whole header and have the same first 68 bytes have the same outcome
    (the same exception or none), and leave the same counts and dimensions
    in the object, whatever the objects held before. *)
Theorem Load_outcome_decided_by_header
    (fs : string -> option (list byte)) (indeterminate : nat -> byte)
    (float_of_bits : Z -> float)
    (name1 name2 : string) (m1 m2 : Md2) (b1 b2 : list byte)
    (r1 r2 : Md2 * option Md2Exception) :
  fs name1 = Some b1 -> fs name2 = Some b2 ->
  (sizeof_Md2Header <= length b1)%nat ->
  firstn sizeof_Md2Header b1 = firstn sizeof_Md2Header b2 ->
  Load fs indeterminate float_of_bits name1 m1 = Some r1 ->
  Load fs indeterminate float_of_bits name2 m2 = Some r2 ->
  option_map kind (snd r1) = option_map kind (snd r2)
  /\ dimensions (fst r1) = dimensions (fst r2).
Proof.
  intros H1 H2 _ P L1 L2.
  destruct (Load_Some _ _ _ _ _ _ L1) as (c1 & C1 & ->).
  destruct (Load_Some _ _ _ _ _ _ L2) as (c2 & C2 & ->).
  rewrite (Load_kind _ _ _ _ _ _ H1), (Load_kind _ _ _ _ _ _ H2).
  rewrite (Load_dimensions _ _ _ _ _ _ H1), (Load_dimensions _ _ _ _ _ _ H2).
  rewrite (header_of_prefix indeterminate b1 b2 P).
  rewrite (_Clear_dimensions _ _ C1), (_Clear_dimensions _ _ C2).
  split; reflexivity.
Qed.

Lemma Load_outcome_decided_by_header_witness :
  exists r1 r2,
    more_files "frames198.md2" = Some (one_triangle 0 3 198)
    /\ more_files "header.md2" = Some header_only
    /\ (sizeof_Md2Header <= length (one_triangle 0 3 198))%nat
    /\ firstn sizeof_Md2Header (one_triangle 0 3 198)
       = firstn sizeof_Md2Header header_only
    /\ length header_only = 68%nat
    /\ Load more_files zeros binary32 "frames198.md2" Md2_default = Some r1
    /\ Load more_files zeros binary32 "header.md2" second_to_last = Some r2
    /\ snd r2 = None
    /\ option_map kind (snd r1) = option_map kind (snd r2)
    /\ dimensions (fst r1) = dimensions (fst r2).
Proof.
  assert (P : firstn sizeof_Md2Header (one_triangle 0 3 198)
              = firstn sizeof_Md2Header header_only)
    by (vm_compute; reflexivity).
  assert (C : _Clear second_to_last = Some second_to_last)
    by reflexivity.
  assert (S : (sizeof_Md2Header <= length (one_triangle 0 3 198))%nat)
    by (apply Nat.leb_le; vm_compute; reflexivity).
  eexists. eexists.
  split; [reflexivity|]. split; [reflexivity|]. split; [exact S|].
  split; [exact P|].
  split; [vm_compute; reflexivity|].
  split; [apply Load_of_Clear, _Clear_default|].
  split; [apply Load_of_Clear, C|].
  split; [vm_compute; reflexivity|].
  exact (Load_outcome_decided_by_header
           more_files zeros binary32 "frames198.md2" "header.md2"
           Md2_default second_to_last _ _ _ _ eq_refl eq_refl S P
           (Load_of_Clear _ _ _ _ _ _ _Clear_default)
           (Load_of_Clear _ _ _ _ _ _ C)).
Defined.

(** ** Loading again *)

Lemma Load_deletable
    (fs : string -> option (list byte)) (indeterminate : nat -> byte)
    (float_of_bits : Z -> float) (filename : string) (m : Md2) :
  mSkins m = None -> mTexCoords m = None ->
  mTriangles m = None -> mFrames m = None ->
  let r := Load_cleared fs indeterminate float_of_bits filename m in
  option_map kind (snd r) <> Some BadVertexData ->
  delete_frames (mFrames (fst r)) = true.
Proof.
  intros M1 M2 M3 M4 r N. unfold r in *. clear r.
  destruct (snd (Load_cleared fs indeterminate float_of_bits filename m))
    as [e|] eqn:E.
  - destruct (fs filename) as [bytes|] eqn:H.
    + pose proof (Load_kind fs indeterminate float_of_bits filename m bytes
                            H) as K.
      rewrite E in K. cbn [option_map] in K, N.
      destruct (kind e) eqn:Ke.
      * rewrite (Load_early _ _ _ _ _ e E); [now rewrite M4 | auto].
      * rewrite (Load_early _ _ _ _ _ e E); [now rewrite M4 | auto].
      * rewrite (Load_early _ _ _ _ _ e E); [now rewrite M4 | auto].
      * destruct (checks_late _ _ (eq_sym K)) as [E1 E2]; auto.
        pose proof (Load_arrays fs indeterminate float_of_bits filename m
                                bytes H M1 M2 M3 M4 E1 E2) as A.
        cbv zeta in A. rewrite E in A. cbn [option_map] in A.
        rewrite Ke in A. destruct A as (_ & _ & _ & ->). reflexivity.
      * destruct (checks_late _ _ (eq_sym K)) as [E1 E2]; auto.
        pose proof (Load_arrays fs indeterminate float_of_bits filename m
                                bytes H M1 M2 M3 M4 E1 E2) as A.
        cbv zeta in A. rewrite E in A. cbn [option_map] in A.
        rewrite Ke in A. destruct A as (_ & _ & _ & ->). reflexivity.
      * congruence.
    + rewrite (Load_not_found fs indeterminate float_of_bits filename m H).
      cbn [fst]. now rewrite M4.
  - destruct (fs filename) as [bytes|] eqn:H.
    + pose proof (Load_kind fs indeterminate float_of_bits filename m bytes
                            H) as K.
      rewrite E in K. cbn [option_map] in K.
      destruct (checks_None _ (eq_sym K)) as (E1 & E2 & _).
      pose proof (Load_arrays fs indeterminate float_of_bits filename m
                              bytes H M1 M2 M3 M4 E1 E2) as A.
      cbv zeta in A. rewrite E in A. cbn [option_map] in A.
      destruct A as (_ & _ & _ & frames & -> & _ & F).
      cbn [delete_frames]. apply forallb_forall. intros fr I.
      destruct (proj1 (Forall_forall _ _) F fr I) as (vs & -> & _).
      reflexivity.
    + rewrite (Load_not_found fs indeterminate float_of_bits filename m H)
        in E.
      discriminate E.
Qed.



(** ** The frames that a session reads *)

Lemma Load_frames_198
    (fs : string -> option (list byte)) (indeterminate : nat -> byte)
    (float_of_bits : Z -> float) (filename : string) (m : Md2)
    (frames : list _Frame.t) :
  mSkins m = None -> mTexCoords m = None ->
  mTriangles m = None -> mFrames m = None ->
  mFrames (fst (Load_cleared fs indeterminate float_of_bits filename m))
  = Some frames ->
  length frames = 198%nat.
Proof.
  intros M1 M2 M3 M4.
  destruct (fs filename) as [bytes|] eqn:H.
  - pose proof (Load_kind fs indeterminate float_of_bits filename m bytes H)
      as K.
    destruct (snd (Load_cleared fs indeterminate float_of_bits filename m))
      as [e|] eqn:E; cbn [option_map] in K.
    + destruct (kind e) eqn:Ke;
        try (rewrite (Load_early _ _ _ _ _ e E) by auto; congruence);
        destruct (checks_late _ _ (eq_sym K)) as [E1 E2]; auto;
        pose proof (Load_arrays fs indeterminate float_of_bits filename m
                                bytes H M1 M2 M3 M4 E1 E2) as A;
        cbv zeta in A; rewrite E in A; cbn [option_map] in A;
        rewrite Ke in A; destruct A as (_ & _ & _ & A);
        rewrite A; try discriminate.
      intros Q. apply (f_equal (option_map (@length _))) in Q.
      cbn [option_map] in Q. rewrite repeat_length in Q.
      injection Q as <-. reflexivity.
    + destruct (checks_None _ (eq_sym K)) as (E1 & E2 & _ & E4 & _).
      pose proof (Load_arrays fs indeterminate float_of_bits filename m
                              bytes H M1 M2 M3 M4 E1 E2) as A.
      cbv zeta in A. rewrite E in A. cbn [option_map] in A.
      destruct A as (_ & _ & _ & frames' & -> & L & _).
      destruct (Load_saved fs indeterminate float_of_bits filename m bytes
                           H E1 E2) as (_ & _ & _ & S4 & _).
      intros [= <-]. lia.
  - rewrite (Load_not_found fs indeterminate float_of_bits filename m H).
    cbn [fst]. congruence.
Qed.

Lemma playable_end (i : Z) (a : _Animation.t) :
  0 <= i <= 19 -> index sAnimations i = Some a -> _Animation.end_ a <= 197.
Proof.
  intros H. index_cases i H; intros [= <-]; cbn; lia.
Qed.

Lemma set_animation_on_frames (m : Md2) (i : Z) (a : _Animation.t) :
  on_frames m -> 0 <= i <= 19 -> index sAnimations i = Some a ->
  on_frames (set_animation i (Float.of_int (_Animation.start a)) m).
Proof.
  intros (a0 & _ & _ & _ & Hs & Hf) Hi Ha.
  exists a. cbn. destruct (index_sAnimations _ _ Ha) as (Hse & _).
  split; [lia|]. split; [exact Ha|]. split; [|split; assumption].
  exists (inject_Z (_Animation.start a)). split; [reflexivity|].
  rewrite trunc_of_int. lia.
Qed.

Lemma session_on_frames
    (fs : string -> option (list byte)) (indeterminate : nat -> byte)
    (float_of_bits : Z -> float) (m : Md2) :
  session fs indeterminate float_of_bits m -> on_frames m.
Proof.
  induction 1 as [|filename m r _ IH L|m _ IH|m _ IH|m m' _ IH E|m m' _ IH E
                  |dt m m' _ IH Hdt E].
  - exists (_Animation.mk 0 39 (Float.Finite 9)). cbn.
    split; [lia|]. split; [reflexivity|]. split; [|split].
    + exists 0%Q. split; [reflexivity|]. vm_compute. split; discriminate.
    + reflexivity.
    + discriminate.
  - destruct IH as (a & Hi & Ha & (c & Ec & Ic) & Hs & _).
    destruct (Load_Some _ _ _ _ _ _ L) as (m0 & C & ->).
    destruct (_Clear_Some _ _ C)
      as (_ & M1 & M2 & M3 & M4 & Q1 & Q2 & Q3 & _).
    destruct (Load_playback fs indeterminate float_of_bits filename m0)
      as (P1 & P2 & P3 & _).
    exists a. rewrite P1, P3, Q1, Q3.
    split; [exact Hi|]. split; [exact Ha|]. split; [|split].
    + exists c. rewrite P2, Q2. split; assumption.
    + exact Hs.
    + intros frames. now apply Load_frames_198.
  - exact IH.
  - exact IH.
  - pose proof IH as (a & Hi & _).
    destruct (NextAnimation_spec m Hi) as (a' & Ha' & N).
    rewrite N in E. injection E as <-.
    apply set_animation_on_frames; [exact IH | apply mod_20_range | exact Ha'].
  - pose proof IH as (a & Hi & _).
    destruct (PreviousAnimation_spec m Hi) as (a' & Ha' & N).
    rewrite N in E. injection E as <-.
    apply set_animation_on_frames; [exact IH | apply mod_20_range | exact Ha'].
  - destruct IH as (a & Hi & Ha & I & Hs & Hf).
    destruct (Update_in_sequence a dt m Ha I Hs Hdt)
      as (m1 & E1 & Ea & Es & I1).
    rewrite E in E1. injection E1 as <-.
    exists a. rewrite Ea, Es.
    split; [exact Hi|]. split; [exact Ha|]. split; [exact I1|].
    split; [exact Hs|].
    destruct (mIsPlaying m) eqn:Hp.
    + rewrite (Update_playing dt m a Hp Ha) in E. injection E as <-.
      exact Hf.
    + rewrite (Update_paused dt m Hp) in E. injection E as <-. exact Hf.
Qed.

Lemma deref_in_range {A : Type} (l : list A) (i : Z) :
  0 <= i < Z.of_nat (length l) -> deref (Some l) i <> None.
Proof.
  intros H. cbn [deref]. unfold index.
  destruct (Z.ltb_spec i 0); [lia|].
  apply nth_error_Some. lia.
Qed.

(** In a session (loads and playback from a new object, each [Update] with
    an elapsed time from 0 to 2^124), the frame cursor converts to a frame
    index, the two frames that [GenVertices] blends are frames of the
    active sequence, and both exist whenever the object holds frames: the
    198 frames that [Load] requires cover every sequence that can be
    played.  The next [Update] and the next change of animation are
    defined. *)
Theorem session_reads_loaded_frames
    (fs : string -> option (list byte)) (indeterminate : nat -> byte)
    (float_of_bits : Z -> float) (m : Md2) :
  session fs indeterminate float_of_bits m ->
  (exists a f,
      index sAnimations (mActiveAnimation m) = Some a
      /\ Float.to_int16 (mActiveFrame m) = Some f
      /\ _Animation.start a <= f <= _Animation.end_ a
      /\ _Animation.start a <= next_frame a f <= _Animation.end_ a
      /\ (mFrames m <> None ->
          deref (mFrames m) f <> None
          /\ deref (mFrames m) (next_frame a f) <> None))
  /\ (forall dt, elapsed dt -> Update dt m <> None)
  /\ NextAnimation m <> None /\ PreviousAnimation m <> None.
Proof.
  intros S.
  destruct (session_on_frames _ _ _ _ S)
    as (a & Hi & Ha & (c & Ec & F1 & F2) & Hs & Hf).
  pose proof (index_sAnimations _ _ Ha) as (Hse & _).
  pose proof (playable_end _ _ Hi Ha) as He.
  split; [|split; [|split]].
  - set (f := Float.trunc c) in *.
    assert (N : _Animation.start a <= next_frame a f <= _Animation.end_ a).
    { unfold next_frame.
      destruct (Z.eqb_spec f (_Animation.end_ a)).
      - rewrite uint16_small by lia. lia.
      - rewrite uint16_small by lia. lia. }
    exists a, f. split; [exact Ha|]. split.
    + rewrite Ec. unfold Float.to_int16. fold f. unfold Int.in_int16.
      destruct (Z.leb_spec (-32768) f); [|lia].
      destruct (Z.leb_spec f 32767); [reflexivity | lia].
    + split; [lia|]. split; [exact N|].
      intros Hn. destruct (mFrames m) as [frames|] eqn:E; [|congruence].
      pose proof (Hf frames eq_refl) as Len.
      split; apply deref_in_range; lia.
  - intros dt Hdt.
    destruct (Update_in_sequence a dt m Ha
                (ex_intro _ c (conj Ec (conj F1 F2))) Hs Hdt)
      as (m1 & E1 & _).
    congruence.
  - destruct (NextAnimation_spec m Hi) as (a' & _ & N). congruence.
  - destruct (PreviousAnimation_spec m Hi) as (a' & _ & N). congruence.
Qed.

Lemma session_reads_loaded_frames_witness :
  exists r,
    Load files zeros binary32 "frames198.md2" Md2_default = Some r
    /\ session files zeros binary32 (fst r)
    /\ mFrames (fst r) <> None
    /\ exists a f,
        index sAnimations (mActiveAnimation (fst r)) = Some a
        /\ Float.to_int16 (mActiveFrame (fst r)) = Some f
        /\ deref (mFrames (fst r)) f <> None
        /\ deref (mFrames (fst r)) (next_frame a f) <> None.
Proof.
  assert (L : Load files zeros binary32 "frames198.md2" Md2_default
              = Some (Load_cleared files zeros binary32 "frames198.md2"
                                   Md2_default))
    by (apply Load_of_Clear, _Clear_default).
  assert (S : session files zeros binary32
                (fst (Load_cleared files zeros binary32 "frames198.md2"
                                   Md2_default)))
    by (exact (session_Load _ _ _ _ _ _ (session_default _ _ _) L)).
  assert (F : mFrames (fst (Load_cleared files zeros binary32
                                         "frames198.md2" Md2_default))
              <> None)
    by (vm_compute; discriminate).
  eexists. split; [exact L|]. split; [exact S|]. split; [exact F|].
  destruct (session_reads_loaded_frames _ _ _ _ S)
    as ((a & f & A & B & _ & _ & C) & _).
  exists a, f. split; [exact A|]. split; [exact B|]. exact (C F).
Defined.

(** ** Several steps through the animations *)

Lemma NextAnimations_succ (n : nat) :
  forall m : Md2,
    0 <= mActiveAnimation m <= 19 ->
    exists a m',
      NextAnimations (S n) m = Some m'
      /\ mActiveAnimation m' = (mActiveAnimation m + Z.of_nat (S n)) mod 20
      /\ index sAnimations (mActiveAnimation m') = Some a
      /\ mActiveFrame m' = Float.of_int (_Animation.start a).
Proof.
  induction n as [|n IH]; intros m Hi;
    destruct (NextAnimation_spec m Hi) as (a1 & Ha1 & N).
  - exists a1. eexists. cbn [NextAnimations]. rewrite N. cbn [bind].
    split; [reflexivity|]. cbn. auto.
  - set (m1 := set_animation ((mActiveAnimation m + 1) mod 20)
                             (Float.of_int (_Animation.start a1)) m) in *.
    destruct (IH m1 (mod_20_range _)) as (a & m' & E & I & A & C).
    exists a, m'. split.
    + change (NextAnimations (S (S n)) m)
        with (m0 <- NextAnimation m ;; NextAnimations (S n) m0).
      rewrite N. exact E.
    + split; [|split; assumption].
      rewrite I. cbn [m1 set_animation mActiveAnimation].
      rewrite Zplus_mod_idemp_l. f_equal. lia.
Qed.

(** From any of the twenty animations that can be played, [n] calls of
    [NextAnimation] (one at least) advance the active animation by [n]
    modulo 20 and leave the cursor on its start frame; twenty calls come
    back to the same animation. *)
Theorem NextAnimations_advance_modulo_twenty (n : nat) (m : Md2) :
  0 <= mActiveAnimation m <= 19 ->
  (0 < n)%nat ->
  exists a m',
    NextAnimations n m = Some m'
    /\ mActiveAnimation m' = (mActiveAnimation m + Z.of_nat n) mod 20
    /\ (n = 20%nat -> mActiveAnimation m' = mActiveAnimation m)
    /\ index sAnimations (mActiveAnimation m') = Some a
    /\ mActiveFrame m' = Float.of_int (_Animation.start a).
Proof.
  intros Hi Hn. destruct n as [|n]; [lia|].
  destruct (NextAnimations_succ n m Hi) as (a & m' & E & I & A & C).
  exists a, m'. repeat split; try assumption.
  intros E20. rewrite I, E20.
  change (Z.of_nat 20) with (1 * 20).
  rewrite Z_mod_plus_full. apply Z.mod_small. lia.
Qed.

Lemma NextAnimations_advance_modulo_twenty_witness :
  0 <= mActiveAnimation second_to_last <= 19
  /\ (0 < 20)%nat
  /\ exists a m',
      NextAnimations 20 second_to_last = Some m'
      /\ mActiveAnimation m' = mActiveAnimation second_to_last
      /\ index sAnimations (mActiveAnimation m') = Some a
      /\ mActiveFrame m' = Float.of_int (_Animation.start a).
Proof.
  assert (H1 : 0 <= mActiveAnimation second_to_last <= 19) by (cbn; lia).
  assert (H2 : (0 < 20)%nat) by lia.
  split; [exact H1|]. split; [exact H2|].
  destruct (NextAnimations_advance_modulo_twenty 20 second_to_last H1 H2)
    as (a & m' & E & _ & P & A & C).
  exists a, m'. split; [exact E|]. split; [exact (P eq_refl)|].
  split; [exact A | exact C].
Defined.

(** ** The records that GenVertices writes *)

(** For a model of at most 21845 triangles whose array accesses are all in
    bounds, whatever the frame cursor, [GenVertices] writes the records 0 to
    3 * TriangleCount - 1 and no other: record [3 i + j] is the one computed
    for corner [j] of triangle [i], and every other record of the caller's
    storage is left as it was.  Without triangles nothing is written. *)
Theorem GenVertices_writes_its_records_only
    (m : Md2) (vertices : buffer) (f : Z) (a : _Animation.t) :
  Float.to_int16 (mActiveFrame m) = Some f ->
  index sAnimations (mActiveAnimation m) = Some a ->
  in_bounds m f (next_frame a f) ->
  TriangleCount m * 3 <= 65536 ->
  exists out,
    GenVertices m vertices = Some out
    /\ (forall i j,
           0 <= i < TriangleCount m -> 0 <= j < 3 ->
           exists c,
             set_pointers m f (next_frame a f) i j = Some c
             /\ out (i * 3 + j)
                = gen_vertex m
                             (Float.sub (Float.Finite 1)
                                        (fst (Float.modf (mActiveFrame m))))
                             (fst (Float.modf (mActiveFrame m))) c)
    /\ (forall k, k < 0 \/ TriangleCount m * 3 <= k -> out k = vertices k).
Proof.
  intros F A B T. unfold TriangleCount in *.
  unfold GenVertices. rewrite F, A. cbn [bind]. fold (next_frame a f).
  set (lerp := fst (Float.modf (mActiveFrame m))).
  destruct (triangles_records m f (next_frame a f)
              (Float.sub (Float.Finite 1) lerp) lerp
              (Z.to_nat (mTriangleCnt m)) 0 vertices)
    as (out & E & W & U).
  - lia.
  - lia.
  - intros i j Hi Hj. apply B; lia.
  - exists out. split; [exact E|]. split.
    + intros i j Hi Hj. apply W; lia.
    + intros k Hk. apply U. lia.
Qed.

Lemma GenVertices_writes_its_records_only_witness :
  let a := _Animation.mk 0 39 (Float.Finite 9) in
  Float.to_int16 (mActiveFrame one_model) = Some 0
  /\ index sAnimations (mActiveAnimation one_model) = Some a
  /\ in_bounds one_model 0 (next_frame a 0)
  /\ TriangleCount one_model * 3 <= 65536
  /\ exists out,
      GenVertices one_model blank = Some out
      /\ forall k, k < 0 \/ TriangleCount one_model * 3 <= k ->
                   out k = blank k.
Proof.
  cbv zeta.
  assert (H1 : Float.to_int16 (mActiveFrame one_model) = Some 0)
    by (vm_compute; reflexivity).
  assert (H2 : index sAnimations (mActiveAnimation one_model)
               = Some (_Animation.mk 0 39 (Float.Finite 9)))
    by reflexivity.
  assert (C : mTriangleCnt one_model = 1) by reflexivity.
  assert (H3 : in_bounds one_model 0
                         (next_frame (_Animation.mk 0 39 (Float.Finite 9)) 0)).
  { intros i j Hi Hj. rewrite C in Hi.
    assert (Ei : i = 0) by lia.
    assert (Ej : j = 0 \/ j = 1 \/ j = 2) by lia.
    rewrite Ei. destruct Ej as [-> | [-> | ->]]; vm_compute; discriminate. }
  assert (H4 : TriangleCount one_model * 3 <= 65536)
    by (unfold TriangleCount; rewrite C; lia).
  split; [exact H1|]. split; [exact H2|]. split; [exact H3|].
  split; [exact H4|].
  destruct (GenVertices_writes_its_records_only
              one_model blank 0 (_Animation.mk 0 39 (Float.Finite 9))
              H1 H2 H3 H4)
    as (out & G & _ & U).
  exists out. split; [exact G | exact U].
Defined.

(** ** The next power of two *)

Lemma smear_step (fuel : nat) (i number : Z) :
  i < 32 ->
  smear (S fuel) i number
  = smear fuel (GLuint (Z.shiftl i 1)) (Z.lor number (Z.shiftr number i)).
Proof.
  intros H. cbn [smear]. destruct (Z.ltb_spec i 32); [reflexivity | lia].
Qed.

Lemma smear_exit (fuel : nat) (i number : Z) :
  32 <= i -> smear fuel i number = number.
Proof.
  intros H. destruct fuel; cbn [smear]; [reflexivity|].
  destruct (Z.ltb_spec i 32); [lia | reflexivity].
Qed.

(** The five iterations of the loop. *)
Lemma smear_unrolled (x : Z) :
  smear 32 1 x
  = let x1 := Z.lor x (Z.shiftr x 1) in
    let x2 := Z.lor x1 (Z.shiftr x1 2) in
    let x3 := Z.lor x2 (Z.shiftr x2 4) in
    let x4 := Z.lor x3 (Z.shiftr x3 8) in
    Z.lor x4 (Z.shiftr x4 16).
Proof.
  rewrite smear_step by lia. change (GLuint (Z.shiftl 1 1)) with 2.
  rewrite smear_step by lia. change (GLuint (Z.shiftl 2 1)) with 4.
  rewrite smear_step by lia. change (GLuint (Z.shiftl 4 1)) with 8.
  rewrite smear_step by lia. change (GLuint (Z.shiftl 8 1)) with 16.
  rewrite smear_step by lia. change (GLuint (Z.shiftl 16 1)) with 32.
  rewrite smear_exit by lia. reflexivity.
Qed.

Lemma covers_start (x : Z) : covers x x 1.
Proof.
  intros j Hj. split.
  - intros H. exists 0. split; [lia|]. now rewrite Z.add_0_r.
  - intros (d & Hd & H). assert (d = 0) by lia. subst d.
    now rewrite Z.add_0_r in H.
Qed.

Lemma covers_step (x y w : Z) :
  0 < w -> covers x y w ->
  covers x (Z.lor y (Z.shiftr y w)) (w + w).
Proof.
  intros Hw C j Hj.
  rewrite Z.lor_spec, Z.shiftr_spec by lia.
  rewrite orb_true_iff, (C j Hj), (C (j + w)) by lia. split.
  - intros [(d & Hd & H)|(d & Hd & H)].
    + exists d. split; [lia | exact H].
    + exists (w + d). split; [lia|]. now rewrite Z.add_assoc.
  - intros (d & Hd & H). destruct (Z.lt_ge_cases d w).
    + left. exists d. split; [lia | exact H].
    + right. exists (d - w). split; [lia|].
      replace (j + w + (d - w)) with (j + d) by lia. exact H.
Qed.

Lemma smear_covers (x : Z) : covers x (smear 32 1 x) 32.
Proof.
  rewrite smear_unrolled. cbv zeta.
  pose proof (covers_start x) as C1.
  apply (covers_step x _ 1) in C1; [|lia].
  apply (covers_step x _ 2) in C1; [|lia].
  apply (covers_step x _ 4) in C1; [|lia].
  apply (covers_step x _ 8) in C1; [|lia].
  apply (covers_step x _ 16) in C1; [|lia].
  exact C1.
Qed.

(** Below 2^32 the loop sets every bit under the highest one. *)
Lemma smear_ones (x : Z) :
  0 < x < 2 ^ 32 -> smear 32 1 x = Z.ones (Z.log2 x + 1).
Proof.
  intros H. pose proof (smear_covers x) as C.
  assert (L : Z.log2 x < 32) by (apply Z.log2_lt_pow2; lia).
  pose proof (Z.log2_nonneg x) as L0.
  apply Z.bits_inj'. intros j Hj.
  destruct (Z.le_gt_cases j (Z.log2 x)) as [Hle|Hgt].
  - rewrite Z.ones_spec_low by lia.
    apply (C j Hj). exists (Z.log2 x - j). split; [lia|].
    replace (j + (Z.log2 x - j)) with (Z.log2 x) by lia.
    apply Z.bit_log2. lia.
  - rewrite Z.ones_spec_high by lia.
    destruct (Z.testbit (smear 32 1 x) j) eqn:E; [|reflexivity].
    apply (C j Hj) in E. destruct E as (d & Hd & E).
    rewrite Z.bits_above_log2 in E by lia. discriminate E.
Qed.

Lemma smear_zero : smear 32 1 0 = 0.
Proof. reflexivity. Qed.

Lemma GLuint_small (z : Z) : 0 <= z < 2 ^ 32 -> GLuint z = z.
Proof.
  intros H. unfold GLuint, Int.wrap_unsigned. now apply Z.mod_small.
Qed.

Lemma next_power_of_two_smear (number : Z) :
  0 < number < 2 ^ 32 ->
  next_power_of_two number = GLuint (smear 32 1 (number - 1) + 1).
Proof.
  intros N. unfold next_power_of_two.
  destruct (Z.eqb_spec number 0); [lia|].
  rewrite (GLuint_small (number - 1)) by lia. reflexivity.
Qed.

(** From 1 to 2^31: the least power of two that is not below the number. *)
Lemma next_power_of_two_range (number : Z) :
  1 <= number <= 2 ^ 31 ->
  exists e,
    0 <= e <= 31
    /\ next_power_of_two number = 2 ^ e
    /\ number <= 2 ^ e < 2 * number.
Proof.
  intros H.
  rewrite next_power_of_two_smear
    by (change (2 ^ 31) with 2147483648 in H;
        change (2 ^ 32) with 4294967296; lia).
  destruct (Z.eq_dec number 1) as [->|N1].
  - exists 0. split; [lia|]. split; [reflexivity | cbn; lia].
  - assert (X : 0 < number - 1 < 2 ^ 32)
      by (change (2 ^ 31) with 2147483648 in H;
          change (2 ^ 32) with 4294967296; lia).
    rewrite (smear_ones _ X), Z.ones_equiv.
    pose proof (Z.log2_spec (number - 1) (proj1 X)) as [S1 S2].
    pose proof (Z.log2_nonneg (number - 1)) as L0.
    replace (Z.succ (Z.log2 (number - 1)))
      with (Z.log2 (number - 1) + 1) in S2 by lia.
    rewrite Z.pow_add_r in S2 |- * by lia.
    change (2 ^ 1) with 2 in *.
    assert (L : Z.log2 (number - 1) < 31).
    { apply Z.log2_lt_pow2; lia. }
    assert (P : 2 ^ Z.log2 (number - 1) <= 2 ^ 30)
      by (apply Z.pow_le_mono_r; lia).
    exists (Z.log2 (number - 1) + 1).
    rewrite Z.pow_add_r by lia. change (2 ^ 1) with 2.
    split; [lia|]. split; [|lia].
    replace (Z.pred (2 ^ Z.log2 (number - 1) * 2) + 1)
      with (2 ^ Z.log2 (number - 1) * 2) by lia.
    apply GLuint_small. change (2 ^ 30) with 1073741824 in P.
    change (2 ^ 32) with 4294967296. lia.
Qed.

(** [next_power_of_two] on the whole range of [GLuint]: 1 for 0; from 1 to
    2^31, the least power of two that is not below the number; above 2^31,
    where that power does not fit in 32 bits, 0. *)
Theorem next_power_of_two_least_power
    (number : Z) :
  0 <= number < 2 ^ 32 ->
  (number = 0 -> next_power_of_two number = 1)
  /\ (1 <= number <= 2 ^ 31 ->
      exists e,
        0 <= e <= 31
        /\ next_power_of_two number = 2 ^ e
        /\ number <= 2 ^ e < 2 * number)
  /\ (2 ^ 31 < number -> next_power_of_two number = 0).
Proof.
  intros R. split; [intros ->; reflexivity|].
  split; [apply next_power_of_two_range|].
  intros H.
  rewrite next_power_of_two_smear
    by (change (2 ^ 31) with 2147483648 in H; lia).
  assert (X : 0 < number - 1 < 2 ^ 32)
    by (change (2 ^ 31) with 2147483648 in H; lia).
  rewrite (smear_ones _ X), Z.ones_equiv.
  assert (L : Z.log2 (number - 1) = 31).
  { apply Z.log2_unique; [lia|]. change (2 ^ 31) with 2147483648 in *.
    change (2 ^ Z.succ 31) with 4294967296.
    change (2 ^ 32) with 4294967296 in *. lia. }
  rewrite L. reflexivity.
Qed.

Lemma next_power_of_two_least_power_witness :
  0 <= 96 < 2 ^ 32
  /\ 1 <= 96 <= 2 ^ 31
  /\ exists e,
      0 <= e <= 31
      /\ next_power_of_two 96 = 2 ^ e
      /\ 96 <= 2 ^ e < 2 * 96.
Proof.
  assert (R : 0 <= 96 < 2 ^ 32) by (cbn; lia).
  assert (H : 1 <= 96 <= 2 ^ 31) by (cbn; lia).
  split; [exact R|]. split; [exact H|].
  exact (proj1 (proj2 (next_power_of_two_least_power 96 R)) H).
Defined.

(** ** Streaming *)

(** The size mapped for a model of 1 to 32767 triangles: a power of two
    from 128 bytes to 4 MBytes, with room for three vertices a triangle. *)
Lemma stream_data_size (count : Z) :
  1 <= count <= 32767 ->
  let size := next_power_of_two (GLuint (count * 3 * sizeof_Md2_Vertex)) in
  count * 3 * sizeof_Md2_Vertex <= size
  /\ 128 <= size <= 4194304
  /\ size mod 128 = 0.
Proof.
  intros H. cbv zeta. unfold sizeof_Md2_Vertex.
  rewrite GLuint_small by (change (2 ^ 32) with 4294967296; lia).
  destruct (next_power_of_two_range (count * 3 * 32))
    as (e & He & E & B1 & B2);
    [change (2 ^ 31) with 2147483648; lia|].
  rewrite E.
  assert (E7 : 7 <= e).
  { destruct (Z.lt_ge_cases e 7) as [Lt|]; [|assumption].
    assert (2 ^ e <= 2 ^ 6) by (apply Z.pow_le_mono_r; lia).
    change (2 ^ 6) with 64 in *. lia. }
  assert (E22 : e <= 22).
  { destruct (Z.lt_ge_cases 22 e) as [Lt|]; [|assumption].
    assert (2 ^ 23 <= 2 ^ e) by (apply Z.pow_le_mono_r; lia).
    change (2 ^ 23) with 8388608 in *. lia. }
  assert (P7 : 2 ^ 7 <= 2 ^ e) by (apply Z.pow_le_mono_r; lia).
  assert (P22 : 2 ^ e <= 2 ^ 22) by (apply Z.pow_le_mono_r; lia).
  change (2 ^ 7) with 128 in P7. change (2 ^ 22) with 4194304 in P22.
  split; [lia|]. split; [lia|].
  replace e with (e - 7 + 7) by lia.
  rewrite Z.pow_add_r by lia. change (2 ^ 7) with 128.
  apply Z.mod_mul. lia.
Qed.

Lemma stream_vertices_step (m : Md2) (s : stream) :
  1 <= TriangleCount m <= 32767 -> stream_ok s ->
  stream_ok (fst (stream_vertices m s))
  /\ match snd (stream_vertices m s) with
     | Some mp =>
         mapping_in_buffer mp
         /\ TriangleCount m * 3 * sizeof_Md2_Vertex <= map_length mp
         /\ drawOffset (fst (stream_vertices m s)) * sizeof_Md2_Vertex
            = map_offset mp
         /\ streamOffset (fst (stream_vertices m s))
            = map_offset mp + map_length mp
         /\ map_offset mp = (if orphaned mp then 0 else streamOffset s)
     | None => fst (stream_vertices m s) = s
     end.
Proof.
  intros Hc (Hs & Ha). unfold stream_vertices.
  destruct (IsPlaying m);
    [|cbn [fst snd]; split; [split; assumption | reflexivity]].
  destruct (stream_data_size _ Hc) as (S1 & S2 & S3).
  set (size := next_power_of_two
                 (GLuint (TriangleCount m * 3 * sizeof_Md2_Vertex))) in *.
  unfold STREAM_BUFFER_CAPACITY in *.
  change (8192 * 1024) with 8388608 in *.
  rewrite (GLuint_small (streamOffset s + size))
    by (change (2 ^ 32) with 4294967296; lia).
  assert (D : forall off,
             0 <= off -> off mod 128 = 0 -> off + size <= 8388608 ->
             (0 <= GLuint (off + size) <= 8388608
              /\ GLuint (off + size) mod 128 = 0)
             /\ off / sizeof_Md2_Vertex * sizeof_Md2_Vertex = off
             /\ GLuint (off + size) = off + size).
  { intros off O1 O2 O3.
    rewrite GLuint_small by (change (2 ^ 32) with 4294967296; lia).
    unfold sizeof_Md2_Vertex.
    repeat split; try lia.
    - rewrite Z.add_mod, O2, S3 by lia. reflexivity.
    - assert (M : off mod 32 = 0).
      { rewrite (Z.div_mod off 128) by lia. rewrite O2, Z.add_0_r.
        replace (128 * (off / 128)) with ((4 * (off / 128)) * 32) by lia.
        apply Z.mod_mul. lia. }
      pose proof (Z.div_mod off 32). lia. }
  destruct (Z.gtb_spec (streamOffset s + size) 8388608) as [Full|Room];
    cbn [fst snd streamOffset drawOffset map_offset map_length orphaned].
  - destruct (D 0) as (A & B & C); [lia | reflexivity | lia |].
    unfold stream_ok, mapping_in_buffer, STREAM_BUFFER_CAPACITY.
    cbn [streamOffset map_offset map_length].
    change (8192 * 1024) with 8388608.
    split; [exact A|]. repeat split; try lia; try assumption.
  - destruct (D (streamOffset s)) as (A & B & C); [lia | exact Ha | lia |].
    unfold stream_ok, mapping_in_buffer, STREAM_BUFFER_CAPACITY.
    cbn [streamOffset map_offset map_length].
    change (8192 * 1024) with 8388608.
    split; [exact A|]. repeat split; try lia; try assumption.
Qed.

(** Frame after frame, for models of 1 to 32767 triangles, [on_update] maps
    a range that lies inside the 8 MByte buffer and has room for the
    3 * TriangleCount vertices of the model; it starts where the previous
    range ended unless the buffer was orphaned, and the draw offset is
    exactly the first vertex of the range. *)
Theorem stream_vertices_stays_in_buffer (m : Md2) (s : stream) :
  1 <= TriangleCount m <= 32767 ->
  stream_ok s ->
  IsPlaying m = true ->
  exists mp,
    snd (stream_vertices m s) = Some mp
    /\ stream_ok (fst (stream_vertices m s))
    /\ mapping_in_buffer mp
    /\ TriangleCount m * 3 * sizeof_Md2_Vertex <= map_length mp
    /\ drawOffset (fst (stream_vertices m s)) * sizeof_Md2_Vertex
       = map_offset mp
    /\ streamOffset (fst (stream_vertices m s))
       = map_offset mp + map_length mp
    /\ map_offset mp = (if orphaned mp then 0 else streamOffset s).
Proof.
  intros Hc Hs Hp.
  destruct (stream_vertices_step m s Hc Hs) as [A B].
  destruct (snd (stream_vertices m s)) as [mp|] eqn:E.
  - exists mp. split; [reflexivity|]. split; [exact A | exact B].
  - unfold stream_vertices in E. rewrite Hp in E. discriminate E.
Qed.

Lemma stream_vertices_stays_in_buffer_witness :
  1 <= TriangleCount many_model <= 32767
  /\ stream_ok (mk_stream 0 0)
  /\ IsPlaying many_model = true
  /\ exists mp,
      snd (stream_vertices many_model (mk_stream 0 0)) = Some mp
      /\ mapping_in_buffer mp
      /\ TriangleCount many_model * 3 * sizeof_Md2_Vertex <= map_length mp.
Proof.
  assert (H1 : 1 <= TriangleCount many_model <= 32767) by (cbn; lia).
  assert (H2 : stream_ok (mk_stream 0 0))
    by (vm_compute; repeat split; discriminate).
  assert (H3 : IsPlaying many_model = true) by reflexivity.
  split; [exact H1|]. split; [exact H2|]. split; [exact H3|].
  destruct (stream_vertices_stays_in_buffer
              many_model (mk_stream 0 0) H1 H2 H3)
    as (mp & A & _ & B & C & _).
  exists mp. split; [exact A|]. split; [exact B | exact C].
Defined.

(** Over a whole run of frames from the initial static variables, every
    range that [on_update] maps lies inside the buffer. *)
Theorem stream_frames_stay_in_buffer (ms : list Md2) :
  Forall (fun m => 1 <= TriangleCount m <= 32767) ms ->
  Forall mapping_in_buffer (snd (stream_frames ms (mk_stream 0 0))).
Proof.
  assert (G : forall s,
             stream_ok s ->
             Forall (fun m => 1 <= TriangleCount m <= 32767) ms ->
             Forall mapping_in_buffer (snd (stream_frames ms s))).
  { induction ms as [|m ms IH]; intros s Hs F; cbn [stream_frames].
    - constructor.
    - inversion F as [|m' ms' Hm F' E]; subst.
      destruct (stream_vertices_step m s Hm Hs) as [A B].
      destruct (stream_vertices m s) as [s1 r]. cbn [fst snd] in *.
      specialize (IH s1 A F').
      destruct (stream_frames ms s1) as [s2 rs]. cbn [snd] in *.
      destruct r as [mp|]; [|exact IH].
      constructor; [apply B | exact IH]. }
  intros F. apply G; [|exact F].
  unfold stream_ok. cbn. split; [unfold STREAM_BUFFER_CAPACITY; lia|].
  reflexivity.
Qed.

Lemma stream_frames_stay_in_buffer_witness :
  Forall (fun m => 1 <= TriangleCount m <= 32767)
         [many_model; Pause many_model; many_model]
  /\ Forall mapping_in_buffer
            (snd (stream_frames [many_model; Pause many_model; many_model]
                                (mk_stream 0 0))).
Proof.
  assert (H1 : 1 <= 21846 <= 32767) by lia.
  assert (F : Forall (fun m => 1 <= TriangleCount m <= 32767)
                     [many_model; Pause many_model; many_model])
    by (repeat (constructor; [exact H1|]); constructor).
  split; [exact F|]. exact (stream_frames_stay_in_buffer _ F).
Defined.

(** ** Framework.cpp: Tga::_Flip *)

Lemma int_value_Some (z v : Z) : int_value z = Some v -> v = z.
Proof.
  unfold int_value. destruct (_ && _); [|discriminate]. congruence.
Qed.

Lemma int_value_small (z : Z) :
  - 2 ^ 31 <= z < 2 ^ 31 -> int_value z = Some z.
Proof.
  intros H. unfold int_value.
  destruct (- 2 ^ 31 <=? z) eqn:A; [|apply Z.leb_gt in A; lia].
  destruct (z <? 2 ^ 31) eqn:B; [|apply Z.ltb_ge in B; lia].
  reflexivity.
Qed.

(** A loop stops without result at an iteration whose body has none. *)
Lemma for_fails {St : Type} (body : Z -> St -> option St) (k : nat) :
  forall (n : nat) (i : Z) (s : St),
    (k < n)%nat ->
    (forall s', body (i + Z.of_nat k) s' = None) ->
    for_ n i body s = None.
Proof.
  induction k as [|k IH]; intros n i s Hk Hb.
  - destruct n as [|n]; [lia|]. cbn [for_].
    replace (i + Z.of_nat 0) with i in Hb by lia.
    now rewrite Hb.
  - destruct n as [|n]; [lia|]. cbn [for_].
    destruct (body i s) as [s1|]; [|reflexivity]. cbn [bind].
    apply IH; [lia|]. intros s'.
    replace (i + 1 + Z.of_nat k) with (i + Z.of_nat (S k)) by lia.
    apply Hb.
Qed.

Lemma for_invariant {St : Type} (P : Z -> St -> Prop)
    (body : Z -> St -> option St) :
  forall (n : nat) (i : Z) (s : St),
    P i s ->
    (forall j t, i <= j < i + Z.of_nat n -> P j t ->
       exists t', body j t = Some t' /\ P (j + 1) t') ->
    exists s', for_ n i body s = Some s' /\ P (i + Z.of_nat n) s'.
Proof.
  induction n as [|n IH]; intros i s Hs Hb.
  - exists s. split; [reflexivity|]. now replace (i + Z.of_nat 0) with i by lia.
  - cbn [for_]. destruct (Hb i s) as (s1 & E1 & P1); [lia | exact Hs |].
    rewrite E1. cbn [bind].
    destruct (IH (i + 1) s1 P1) as (s2 & E2 & P2).
    { intros j t Hj. apply Hb. lia. }
    exists s2. split; [exact E2|].
    now replace (i + Z.of_nat (S n)) with (i + 1 + Z.of_nat n) by lia.
Qed.

Lemma mul_bounds (a b c : Z) :
  0 <= a <= b -> 0 <= c -> 0 <= a * c <= b * c.
Proof.
  intros H Hc. split.
  - apply Z.mul_nonneg_nonneg; lia.
  - apply Z.mul_le_mono_nonneg_r; lia.
Qed.

Lemma memcpy_defined (dst : list byte) (d : Z) (src : list byte) (s n : Z) :
  0 <= n -> 0 <= d -> d + n <= Z.of_nat (length dst) ->
  0 <= s -> s + n <= Z.of_nat (length src) ->
  exists r, memcpy dst d src s n = Some r.
Proof.
  intros Hn Hd Hd' Hs Hs'. unfold memcpy.
  apply Z.leb_le in Hn, Hd, Hd', Hs, Hs'.
  rewrite Hn, Hd, Hd', Hs, Hs'. cbn [andb]. eexists. reflexivity.
Qed.

Lemma memcpy_Some (dst : list byte) (d : Z) (src : list byte) (s n : Z)
    (r : list byte) :
  memcpy dst d src s n = Some r ->
  length r = length dst
  /\ (forall i, d <= i < d + n -> index r i = index src (s + (i - d)))
  /\ (forall i, i < d \/ d + n <= i -> index r i = index dst i).
Proof.
  unfold memcpy.
  destruct (_ && _) eqn:C; [|discriminate]. intros [= <-].
  repeat (apply andb_prop in C; destruct C as [C ?]).
  repeat match goal with
  | H : (_ <=? _) = true |- _ => apply Z.leb_le in H
  end.
  assert (L1 : length (firstn (Z.to_nat d) dst) = Z.to_nat d).
  { rewrite length_firstn. lia. }
  assert (L2 : length (firstn (Z.to_nat n) (skipn (Z.to_nat s) src))
               = Z.to_nat n).
  { rewrite length_firstn, length_skipn. lia. }
  split; [|split].
  - rewrite !length_app, L1, L2, length_skipn. lia.
  - intros i Hi. unfold index.
    destruct (i <? 0) eqn:E; [apply Z.ltb_lt in E; lia|].
    destruct (s + (i - d) <? 0) eqn:E'; [apply Z.ltb_lt in E'; lia|].
    rewrite nth_error_app2 by lia. rewrite L1.
    rewrite nth_error_app1 by lia.
    rewrite nth_error_firstn.
    destruct (Nat.ltb_spec (Z.to_nat i - Z.to_nat d) (Z.to_nat n)); [|lia].
    rewrite nth_error_skipn. f_equal. lia.
  - intros i Hi. unfold index.
    destruct (i <? 0) eqn:E; [reflexivity|]. apply Z.ltb_ge in E.
    destruct Hi as [Hi|Hi].
    + rewrite nth_error_app1 by lia. rewrite nth_error_firstn.
      destruct (Nat.ltb_spec (Z.to_nat i) (Z.to_nat d)); [reflexivity|lia].
    + rewrite nth_error_app2 by lia. rewrite L1.
      rewrite nth_error_app2 by lia. rewrite L2.
      rewrite nth_error_skipn. f_equal. lia.
Qed.

(** The copy of the first pixel of a row [y] whose source row
    [mWidth - y] is not a row of the image has no result. *)
Lemma _Flip_pixel_outside (tga : Tga.t) (pixels : list byte) (y : Z) :
  Tga_loaded tga pixels ->
  Tga.mWidth tga - y < 0 \/ Tga.mHeight tga <= Tga.mWidth tga - y ->
  forall flippedData, _Flip_pixel tga y 0 flippedData = None.
Proof.
  intros (Hp & HW & HH & HF & Hlen) Hy fd. unfold _Flip_pixel.
  repeat match goal with
  | |- bind (int_value ?z) _ = None =>
      let E := fresh "E" in
      destruct (int_value z) eqn:E; [apply int_value_Some in E|reflexivity];
      cbn [bind]
  end.
  rewrite Hp. cbn [bind]. unfold memcpy. subst.
  match goal with |- (if ?c then _ else _) = None =>
    destruct c eqn:C; [|reflexivity] end.
  exfalso.
  repeat (apply andb_prop in C; destruct C as [C ?]).
  repeat match goal with
  | H : (_ <=? _) = true |- _ => apply Z.leb_le in H
  end.
  set (W := Tga.mWidth tga) in *. set (H' := Tga.mHeight tga) in *.
  set (F := Tga.mPixelFormat tga) in *.
  replace (0 * F) with 0 in * by lia.
  destruct Hy as [Hy|Hy].
  - assert (N : (W - y) * (W * F) < 0).
    { apply Z.mul_neg_pos; [lia|]. apply Z.mul_pos_pos; lia. }
    lia.
  - assert (N : H' * (W * F) <= (W - y) * (W * F)).
    { apply Z.mul_le_mono_nonneg_r; [|lia].
      apply Z.mul_nonneg_nonneg; lia. }
    lia.
Qed.

Lemma _Flip_pixel_step (tga : Tga.t) (pixels : list byte) (y x : Z)
    (flippedData : list byte) :
  Tga_loaded tga pixels ->
  Tga.mHeight tga = Tga.mWidth tga + 1 ->
  Tga.mWidth tga * Tga.mHeight tga * Tga.mPixelFormat tga < 2 ^ 31 ->
  0 <= y < Tga.mHeight tga -> 0 <= x < Tga.mWidth tga ->
  flipped_upto tga pixels (y * Tga.mWidth tga + x) flippedData ->
  exists flippedData',
    _Flip_pixel tga y x flippedData = Some flippedData'
    /\ flipped_upto tga pixels (y * Tga.mWidth tga + x + 1) flippedData'.
Proof.
  intros (Hp & HW & HH & HF & Hlen) HE Hsmall Hy Hx (Il & Ib).
  unfold flipped_upto, Tga_byte in *.
  set (W := Tga.mWidth tga) in *. set (F := Tga.mPixelFormat tga) in *.
  rewrite HE in *. clear HE.
  pose proof (mul_bounds y W W ltac:(lia) ltac:(lia)) as B0.
  pose proof (mul_bounds (y * W) (W * W) F B0 ltac:(lia)) as B1.
  pose proof (mul_bounds (x + 1) W F ltac:(lia) ltac:(lia)) as B2.
  pose proof (mul_bounds (W - y) W W ltac:(lia) ltac:(lia)) as B4.
  pose proof (mul_bounds ((W - y) * W) (W * W) F B4 ltac:(lia)) as B5.
  pose proof (mul_bounds 1 F (W * W) ltac:(lia) ltac:(lia)) as B7.
  pose proof (mul_bounds 0 x F ltac:(lia) ltac:(lia)) as B8.
  unfold _Flip_pixel. fold W F.
  rewrite (int_value_small (y * W)) by lia. cbn [bind].
  rewrite (int_value_small (y * W * F)) by lia. cbn [bind].
  rewrite (int_value_small (x * F)) by lia. cbn [bind].
  rewrite (int_value_small (y * W * F + x * F)) by lia. cbn [bind].
  rewrite (int_value_small (W - y)) by lia. cbn [bind].
  rewrite (int_value_small ((W - y) * W)) by lia. cbn [bind].
  rewrite (int_value_small ((W - y) * W * F)) by lia. cbn [bind].
  rewrite (int_value_small ((W - y) * W * F + x * F)) by lia. cbn [bind].
  rewrite Hp. cbn [bind].
  destruct (memcpy_defined flippedData (y * W * F + x * F) pixels
              ((W - y) * W * F + x * F) F) as (r & E); try lia.
  rewrite E. exists r. split; [reflexivity|].
  apply memcpy_Some in E. destruct E as (Rl & Rin & Rout).
  split; [congruence|].
  intros y' x' k Hy' Hx' Hk Hc.
  destruct (Z_lt_le_dec (y' * W + x') (y * W + x)) as [Lt|Ge].
  - rewrite Rout.
    + now apply Ib.
    + left.
      assert (M : (y' * W + x' + 1) * F <= (y * W + x) * F)
        by (apply Z.mul_le_mono_nonneg_r; lia).
      lia.
  - assert (U : y' = y /\ x' = x).
    { apply (Z.div_mod_unique W); [lia | lia | lia]. }
    destruct U as [-> ->].
    rewrite Rin by lia. f_equal. lia.
Qed.

(** [Tga::_Flip] reads the row [mWidth - y] of the image for the row [y]
    of the copy.  On an image that the loaders have built (not empty, an
    array of [mWidth*mHeight*mPixelFormat] bytes) it is defined only when
    the image has one row more than it has columns.  It is then the
    vertical flip (given that the number of bytes fits an [int]): the
    dimensions are kept and the row [y] of the new array is the row
    [mHeight - 1 - y] of the old one. *)
Theorem Tga_Flip_needs_one_row_more_than_columns
    (indeterminate : nat -> byte) (tga : Tga.t) (pixels : list byte) :
  Tga_loaded tga pixels ->
  (_Flip indeterminate tga <> None ->
   Tga.mHeight tga = Tga.mWidth tga + 1)
  /\ (Tga.mHeight tga = Tga.mWidth tga + 1 ->
      Tga.mWidth tga * Tga.mHeight tga * Tga.mPixelFormat tga < 2 ^ 31 ->
      exists flipped,
        _Flip indeterminate tga
        = Some (Tga.mk (Some flipped) (Tga.mWidth tga) (Tga.mHeight tga)
                       (Tga.mPixelFormat tga))
        /\ length flipped = length pixels
        /\ forall y x k,
            0 <= y < Tga.mHeight tga -> 0 <= x < Tga.mWidth tga ->
            0 <= k < Tga.mPixelFormat tga ->
            Tga_byte tga flipped y x k
            = Tga_byte tga pixels (Tga.mHeight tga - 1 - y) x k).
Proof.
  intros L. split.
  - intros D.
    destruct (Z.eq_dec (Tga.mHeight tga) (Tga.mWidth tga + 1)) as [E|E];
      [exact E|].
    exfalso. apply D. clear D.
    pose proof L as (Hp & HW & HH & HF & Hlen).
    assert (Y : exists y, 0 <= y < Tga.mHeight tga
               /\ (Tga.mWidth tga - y < 0
                   \/ Tga.mHeight tga <= Tga.mWidth tga - y)).
    { destruct (Z_le_gt_dec (Tga.mHeight tga) (Tga.mWidth tga)).
      - exists 0. lia.
      - exists (Tga.mWidth tga + 1). lia. }
    destruct Y as (y & Hy & Hrow).
    unfold _Flip.
    destruct (int_value (Tga.mWidth tga * Tga.mHeight tga)) as [wh|];
      [|reflexivity].
    cbn [bind].
    destruct (int_value (wh * Tga.mPixelFormat tga)) as [n|];
      [|reflexivity].
    cbn [bind]. destruct (n <? 0); [reflexivity|].
    rewrite (for_fails _ (Z.to_nat y)); [reflexivity | lia |].
    intros fd. apply (for_fails _ 0%nat); [lia|].
    intros fd'. replace (0 + Z.of_nat 0) with 0 by lia.
    replace (0 + Z.of_nat (Z.to_nat y)) with y by lia.
    now apply (_Flip_pixel_outside tga pixels).
  - intros HE Hsmall.
    pose proof L as (Hp & HW & HH & HF & Hlen).
    set (W := Tga.mWidth tga) in *. set (H := Tga.mHeight tga) in *.
    set (F := Tga.mPixelFormat tga) in *.
    assert (B0 : 0 <= W * H) by (apply Z.mul_nonneg_nonneg; lia).
    pose proof (mul_bounds 1 F (W * H) ltac:(lia) B0) as B1.
    unfold _Flip. fold W H F.
    rewrite (int_value_small (W * H)) by lia. cbn [bind].
    rewrite (int_value_small (W * H * F)) by lia. cbn [bind].
    destruct (Z.ltb_spec (W * H * F) 0) as [N|_]; [lia|].
    destruct (for_invariant
                (fun y s => flipped_upto tga pixels (y * W) s)
                (fun y => for_ (Z.to_nat W) 0 (_Flip_pixel tga y))
                (Z.to_nat H) 0
                (uninitialized indeterminate (Z.to_nat (W * H * F))))
      as (flipped & E & (Fl & Fb)).
    + split.
      * unfold uninitialized. rewrite length_map, length_seq. lia.
      * intros y x k Hy Hx Hk Hc. exfalso.
        assert (0 <= y * W) by (apply Z.mul_nonneg_nonneg; lia).
        fold W in Hx. lia.
    + intros y s Hy Ps.
      destruct (for_invariant
                  (fun x s => flipped_upto tga pixels (y * W + x) s)
                  (_Flip_pixel tga y) (Z.to_nat W) 0 s)
        as (s' & E' & P').
      * now replace (y * W + 0) with (y * W) by lia.
      * intros x t Hx Pt.
        replace (y * W + (x + 1)) with (y * W + x + 1) by lia.
        apply (_Flip_pixel_step tga pixels y x t L HE Hsmall);
          [lia | fold W; lia | exact Pt].
      * exists s'. split; [exact E'|].
        replace ((y + 1) * W) with (y * W + (0 + Z.of_nat (Z.to_nat W)))
          by lia.
        exact P'.
    + rewrite E. cbn [bind]. exists flipped.
      split; [reflexivity|]. split; [exact Fl|].
      intros y x k Hy Hx Hk.
      replace (H - 1 - y) with (W - y) by lia.
      apply Fb; try lia.
      replace (0 + Z.of_nat (Z.to_nat H)) with (y + 1 + (H - 1 - y)) by lia.
      assert (M : 0 <= (H - 1 - y) * W)
        by (apply Z.mul_nonneg_nonneg; lia).
      fold W in Hx. lia.
Qed.

Lemma Tga_Flip_needs_one_row_more_than_columns_witness :
  Tga_loaded two_by_three ["1"; "2"; "3"; "4"; "5"; "6"]%byte
  /\ Tga_loaded two_by_two ["1"; "2"; "3"; "4"]%byte
  /\ _Flip zeros two_by_two = None
  /\ _Flip zeros two_by_three
     = Some (Tga.mk (Some ["5"; "6"; "3"; "4"; "1"; "2"]%byte) 2 3 1)
  /\ exists flipped,
      _Flip zeros two_by_three = Some (Tga.mk (Some flipped) 2 3 1)
      /\ length flipped = 6%nat
      /\ forall y x k,
          0 <= y < 3 -> 0 <= x < 2 -> 0 <= k < 1 ->
          Tga_byte two_by_three flipped y x k
          = Tga_byte two_by_three ["1"; "2"; "3"; "4"; "5"; "6"]%byte
                     (3 - 1 - y) x k.
Proof.
  assert (L : Tga_loaded two_by_three ["1"; "2"; "3"; "4"; "5"; "6"]%byte).
  { split; [reflexivity|]. cbn. lia. }
  assert (L2 : Tga_loaded two_by_two ["1"; "2"; "3"; "4"]%byte).
  { split; [reflexivity|]. cbn. lia. }
  split; [exact L|]. split; [exact L2|].
  split; [vm_compute; reflexivity|]. split; [vm_compute; reflexivity|].
  exact (proj2 (Tga_Flip_needs_one_row_more_than_columns zeros two_by_three _ L)
               eq_refl eq_refl).
Defined.
